(** * Choreography planner for the NAO robot: a shallow embedding

The repository plans a sequence of named moves with a best-first search.
Two entry points exist: [main.py] (three-tier priority, filler counter,
catalog iterated in sorted order) and [choreography_planner.py]
(goal-dominant priority, catalog iterated in insertion order).  They share
the helper functions and the search loop word for word, so the helpers and
the loop are embedded once and instantiated by the two modules [Main] and
[Planner].

Modelling conventions.
- Python [str] is [string]; Python lists are lists; the counters
  ([goals_completed], [filler_moves], [expansions], [counter]) and the
  integer constants are [nat], as they are in every state the program
  builds; differences of counters that meet a float are taken in [Z].
- Python [float] durations, times and priorities are exact rationals [Q]
  in the search: the statements about it are about the formulas of the
  program, not about IEEE rounding.  The numbers [save_solution] writes
  are computed on doubles ([Float64]), as the program computes them.
- A Python [dict] is an insertion-ordered association list with unique
  keys ([Dict.t]).
- [list(set(xs))] enumerates a set of [str]; its order depends on the
  per-process string hash, so it is a parameter ([SetOrder]).
- [heapq] is modelled by its contract: [heappop] removes the least tuple. *)

From Stdlib Require Import QArith Qround Qabs Lqa.
From stdpp Require Import base decidable option list sorting strings.

Local Open Scope string_scope.
Local Open Scope list_scope.
Local Open Scope nat_scope.

(** ** Insertion-ordered dictionaries *)

Module Dict.
Section dict.
Context {V : Type}.

Fixpoint unique_keys (l : list (string * V)) : bool :=
  match l with
  | [] => true
  | kv :: l' => negb (bool_decide (kv.1 ∈ l'.*1)) && unique_keys l'
  end.

Record t := make {
  items : list (string * V);
  wf : unique_keys items = true
}.

Fixpoint assoc (k : string) (l : list (string * V)) : option V :=
  match l with
  | [] => None
  | kv :: l' => if decide (kv.1 = k) then Some kv.2 else assoc k l'
  end.

(** [d.get(k)] without default: [None] when the key is absent. *)
Definition get (d : t) (k : string) : option V := assoc k (items d).

(** [k in d] *)
Definition contains (d : t) (k : string) : bool :=
  bool_decide (k ∈ (items d).*1).

Lemma assoc_Some_elem k v l : assoc k l = Some v → (k, v) ∈ l.
Proof.
  induction l as [|[k' v'] l IH]; simpl; [done|].
  case_decide; simplify_eq/=.
  - intros [= ->]. left.
  - intros H'. right. auto.
Qed.

Lemma assoc_None_keys k l : assoc k l = None ↔ k ∉ l.*1.
Proof.
  induction l as [|[k' v'] l IH]; simpl.
  - split; [intros _; apply not_elem_of_nil | done].
  - case_decide; simplify_eq/=.
    + split; [done|]. intros H'. exfalso. apply H'. left.
    + rewrite IH, not_elem_of_cons. intuition congruence.
Qed.

Lemma unique_keys_assoc k v l :
  unique_keys l = true → (k, v) ∈ l → assoc k l = Some v.
Proof.
  induction l as [|[k' v'] l IH]; simpl.
  - intros _ H'. by apply elem_of_nil in H'.
  - rewrite andb_true_iff, negb_true_iff, bool_decide_eq_false.
    intros [Hk Hu] Hin. apply elem_of_cons in Hin as [Heq|Hin].
    + simplify_eq. by rewrite decide_True.
    + case_decide as Hd; [|by auto]. simpl in Hd. subst k'.
      exfalso. apply Hk. apply list_elem_of_fmap. by exists (k, v).
Qed.

Lemma get_Some_items d k v : get d k = Some v ↔ (k, v) ∈ items d.
Proof.
  split; [apply assoc_Some_elem|]. apply unique_keys_assoc, wf.
Qed.

Lemma contains_get d k : contains d k = true ↔ is_Some (get d k).
Proof.
  unfold contains, get. rewrite bool_decide_eq_true.
  rewrite <- not_eq_None_Some, assoc_None_keys.
  split; [tauto|]. intros H'. by destruct (decide (k ∈ (items d).*1)).
Qed.
End dict.
Global Arguments t : clear implicits.
End Dict.

(** ** Configuration, as the module-level tables and constants *)

Record Config := {
  goals : list string;
  predecessors : Dict.t (list string);
  durations : Dict.t Q;
  TARGET_TIME : Q;
  DEFAULT_DURATION : Q;
  MAX_EXPANSIONS : nat;
  MAX_STEPS : nat;
  MAX_CONSECUTIVE_REPEATS : nat;
  ALLOW_POST_FILL : bool;
  KEEP_TOP_K : nat
}.

(** The order in which [list(set(xs))] enumerates the distinct elements of
    [xs].  CPython fixes it only within one process (string hashing is
    salted per process), so every enumeration without repetition is
    admissible. *)
Record SetOrder := {
  list_of_set : list string → list string;
  list_of_set_elem : ∀ l x, x ∈ list_of_set l ↔ x ∈ l;
  list_of_set_NoDup : ∀ l, NoDup (list_of_set l)
}.

(** ** Exceptions of the dictionary subscript *)

Inductive exn := KeyError (k : string).

Inductive outcome (A : Type) :=
  | Return (a : A)
  | Raise (e : exn).
Global Arguments Return {A} a.
Global Arguments Raise {A} e.

(** [d[k]] *)
Definition subscript {V} (d : Dict.t V) (k : string) : outcome V :=
  match Dict.get d k with
  | Some v => Return v
  | None => Raise (KeyError k)
  end.

Definition Qltb (x y : Q) : bool :=
  match (x ?= y)%Q with Lt => true | _ => false end.

(** ** Helper functions shared by both entry points *)

Section helpers.
Variable cfg : Config.
Variable so : SetOrder.

Definition get_move_duration (move : string) : Q :=
  default (DEFAULT_DURATION cfg) (Dict.get (durations cfg) move).

(** [can_follow] with the subscript's exception made explicit. *)
Definition can_follow_exn (prev_move next_move : string) : outcome bool :=
  if negb (Dict.contains (predecessors cfg) next_move) then Return false
  else
    match subscript (predecessors cfg) next_move with
    | Return preds => Return (bool_decide (prev_move ∈ preds))
    | Raise e => Raise e
    end.

Definition can_follow (prev_move next_move : string) : bool :=
  match Dict.get (predecessors cfg) next_move with
  | Some preds => bool_decide (prev_move ∈ preds)
  | None => false
  end.

(** [sequence[-MAX_CONSECUTIVE_REPEATS:]]; a start of [-0] is [0]. *)
Definition recent_moves (sequence : list string) : list string :=
  match MAX_CONSECUTIVE_REPEATS cfg with
  | 0 => sequence
  | S _ => drop (length sequence - MAX_CONSECUTIVE_REPEATS cfg) sequence
  end.

(** The test that makes the catalog loop [continue]. *)
Definition repeated (sequence : list string) (move : string) : bool :=
  bool_decide (MAX_CONSECUTIVE_REPEATS cfg ≤ length sequence)
  && forallb (λ m, bool_decide (m = move)) (recent_moves sequence).

(** One iteration of the loop over the catalog entries. *)
Definition loop_step (current_move : string) (goals_completed : nat)
    (sequence : list string)
    (valid_moves : list string) (entry : string * list string)
    : list string :=
  let '(move, move_preds) := entry in
  let completed_goals_set := take goals_completed (goals cfg) in
  if negb (bool_decide (move ∈ completed_goals_set))
     && bool_decide (current_move ∈ move_preds)
  then if repeated sequence move then valid_moves
       else valid_moves ++ [move]
  else valid_moves.

(** [get_valid_next_moves], with the catalog entries in the order in which
    the [for] loop visits them. *)
Definition next_moves_over (entries : list (string * list string))
    (current_move : string) (goals_completed : nat)
    (sequence : list string) : list string :=
  if bool_decide (length (goals cfg) ≤ goals_completed)
     && negb (ALLOW_POST_FILL cfg)
  then []
  else
    let valid_moves :=
      match goals cfg !! goals_completed with
      | Some next_goal =>
          if can_follow current_move next_goal then [next_goal] else []
      | None => []
      end in
    let valid_moves :=
      fold_left (loop_step current_move goals_completed sequence)
                entries valid_moves in
    list_of_set so valid_moves.

(** [state.sequence[-1] if state.sequence else "START"] *)
Definition current_move_of (sequence : list string) : string :=
  default "START" (last sequence).
End helpers.

(** ** The search loop of [find_choreography]

The loop is the same text in both files; it only reads a state's
[sequence], [goals_completed] and [priority], so it is written once over
an arbitrary state type. *)

Module Search.
Section engine.
Context {St : Type}.
Variables (sequence : St → list string) (goals_completed : St → nat)
          (priority : St → Q).
Variables (initial_state : St) (expand_state : St → list St)
          (is_valid_solution : St → bool).
Variables (max_expansions keep_top_k : nat).

(** Heap entries [(priority, counter, state)]. *)
Definition entry : Type := Q * nat * St.

(** Tuple comparison [a < b]: the first component that differs decides;
    the last component falls back on [State.__lt__]. *)
Definition entry_ltb (a b : entry) : bool :=
  let '(pa, ca, sa) := a in
  let '(pb, cb, sb) := b in
  if negb (Qeq_bool pa pb) then Qltb pa pb
  else if negb (ca =? cb) then ca <? cb
  else Qltb (priority sa) (priority sb).

Definition heappush (pq : list entry) (e : entry) : list entry := pq ++ [e].

(** Removes the least entry; [None] on the empty heap. *)
Fixpoint heappop (pq : list entry) : option (entry * list entry) :=
  match pq with
  | [] => None
  | x :: pq' =>
      match heappop pq' with
      | None => Some (x, [])
      | Some (m, rest) =>
          if entry_ltb m x then Some (m, x :: rest) else Some (x, pq')
      end
  end.

Record LoopState := {
  pq : list entry;
  counter : nat;
  visited : list (list string * nat);
  expansions : nat;
  all_solutions : list St;
  best_solution : option St
}.

Definition initial_loop_state : LoopState :=
  {| pq := heappush [] (priority initial_state, 0, initial_state);
     counter := 1;
     visited := [];
     expansions := 0;
     all_solutions := [];
     best_solution := None |}.

(** The [for next_state in expand_state(current_state)] loop. *)
Definition push_all (states : list St) (pq : list entry) (counter : nat)
    : list entry * nat :=
  fold_left
    (λ acc next_state,
       (heappush acc.1 (priority next_state, acc.2, next_state), S acc.2))
    states (pq, counter).

Definition better (current_state : St) (best : option St) : bool :=
  match best with
  | None => true
  | Some b => Qltb (priority current_state) (priority b)
  end.

(** One iteration of the [while] loop. *)
Definition loop_body (ls : LoopState) : LoopState :=
  match heappop (pq ls) with
  | None => ls
  | Some ((_, _, current_state), pq') =>
      let state_key :=
        (sequence current_state, goals_completed current_state) in
      if bool_decide (state_key ∈ visited ls) then
        {| pq := pq'; counter := counter ls; visited := visited ls;
           expansions := expansions ls;
           all_solutions := all_solutions ls;
           best_solution := best_solution ls |}
      else if is_valid_solution current_state then
        {| pq := pq'; counter := counter ls;
           visited := state_key :: visited ls;
           expansions := expansions ls;
           all_solutions := all_solutions ls ++ [current_state];
           best_solution :=
             if better current_state (best_solution ls)
             then Some current_state else best_solution ls |}
      else
        let pushed := push_all (expand_state current_state) pq' (counter ls) in
        {| pq := pushed.1; counter := pushed.2;
           visited := state_key :: visited ls;
           expansions := S (expansions ls);
           all_solutions := all_solutions ls;
           best_solution := best_solution ls |}
  end.

(** [while pq and expansions < MAX_EXPANSIONS] *)
Definition loop_cond (ls : LoopState) : bool :=
  negb (bool_decide (pq ls = []))
  && bool_decide (expansions ls < max_expansions).

Fixpoint while_loop (fuel : nat) (ls : LoopState) : option LoopState :=
  if loop_cond ls then
    match fuel with
    | 0 => None
    | S fuel' => while_loop fuel' (loop_body ls)
    end
  else Some ls.

(** [all_solutions.sort(key=lambda s: s.priority)], a stable sort. *)
Fixpoint insert_by_priority (s : St) (l : list St) : list St :=
  match l with
  | [] => [s]
  | x :: l' =>
      if Qltb (priority s) (priority x) then s :: x :: l'
      else x :: insert_by_priority s l'
  end.

Definition sort_by_priority (l : list St) : list St :=
  fold_left (λ acc s, insert_by_priority s acc) l [].

Definition search_result (ls : LoopState) : option St * list St :=
  let sorted_solutions := sort_by_priority (all_solutions ls) in
  let alternatives :=
    if bool_decide (1 < length sorted_solutions)
    then take keep_top_k sorted_solutions else [] in
  (best_solution ls, alternatives).

Definition find_choreography (fuel : nat) : option (option St * list St) :=
  search_result <$> while_loop fuel initial_loop_state.

(** States the loop can hold: the initial one and the successors of states
    that were expanded, which are never solutions. *)
Inductive search_reachable : St → Prop :=
  | search_reachable_initial : search_reachable initial_state
  | search_reachable_expand s s' :
      search_reachable s → is_valid_solution s = false →
      s' ∈ expand_state s → search_reachable s'.

(** States reachable by repeated expansion, from any state. *)
Inductive reachable : St → Prop :=
  | reachable_initial : reachable initial_state
  | reachable_expand s s' :
      reachable s → s' ∈ expand_state s → reachable s'.

Lemma search_reachable_reachable s : search_reachable s → reachable s.
Proof. induction 1; eauto using reachable. Qed.

Lemma heappop_Some pq0 e rest :
  heappop pq0 = Some (e, rest) → pq0 ≡ₚ e :: rest.
Proof.
  revert e rest. induction pq0 as [|x pq0 IH]; intros e rest; simpl; [done|].
  destruct (heappop pq0) as [[m r]|] eqn:Hpop.
  - specialize (IH _ _ eq_refl).
    destruct (entry_ltb m x); intros [= <- <-]; [|done].
    rewrite IH. apply Permutation_swap.
  - intros [= <- <-]. destruct pq0; [done|].
    simpl in Hpop. by destruct (heappop pq0) as [[??]|]; [case_match|].
Qed.

Lemma heappop_None pq0 : heappop pq0 = None → pq0 = [].
Proof.
  destruct pq0 as [|x pq0]; [done|]. simpl.
  by destruct (heappop pq0) as [[??]|]; [case_match|].
Qed.

Lemma push_all_entries states pq0 c e :
  e ∈ (push_all states pq0 c).1 → e ∈ pq0 ∨ e.2 ∈ states.
Proof.
  unfold push_all. revert pq0 c.
  induction states as [|s states IH]; intros pq0 c; simpl; [by left|].
  intros [Hin|Hin]%IH.
  - unfold heappush in Hin. apply elem_of_app in Hin as [?|Hin]; [by left|].
    apply list_elem_of_singleton in Hin as ->. right. left.
  - right. by right.
Qed.

Lemma push_all_length states pq0 c :
  length (push_all states pq0 c).1 = length pq0 + length states.
Proof.
  unfold push_all. revert pq0 c.
  induction states as [|s states IH]; intros pq0 c; simpl; [lia|].
  rewrite IH. unfold heappush. rewrite length_app. simpl. lia.
Qed.

Lemma insert_by_priority_perm s l : insert_by_priority s l ≡ₚ s :: l.
Proof.
  induction l as [|x l IH]; simpl; [done|].
  case_match; [done|]. rewrite IH. apply Permutation_swap.
Qed.

Lemma sort_by_priority_perm l : sort_by_priority l ≡ₚ l.
Proof.
  unfold sort_by_priority.
  assert (∀ acc, fold_left (λ acc s, insert_by_priority s acc) l acc
                 ≡ₚ acc ++ l) as H'; [|by rewrite H'].
  induction l as [|x l IH]; intros acc; simpl.
  - by rewrite app_nil_r.
  - rewrite IH, insert_by_priority_perm. simpl. apply Permutation_middle.
Qed.

(** What every iteration preserves. *)
Definition loop_inv (ls : LoopState) : Prop :=
  (∀ e, e ∈ pq ls → search_reachable e.2)
  ∧ (∀ s, s ∈ all_solutions ls →
       search_reachable s ∧ is_valid_solution s = true)
  ∧ (∀ s, best_solution ls = Some s → s ∈ all_solutions ls).

Lemma loop_inv_initial : loop_inv initial_loop_state.
Proof.
  split_and!; simpl.
  - intros e ->%list_elem_of_singleton. apply search_reachable_initial.
  - intros s H'. by apply elem_of_nil in H'.
  - done.
Qed.

Lemma loop_inv_body ls : loop_inv ls → loop_inv (loop_body ls).
Proof.
  intros (Hpq & Hsol & Hbest). unfold loop_body.
  destruct (heappop (pq ls)) as [[[[p c] cur] pq']|] eqn:Hpop; [|done].
  apply heappop_Some in Hpop.
  assert (search_reachable cur) as Hcur.
  { apply (Hpq (p, c, cur)). rewrite Hpop. left. }
  assert (∀ e, e ∈ pq' → search_reachable e.2) as Hpq'.
  { intros e He. apply Hpq. rewrite Hpop. by right. }
  case_bool_decide; [done|].
  destruct (is_valid_solution cur) eqn:Hvalid.
  - split_and!; simpl; [done| |].
    + intros s [?| ->%list_elem_of_singleton]%elem_of_app; auto.
    + intros s. case_match; [intros [= <-]|intros ?%Hbest];
        apply elem_of_app; [right; left | by left].
  - split_and!; simpl; [|done..].
    intros e [?|He]%push_all_entries; [by auto|].
    by eapply search_reachable_expand.
Qed.

Lemma while_loop_inv fuel ls ls' :
  while_loop fuel ls = Some ls' → loop_inv ls → loop_inv ls'.
Proof.
  revert ls. induction fuel as [|fuel IH]; intros ls; simpl;
    destruct (loop_cond ls); try done; try by intros [= <-].
  intros Hrun Hinv. eapply IH; [done|]. by apply loop_inv_body.
Qed.

(** Every state handed back by the search, as the best solution or as an
    alternative, was collected by the loop. *)
Lemma find_choreography_sound fuel best alternatives s :
  find_choreography fuel = Some (best, alternatives) →
  best = Some s ∨ s ∈ alternatives →
  search_reachable s ∧ is_valid_solution s = true.
Proof.
  unfold find_choreography. intros Hrun Hs.
  destruct (while_loop fuel initial_loop_state) as [ls|] eqn:Hloop; [|done].
  apply while_loop_inv in Hloop as (_ & Hsol & Hbest);
    [|apply loop_inv_initial].
  simpl in Hrun. injection Hrun as <- <-. apply Hsol.
  destruct Hs as [Hs|Hs]; [by apply Hbest|].
  case_bool_decide; [|by apply elem_of_nil in Hs].
  apply elem_of_take in Hs as (i & Hs & _).
  apply list_elem_of_lookup_2 in Hs. by rewrite sort_by_priority_perm in Hs.
Qed.
(** *** Termination: the loop runs out of heap entries or of budget *)

Lemma loop_body_progress ls :
  loop_cond ls = true →
  expansions (loop_body ls) = S (expansions ls)
  ∨ (expansions (loop_body ls) = expansions ls
     ∧ S (length (pq (loop_body ls))) = length (pq ls)).
Proof.
  unfold loop_cond, loop_body.
  rewrite andb_true_iff, negb_true_iff, bool_decide_eq_false.
  intros [Hne _].
  destruct (heappop (pq ls)) as [[[[p c] cur] pq']|] eqn:Hpop.
  - apply heappop_Some, Permutation_length in Hpop. simpl in Hpop.
    case_bool_decide; [by right|]. case_match; [by right | by left].
  - by apply heappop_None in Hpop.
Qed.

Lemma while_loop_terminates ls :
  ∃ n, ∀ fuel, n ≤ fuel → is_Some (while_loop fuel ls).
Proof.
  remember (max_expansions - expansions ls) as budget eqn:Hb.
  revert ls Hb.
  induction budget as [budget IHb] using lt_wf_ind. intros ls Hb.
  remember (length (pq ls)) as size eqn:Hs. revert ls Hb Hs.
  induction size as [size IHs] using lt_wf_ind. intros ls Hb Hs.
  destruct (loop_cond ls) eqn:Hcond.
  - assert (expansions ls < max_expansions) as Hlt.
    { unfold loop_cond in Hcond.
      apply andb_true_iff in Hcond as [_ Hcond].
      by apply bool_decide_eq_true in Hcond. }
    destruct (loop_body_progress ls Hcond) as [Hexp|[Hexp Hlen]].
    + destruct (IHb (max_expansions - expansions (loop_body ls)))
        with (ls := loop_body ls) as [n Hn]; [lia|done|].
      exists (S n). intros [|fuel] ?; [lia|]. simpl. rewrite Hcond.
      apply Hn. lia.
    + destruct (IHs (length (pq (loop_body ls)))) with (ls := loop_body ls)
        as [n Hn]; [lia|lia|done|].
      exists (S n). intros [|fuel] ?; [lia|]. simpl. rewrite Hcond.
      apply Hn. lia.
  - exists 0. intros fuel _. destruct fuel; simpl; rewrite Hcond; eauto.
Qed.

Lemma while_loop_fuel_mono fuel fuel' ls r :
  while_loop fuel ls = Some r → fuel ≤ fuel' → while_loop fuel' ls = Some r.
Proof.
  revert fuel' ls. induction fuel as [|fuel IH]; intros fuel' ls; simpl.
  - destruct (loop_cond ls) eqn:Hcond; [done|]. intros [= <-] _.
    destruct fuel'; simpl; by rewrite Hcond.
  - destruct (loop_cond ls) eqn:Hcond.
    + intros Hrun Hle. destruct fuel' as [|fuel']; [lia|]. simpl.
      rewrite Hcond. apply IH; [done|lia].
    + intros [= <-] _. destruct fuel'; simpl; by rewrite Hcond.
Qed.

Lemma while_loop_exit fuel ls ls' :
  while_loop fuel ls = Some ls' → loop_cond ls' = false.
Proof.
  revert ls. induction fuel as [|fuel IH]; intros ls; simpl;
    destruct (loop_cond ls) eqn:Hcond; try done;
    try (by intros [= <-]). apply IH.
Qed.

Lemma find_choreography_terminates :
  ∃ n, ∀ fuel, n ≤ fuel → is_Some (find_choreography fuel).
Proof.
  destruct (while_loop_terminates initial_loop_state) as [n Hn].
  exists n. intros fuel Hle. unfold find_choreography.
  destruct (Hn fuel Hle) as [ls ->]. by eexists.
Qed.

Lemma find_choreography_fuel_irrelevant fuel1 fuel2 r1 r2 :
  find_choreography fuel1 = Some r1 → find_choreography fuel2 = Some r2 →
  r1 = r2.
Proof.
  unfold find_choreography. intros H1 H2.
  destruct (while_loop fuel1 initial_loop_state) as [ls1|] eqn:E1; [|done].
  destruct (while_loop fuel2 initial_loop_state) as [ls2|] eqn:E2; [|done].
  apply while_loop_fuel_mono with (fuel' := fuel1 `max` fuel2) in E1; [|lia].
  apply while_loop_fuel_mono with (fuel' := fuel1 `max` fuel2) in E2; [|lia].
  simplify_eq/=. done.
Qed.
End engine.
End Search.

(** ** Facts about the helper functions *)

(** [sorted(predecessors.items())]: the entries by ascending key.  Keys are
    unique, so the comparison of two entries is decided by their keys. *)
Definition key_le (a b : string * list string) : Prop := String.le a.1 b.1.

Global Instance key_le_dec : RelDecision key_le :=
  λ a b, decide (String.le a.1 b.1).

Definition sorted (entries : list (string * list string))
    : list (string * list string) :=
  merge_sort key_le entries.

Lemma sorted_elem entries e : e ∈ sorted entries ↔ e ∈ entries.
Proof. unfold sorted. by rewrite merge_sort_Permutation. Qed.

(** [goals_completed < len(goals) and move == goals[goals_completed]] *)
Definition is_next_goal (cfg : Config) (goals_completed : nat) (move : string)
    : bool :=
  match goals cfg !! goals_completed with
  | Some next_goal => bool_decide (move = next_goal)
  | None => false
  end.

Lemma is_next_goal_true cfg gc move :
  is_next_goal cfg gc move = true ↔ goals cfg !! gc = Some move.
Proof.
  unfold is_next_goal. destruct (goals cfg !! gc) as [g|]; [|done].
  rewrite bool_decide_eq_true. split; [by intros ->|by intros [= ->]].
Qed.

Section helper_facts.
Variable cfg : Config.
Variable so : SetOrder.

Lemma can_follow_exn_pure prev_move next_move :
  can_follow_exn cfg prev_move next_move
  = Return (can_follow cfg prev_move next_move).
Proof.
  unfold can_follow_exn, can_follow, subscript.
  destruct (Dict.contains (predecessors cfg) next_move) eqn:Hc; simpl.
  - apply Dict.contains_get in Hc as [preds ->]. done.
  - destruct (Dict.get (predecessors cfg) next_move) eqn:Hg; [|done].
    assert (Dict.contains (predecessors cfg) next_move = true) as Hc'.
    { apply Dict.contains_get. by eexists. }
    congruence.
Qed.

Lemma can_follow_true prev_move next_move :
  can_follow cfg prev_move next_move = true ↔
  ∃ preds, Dict.get (predecessors cfg) next_move = Some preds
           ∧ prev_move ∈ preds.
Proof.
  unfold can_follow.
  destruct (Dict.get (predecessors cfg) next_move) as [preds|].
  - rewrite bool_decide_eq_true. split; [by eauto|]. by intros (? & [= <-] & ?).
  - split; [done|]. by intros (? & ? & ?).
Qed.

(** The condition under which the catalog loop appends [move]. *)
Definition offered_by_loop (entries : list (string * list string))
    (current_move : string) (goals_completed : nat)
    (sequence : list string) (move : string) : Prop :=
  ∃ move_preds,
    (move, move_preds) ∈ entries
    ∧ (move ∉ take goals_completed (goals cfg))
    ∧ current_move ∈ move_preds
    ∧ repeated cfg sequence move = false.

Lemma loop_step_fold entries current_move gc sequence valid_moves move :
  move ∈ fold_left (loop_step cfg current_move gc sequence)
                   entries valid_moves
  ↔ move ∈ valid_moves
    ∨ offered_by_loop entries current_move gc sequence move.
Proof.
  unfold offered_by_loop. revert valid_moves.
  induction entries as [|[k ps] entries IH]; intros valid_moves; simpl.
  - split; [by left|]. intros [?|(? & []%elem_of_nil & _)]. done.
  - rewrite IH. clear IH.
    destruct (negb (bool_decide (k ∈ take gc (goals cfg)))
              && bool_decide (current_move ∈ ps)) eqn:Hsel.
    + apply andb_true_iff in Hsel as [Hk Hc].
      apply negb_true_iff, bool_decide_eq_false in Hk.
      apply bool_decide_eq_true in Hc.
      destruct (repeated cfg sequence k) eqn:Hrep.
      * split; [intros [?|(ps' & Hin & ?)]; [by left|right; exists ps'];
                split; [by right|done]|].
        intros [?|(ps' & Hin & Hn & Hcur & Hr)]; [by left|].
        apply elem_of_cons in Hin as [[= -> ->]|Hin]; [congruence|].
        right. by exists ps'.
      * rewrite elem_of_app, list_elem_of_singleton.
        split.
        -- intros [[?| ->]|(ps' & Hin & ?)]; [by left| |].
           ++ right. exists ps. split; [left|done].
           ++ right. exists ps'. split; [by right|done].
        -- intros [?|(ps' & Hin & Hn & Hcur & Hr)]; [by left; left|].
           apply elem_of_cons in Hin as [[= -> ->]|Hin]; [by left; right|].
           right. by exists ps'.
    + split; [intros [?|(ps' & Hin & ?)]; [by left|right; exists ps'];
              split; [by right|done]|].
      intros [?|(ps' & Hin & Hn & Hcur & Hr)]; [by left|].
      apply elem_of_cons in Hin as [[= -> ->]|Hin].
      * apply andb_false_iff in Hsel as [Hsel|Hsel].
        -- apply negb_false_iff, bool_decide_eq_true in Hsel. done.
        -- apply bool_decide_eq_false in Hsel. done.
      * right. by exists ps'.
Qed.

(** The candidates are the privileged next goal and the moves the catalog
    loop lets through. *)
Lemma elem_of_next_moves_over entries current_move gc sequence move :
  move ∈ next_moves_over cfg so entries current_move gc sequence ↔
  ¬ (length (goals cfg) ≤ gc ∧ ALLOW_POST_FILL cfg = false)
  ∧ ((goals cfg !! gc = Some move
      ∧ can_follow cfg current_move move = true)
     ∨ offered_by_loop entries current_move gc sequence move).
Proof.
  unfold next_moves_over.
  destruct (bool_decide (length (goals cfg) ≤ gc)
            && negb (ALLOW_POST_FILL cfg)) eqn:Hstop.
  - apply andb_true_iff in Hstop as [Hlen Hfill].
    apply bool_decide_eq_true in Hlen. apply negb_true_iff in Hfill.
    split; [by intros []%elem_of_nil|]. intros [Hneg _]. by destruct Hneg.
  - rewrite list_of_set_elem, loop_step_fold.
    assert (¬ (length (goals cfg) ≤ gc ∧ ALLOW_POST_FILL cfg = false))
      as Hno.
    { intros [Hlen Hfill]. rewrite Hfill in Hstop.
      by rewrite bool_decide_eq_true_2 in Hstop. }
    assert (move ∈ match goals cfg !! gc with
                   | Some next_goal =>
                       if can_follow cfg current_move next_goal
                       then [next_goal] else []
                   | None => []
                   end
            ↔ goals cfg !! gc = Some move
              ∧ can_follow cfg current_move move = true) as ->; [|tauto].
    destruct (goals cfg !! gc) as [g|]; [|split; [by intros []%elem_of_nil|by intros []]].
    destruct (can_follow cfg current_move g) eqn:Hcf.
    + rewrite list_elem_of_singleton. split; [by intros ->|by intros [[= ->] _]].
    + split; [by intros []%elem_of_nil|]. intros [[= ->] ?]. congruence.
Qed.

(** Every candidate may follow the current move, when the loop runs over
    entries of the predecessor table. *)
Lemma next_moves_can_follow entries current_move gc sequence move :
  (∀ e, e ∈ entries → e ∈ Dict.items (predecessors cfg)) →
  move ∈ next_moves_over cfg so entries current_move gc sequence →
  can_follow cfg current_move move = true.
Proof.
  intros Hentries [_ [[_ ?]|(ps & Hin & _ & Hcur & _)]]%elem_of_next_moves_over;
    [done|].
  apply can_follow_true. exists ps. split; [|done].
  by apply Dict.get_Some_items, Hentries.
Qed.
End helper_facts.

(** ** Counting goals along a sequence

[advance] is the update of [goals_completed] that [expand_state] performs
for one appended move; [count_goals] replays it along a whole sequence,
as [check_order] of [main.py] does. *)

Definition advance (cfg : Config) (goals_completed : nat) (move : string)
    : nat :=
  if is_next_goal cfg goals_completed move
  then S goals_completed else goals_completed.

Definition count_goals (cfg : Config) (start : nat) (sequence : list string)
    : nat :=
  fold_left (advance cfg) sequence start.

Section counting.
Variable cfg : Config.

Lemma advance_ge c move : c ≤ advance cfg c move.
Proof. unfold advance. case_match; lia. Qed.

Lemma advance_le c move :
  c ≤ length (goals cfg) → advance cfg c move ≤ length (goals cfg).
Proof.
  unfold advance. destruct (is_next_goal cfg c move) eqn:Hnext; [|done].
  apply is_next_goal_true, lookup_lt_Some in Hnext. lia.
Qed.

Lemma count_goals_ge c sequence : c ≤ count_goals cfg c sequence.
Proof.
  unfold count_goals. revert c.
  induction sequence as [|e sequence IH]; intros c; simpl; [done|].
  etrans; [apply (advance_ge c e)|apply IH].
Qed.

Lemma count_goals_le c sequence :
  c ≤ length (goals cfg) → count_goals cfg c sequence ≤ length (goals cfg).
Proof.
  unfold count_goals. revert c.
  induction sequence as [|e sequence IH]; intros c Hc; simpl; [done|].
  by apply IH, advance_le.
Qed.

Lemma count_goals_snoc c sequence move :
  count_goals cfg c (sequence ++ [move])
  = advance cfg (count_goals cfg c sequence) move.
Proof. unfold count_goals. by rewrite fold_left_app. Qed.

(** The goals counted are found in the sequence, in order. *)
Lemma count_goals_sublist c sequence :
  take (count_goals cfg c sequence - c) (drop c (goals cfg))
    `sublist_of` sequence.
Proof.
  revert c. induction sequence as [|e sequence IH]; intros c.
  - unfold count_goals. simpl. by rewrite Nat.sub_diag.
  - change (count_goals cfg c (e :: sequence))
      with (count_goals cfg (advance cfg c e) sequence).
    unfold advance. destruct (is_next_goal cfg c e) eqn:Hnext.
    + apply is_next_goal_true in Hnext.
      pose proof (count_goals_ge (S c) sequence) as Hge.
      rewrite (drop_S _ _ _ Hnext).
      replace (count_goals cfg (S c) sequence - c)
        with (S (count_goals cfg (S c) sequence - S c)) by lia.
      simpl. apply sublist_skip, IH.
    + apply sublist_cons, IH.
Qed.

(** No longer prefix of the goal list is found in the sequence. *)
Lemma count_goals_longest c sequence k :
  k ≤ length (goals cfg) - c →
  take k (drop c (goals cfg)) `sublist_of` sequence →
  c + k ≤ count_goals cfg c sequence.
Proof.
  revert c k. induction sequence as [|e sequence IH]; intros c k Hk Hsub.
  - apply sublist_nil_r, (f_equal length) in Hsub.
    rewrite length_take, length_drop in Hsub. simpl in Hsub.
    unfold count_goals. simpl. lia.
  - change (count_goals cfg c (e :: sequence))
      with (count_goals cfg (advance cfg c e) sequence).
    destruct k as [|k].
    { pose proof (advance_ge c e).
      pose proof (count_goals_ge (advance cfg c e) sequence). lia. }
    destruct (lookup_lt_is_Some_2 (goals cfg) c) as [g Hg]; [lia|].
    rewrite (drop_S _ _ _ Hg) in Hsub. simpl in Hsub.
    unfold advance, is_next_goal. rewrite Hg.
    apply sublist_cons_r in Hsub as [Hsub|(l' & [= -> <-] & Hsub)].
    + case_bool_decide as Heq.
      * subst e. apply sublist_cons_l in Hsub as (k1 & k2 & -> & Hsub).
        assert (take k (drop (S c) (goals cfg)) `sublist_of` k1 ++ g :: k2)
          as Hsub'.
        { etrans; [done|]. apply sublist_inserts_l, sublist_cons.
          reflexivity. }
        assert (S c + k ≤ count_goals cfg (S c) (k1 ++ g :: k2))
          by (apply IH; [lia|done]).
        lia.
      * specialize (IH c (S k)). rewrite (drop_S _ _ _ Hg) in IH.
        apply IH; [lia|done].
    + rewrite bool_decide_eq_true_2 by done.
      assert (S c + k ≤ count_goals cfg (S c) sequence)
        by (apply IH; [lia|done]).
      lia.
Qed.

(** [count_goals] from 0 is the length of the longest prefix of the goal
    list that is a subsequence of the sequence. *)
Lemma count_goals_spec sequence :
  count_goals cfg 0 sequence ≤ length (goals cfg)
  ∧ take (count_goals cfg 0 sequence) (goals cfg) `sublist_of` sequence
  ∧ ∀ k, k ≤ length (goals cfg) →
         take k (goals cfg) `sublist_of` sequence →
         k ≤ count_goals cfg 0 sequence.
Proof.
  split_and!.
  - apply count_goals_le. lia.
  - pose proof (count_goals_sublist 0 sequence) as H'.
    by rewrite Nat.sub_0_r in H'.
  - intros k Hk Hsub. apply (count_goals_longest 0 sequence k); [lia|done].
Qed.
End counting.

(** ** Properties of a move sequence *)

(** [a ∈ predecessorsOf(b)] *)
Definition follows (cfg : Config) (a b : string) : Prop :=
  ∃ preds, Dict.get (predecessors cfg) b = Some preds ∧ a ∈ preds.

(** Every move of the sequence may follow the one before it, the first one
    following [prev]. *)
Fixpoint precedence_ok (cfg : Config) (prev : string) (sequence : list string)
    : bool :=
  match sequence with
  | [] => true
  | b :: rest => can_follow cfg prev b && precedence_ok cfg b rest
  end.

(** The sum, from the left, of the durations of the moves. *)
Definition sum_durations (cfg : Config) (sequence : list string) : Q :=
  fold_left Qplus (get_move_duration cfg <$> sequence) 0%Q.

Lemma precedence_ok_snoc cfg prev sequence move :
  precedence_ok cfg prev (sequence ++ [move])
  = precedence_ok cfg prev sequence
    && can_follow cfg (default prev (last sequence)) move.
Proof.
  revert prev. induction sequence as [|b rest IH]; intros prev; simpl.
  - by rewrite andb_true_r.
  - rewrite IH, andb_assoc. do 2 f_equal.
    rewrite last_cons. by destruct (last rest).
Qed.

Lemma precedence_ok_pairs cfg prev sequence :
  precedence_ok cfg prev sequence = true →
  (∀ b, sequence !! 0 = Some b → follows cfg prev b)
  ∧ (∀ i a b, sequence !! i = Some a → sequence !! S i = Some b →
              follows cfg a b).
Proof.
  revert prev. induction sequence as [|x rest IH]; intros prev; simpl.
  - intros _. split; [done|]. intros i a b. by rewrite lookup_nil.
  - rewrite andb_true_iff. intros [Hx [Hhead Hpairs]%IH]. split.
    + intros b [= <-]. by apply can_follow_true.
    + intros [|i] a b; simpl; [intros [= <-]; apply Hhead | apply Hpairs].
Qed.

(** ** Invariants of expansion

Both [expand_state] functions extend a state in the same way; the
invariants are proved once, for any state type whose expansion satisfies
[extends]. *)

Section traces.
Variable cfg : Config.
Variable so : SetOrder.
Context {St : Type}.
Variables (sequence : St → list string) (goals_completed : St → nat)
          (total_time : St → Q).
Variables (initial_state : St) (expand_state : St → list St)
          (is_valid_solution : St → bool).
Variable entries : list (string * list string).

Definition extends (s s' : St) : Prop :=
  length (sequence s) < MAX_STEPS cfg
  ∧ ∃ move,
      move ∈ next_moves_over cfg so entries
               (current_move_of (sequence s)) (goals_completed s)
               (sequence s)
      ∧ sequence s' = sequence s ++ [move]
      ∧ goals_completed s' = advance cfg (goals_completed s) move
      ∧ total_time s' = (total_time s + get_move_duration cfg move)%Q.

Hypothesis initial_empty :
  sequence initial_state = [] ∧ goals_completed initial_state = 0
  ∧ total_time initial_state = 0%Q.
Hypothesis entries_catalog :
  ∀ e, e ∈ entries → e ∈ Dict.items (predecessors cfg).
Hypothesis expand_extends :
  ∀ s s', s' ∈ expand_state s → extends s s'.
Hypothesis valid_solution_spec :
  ∀ s, is_valid_solution s
       = bool_decide (length (goals cfg) ≤ goals_completed s).

Local Abbreviation reachable :=
  (Search.reachable initial_state expand_state).
Local Abbreviation search_reachable :=
  (Search.search_reachable initial_state expand_state is_valid_solution).

Lemma reachable_count_goals s :
  reachable s → goals_completed s = count_goals cfg 0 (sequence s).
Proof.
  induction 1 as [|s s' _ IH Hin].
  - by destruct initial_empty as (-> & -> & _).
  - apply expand_extends in Hin as (_ & move & _ & -> & -> & _).
    by rewrite count_goals_snoc, IH.
Qed.

Lemma reachable_goals_bound s :
  reachable s → goals_completed s ≤ length (goals cfg).
Proof.
  intros ->%reachable_count_goals. apply count_goals_le. lia.
Qed.

Lemma reachable_precedence s :
  reachable s → precedence_ok cfg "START" (sequence s) = true.
Proof.
  induction 1 as [|s s' _ IH Hin].
  - by destruct initial_empty as (-> & _).
  - apply expand_extends in Hin as (_ & move & Hmove & -> & _).
    rewrite precedence_ok_snoc, IH. simpl.
    by eapply next_moves_can_follow.
Qed.


Lemma reachable_length s : reachable s → length (sequence s) ≤ MAX_STEPS cfg.
Proof.
  induction 1 as [|s s' _ _ Hin].
  - destruct initial_empty as (-> & _). simpl. lia.
  - apply expand_extends in Hin as (Hlen & move & _ & -> & _).
    rewrite length_app. simpl. lia.
Qed.

(** A solution met by the search was completed by its last move: its
    parent was expanded, hence not yet a solution. *)
Lemma solution_ends_with_final_goal s g :
  search_reachable s → is_valid_solution s = true →
  last (goals cfg) = Some g →
  goals_completed s = length (goals cfg) ∧ last (sequence s) = Some g.
Proof.
  intros Hs Hvalid Hlast.
  rewrite valid_solution_spec, bool_decide_eq_true in Hvalid.
  pose proof (reachable_goals_bound s (Search.search_reachable_reachable _ _ _ _ Hs))
    as Hle.
  split; [lia|]. destruct Hs as [|s s' Hs Hparent Hin].
  - destruct initial_empty as (_ & Hgc & _). rewrite Hgc in Hvalid.
    destruct (goals cfg); [done|]. simpl in Hvalid. lia.
  - rewrite valid_solution_spec, bool_decide_eq_false in Hparent.
    apply expand_extends in Hin as (_ & move & _ & Hseq & Hgc & _).
    rewrite Hseq, last_snoc. f_equal.
    unfold advance in Hgc.
    destruct (is_next_goal cfg (goals_completed s) move) eqn:Hnext; [|lia].
    apply is_next_goal_true in Hnext.
    rewrite last_lookup in Hlast.
    replace (pred (length (goals cfg))) with (goals_completed s) in Hlast
      by lia.
    congruence.
Qed.
(** *** Consecutive repetitions *)

Local Abbreviation R := (MAX_CONSECUTIVE_REPEATS cfg).

Lemma repeated_after_run l move :
  1 ≤ R → repeated cfg (l ++ replicate R move) move = true.
Proof.
  intros HR. unfold repeated, recent_moves.
  destruct R as [|n] eqn:HRn; [lia|].
  rewrite length_app, length_replicate.
  rewrite bool_decide_eq_true_2 by lia. simpl andb.
  replace (length l + S n - S n) with (length l) by lia.
  rewrite drop_app_length. clear.
  assert (∀ k, forallb (λ m, bool_decide (m = move)) (replicate k move)
               = true) as Hall; [|apply (Hall (S n))].
  induction k as [|k IH]; simpl; [done|].
  by rewrite bool_decide_eq_true_2.
Qed.

(** A run of [t] copies of [move] at the end of a reachable sequence is
    either made of moves let through by the catalog loop, and then at most
    [R] long, or made of [t] consecutive goal completions. *)
Lemma reachable_trailing_run s t move :
  1 ≤ R → reachable s → 1 ≤ t →
  replicate t move `suffix_of` sequence s →
  (t ≤ R ∧ goals cfg !! goals_completed s ≠ Some move)
  ∨ (t ≤ goals_completed s
     ∧ ∀ i, i < t → goals cfg !! (goals_completed s - t + i) = Some move).
Proof.
  intros HR Hs. revert t.
  induction Hs as [|s s' Hs IH Hin]; intros t Ht Hsuf.
  - destruct initial_empty as (Hseq & _). rewrite Hseq in Hsuf.
    apply suffix_nil_inv, (f_equal length) in Hsuf.
    rewrite length_replicate in Hsuf. simpl in Hsuf. lia.
  - apply expand_extends in Hin as (_ & x & Hx & Hseq & Hgc & _).
    rewrite Hseq in Hsuf. destruct t as [|t]; [lia|].
    rewrite replicate_S_end in Hsuf.
    pose proof (suffix_snoc_inv_1 _ _ _ _ Hsuf) as <-.
    apply suffix_snoc_inv_2 in Hsuf.
    apply elem_of_next_moves_over in Hx as [_ Hx].
    rewrite Hgc. unfold advance.
    destruct (is_next_goal cfg (goals_completed s) move) eqn:Hnext.
    + apply is_next_goal_true in Hnext. right. destruct t as [|t].
      * split; [lia|]. intros i Hi.
        by replace (S (goals_completed s) - 1 + i)
          with (goals_completed s) by lia.
      * destruct (IH (S t)) as [[_ Hne]|[Hle Hall]]; [lia|done|done|].
        split; [lia|]. intros i Hi.
        destruct (decide (i = S t)) as [->|].
        -- by replace (S (goals_completed s) - S (S t) + S t)
             with (goals_completed s) by lia.
        -- replace (S (goals_completed s) - S (S t) + i)
             with (goals_completed s - S t + i) by lia.
           apply Hall. lia.
    + assert (goals cfg !! goals_completed s ≠ Some move) as Hne.
      { intros H'%is_next_goal_true. congruence. }
      destruct Hx as [[? _]|(ps & _ & Hnot & _ & Hrep)]; [done|].
      left. split; [|done]. destruct t as [|t]; [lia|].
      destruct (IH (S t)) as [[Hle _]|[Hle Hall]]; [lia|done| |].
      * destruct (decide (S t = R)) as [Heq|]; [|lia]. exfalso.
        destruct Hsuf as [l Hl]. rewrite Hl, Heq in Hrep.
        by rewrite repeated_after_run in Hrep.
      * exfalso. apply Hnot, elem_of_take.
        exists (goals_completed s - 1). split; [|lia].
        specialize (Hall t).
        replace (goals_completed s - S t + t)
          with (goals_completed s - 1) in Hall by lia.
        apply Hall. lia.
Qed.

(** Anywhere in a reachable sequence, a run of more than [R] copies of a
    move spells out as many consecutive entries of the goal list. *)
Lemma reachable_runs s l1 l2 t move :
  1 ≤ R → reachable s →
  sequence s = l1 ++ replicate t move ++ l2 →
  t ≤ R ∨ ∃ j, ∀ i, i < t → goals cfg !! (j + i) = Some move.
Proof.
  intros HR Hs. revert l1 l2.
  induction Hs as [|s s' Hs IH Hin]; intros l1 l2 Heq.
  - destruct initial_empty as (Hseq & _). rewrite Hseq in Heq.
    apply (f_equal length) in Heq.
    rewrite !length_app, length_replicate in Heq. simpl in Heq.
    left. lia.
  - destruct l2 as [|y l2 _] using rev_ind.
    + rewrite app_nil_r in Heq. destruct t as [|t]; [left; lia|].
      destruct (reachable_trailing_run s' (S t) move)
        as [[? _]|[? Hall]]; [done| |lia| |by left|].
      * by eapply Search.reachable_expand.
      * exists l1. done.
      * right. by exists (goals_completed s' - S t).
    + apply expand_extends in Hin as (_ & x & _ & Hseq & _).
      rewrite Hseq, !app_assoc in Heq.
      apply app_inj_tail in Heq as [Heq _].
      rewrite <- app_assoc in Heq. by eapply IH.
Qed.
End traces.

(** ** The doubles of the saved record

The search is read on exact rationals.  What [save_solution] writes is the
rounding of a double, so the values it reads are computed here as Python
computes them: IEEE 754 binary64, every literal and every sum rounded to
the nearest double, ties to the even one. *)

Module Float64.
(** A double: a finite value other than zero, held exactly, a zero with
    its sign, an infinity with its sign, or NaN. *)
Inductive float :=
  | Finite (x : Q)
  | Zero (negative : bool)
  | Infinity (negative : bool)
  | NaN.

(** The integer nearest to [q], ties going to the even one. *)
Definition nearest_even (q : Q) : Z :=
  let lower := Qfloor q in
  let rest := (q - inject_Z lower)%Q in
  if Qltb rest (1 # 2) then lower
  else if Qltb (1 # 2) rest then (lower + 1)%Z
  else if Z.even lower then lower else (lower + 1)%Z.

(** The exponent [e] of the last place of the double nearest to [q], for
    [q] other than 0: [2^52 <= |q| / 2^e < 2^53], and [-1074] for the
    subnormal numbers. *)
Definition ulp_exponent (q : Q) : Z :=
  let e0 := (Z.log2 (Z.abs (Qnum q)) - Z.log2 (Zpos (Qden q)))%Z in
  let e := if Qle_bool (2 ^ e0) (Qabs q) then e0 else (e0 - 1)%Z in
  Z.max (e - 52) (-1074).

(** The double nearest to [q], for [q] other than 0: the result of an
    operation whose exact result is [q].  A result too small for the
    subnormal numbers is a zero with the sign of [q], one too large an
    infinity. *)
Definition nearest (q : Q) : float :=
  let e := ulp_exponent q in
  let x := (inject_Z (nearest_even (q / 2 ^ e)) * 2 ^ e)%Q in
  if Qeq_bool x 0 then Zero (Qltb q 0)
  else if Qle_bool (2 ^ 1024) (Qabs x) then Infinity (Qltb q 0)
  else Finite (Qred x).

(** The double a literal denotes. *)
Definition of_Q (q : Q) : float :=
  if Qeq_bool q 0 then Zero false else nearest q.

(** [a + b] *)
Definition add (a b : float) : float :=
  match a, b with
  | NaN, _ | _, NaN => NaN
  | Infinity s, Infinity s' => if Bool.eqb s s' then Infinity s else NaN
  | Infinity s, _ | _, Infinity s => Infinity s
  | Zero s, Zero s' => Zero (s && s')
  | Zero _, Finite x | Finite x, Zero _ => Finite x
  | Finite x, Finite y => of_Q (x + y)
  end.

Definition neg (a : float) : float :=
  match a with
  | Finite x => Finite (Qred (- x))
  | Zero s => Zero (negb s)
  | Infinity s => Infinity (negb s)
  | NaN => NaN
  end.

(** [a - b] *)
Definition sub (a b : float) : float := add a (neg b).

(** [abs(a)] *)
Definition abs (a : float) : float :=
  match a with
  | Finite x => Finite (Qred (Qabs x))
  | Zero _ => Zero false
  | Infinity _ => Infinity false
  | NaN => NaN
  end.
End Float64.

(** [round(x, 2)]: the exact value of the double is rounded to the nearest
    multiple of 1/100, ties going to the even one, and the result is the
    double nearest to that decimal, a zero keeping the sign of [x]; zeros,
    infinities and NaN are returned as they are. *)
Definition round2 (x : Float64.float) : Float64.float :=
  match x with
  | Float64.Finite q =>
      let hundredths := Float64.nearest_even (q * 100) in
      if Z.eqb hundredths 0 then Float64.Zero (Qltb q 0)
      else Float64.nearest (inject_Z hundredths / 100)
  | _ => x
  end.

(** The double that [total_time] holds in a state with this sequence:
    [expand_state] starts from [0.0] and adds the duration of one move at
    a time. *)
Definition double_total_time (cfg : Config) (sequence : list string)
    : Float64.float :=
  fold_left (λ total_time move,
               Float64.add total_time
                 (Float64.of_Q (get_move_duration cfg move)))
            sequence (Float64.Zero false).

(** ** [main.py]: three-tier priority and filler counter *)

Module Main.
(** The catalog with the two constants only [main.py] has. *)
Record Profile := {
  catalog :> Config;
  MIN_TIME : Q;
  MAX_TIME : Q
}.

Record State := {
  sequence : list string;
  goals_completed : nat;
  total_time : Q;
  filler_moves : nat;
  heuristic_value : Q;
  priority : Q
}.

(** The record [save_solution] writes out. *)
Record Output := {
  out_total_time : Float64.float;
  out_sequence : list string;
  out_goals_completed : nat;
  out_target_time : Float64.float;
  out_time_difference : Float64.float
}.

Section main.
Variable p : Profile.
Variable so : SetOrder.

(** [sum(durations.get(goal, DEFAULT_DURATION) for goal in
    goals[goals_completed:])]; [sum] adds from the left, starting at 0. *)
Definition _compute_heuristic (goals_completed : nat) : Q :=
  let remaining_goals := drop goals_completed (goals p) in
  fold_left Qplus (get_move_duration p <$> remaining_goals) 0%Q.

Definition goal_penalty (goals_completed : nat) : Q :=
  (inject_Z (Z.of_nat (length (goals p)) - Z.of_nat goals_completed)
   * 10000)%Q.

Definition filler_penalty (goals_completed filler_moves : nat) : Q :=
  if bool_decide (goals_completed = length (goals p))
     && bool_decide (filler_moves < 5)
  then (inject_Z (5 - Z.of_nat filler_moves) * 100)%Q
  else 0%Q.

Definition time_penalty (estimated_final_time : Q) : Q :=
  if Qltb estimated_final_time (MIN_TIME p)
  then (MIN_TIME p - estimated_final_time)%Q
  else if Qltb (MAX_TIME p) estimated_final_time
  then (estimated_final_time - MAX_TIME p)%Q
  else 0%Q.

(** [State.__init__] *)
Definition new_State (sequence : list string) (goals_completed : nat)
    (total_time : Q) (filler_moves : nat) : State :=
  let heuristic_value := _compute_heuristic goals_completed in
  let estimated_final_time := (total_time + heuristic_value)%Q in
  {| sequence := sequence;
     goals_completed := goals_completed;
     total_time := total_time;
     filler_moves := filler_moves;
     heuristic_value := heuristic_value;
     priority :=
       (goal_penalty goals_completed
        + filler_penalty goals_completed filler_moves
        + time_penalty estimated_final_time)%Q |}.

Definition get_valid_next_moves (current_move : string)
    (goals_completed : nat) (sequence : list string) : list string :=
  next_moves_over p so (sorted (Dict.items (predecessors p)))
    current_move goals_completed sequence.

Definition expand_state (state : State) : list State :=
  if bool_decide (MAX_STEPS p ≤ length (sequence state)) then []
  else
    let current_move := current_move_of (sequence state) in
    let next_moves :=
      get_valid_next_moves current_move (goals_completed state)
        (sequence state) in
    (λ move,
       let new_sequence := sequence state ++ [move] in
       let new_time :=
         (total_time state + get_move_duration p move)%Q in
       if is_next_goal p (goals_completed state) move
       then new_State new_sequence (S (goals_completed state)) new_time
              (filler_moves state)
       else new_State new_sequence (goals_completed state) new_time
              (S (filler_moves state)))
    <$> next_moves.

Definition is_valid_solution (state : State) : bool :=
  bool_decide (length (goals p) ≤ goals_completed state).

Definition initial_state : State := new_State [] 0 0%Q 0.

Definition initial_loop_state : Search.LoopState :=
  Search.initial_loop_state priority initial_state.

Definition loop_body (ls : Search.LoopState) : Search.LoopState :=
  Search.loop_body sequence goals_completed priority expand_state
    is_valid_solution ls.

Definition while_loop (fuel : nat) (ls : Search.LoopState)
    : option Search.LoopState :=
  Search.while_loop sequence goals_completed priority expand_state
    is_valid_solution (MAX_EXPANSIONS p) fuel ls.

Definition find_choreography (fuel : nat)
    : option (option State * list State) :=
  Search.find_choreography sequence goals_completed priority
    initial_state expand_state is_valid_solution
    (MAX_EXPANSIONS p) (KEEP_TOP_K p) fuel.

(** [save_solution]: the record handed to [json.dump].  The two rounded
    fields are computed on the double [solution.total_time]. *)
Definition save_solution (solution : State) : Output :=
  let total_time := double_total_time p (sequence solution) in
  let target_time := Float64.of_Q (TARGET_TIME p) in
  {| out_total_time := round2 total_time;
     out_sequence := sequence solution;
     out_goals_completed := goals_completed solution;
     out_target_time := target_time;
     out_time_difference :=
       round2 (Float64.abs (Float64.sub total_time target_time)) |}.

(** [check_order]; [None] stands for the [IndexError] of [goals[c]]. *)
Definition check_order (solution : State) : option bool :=
  c ← foldl (λ acc e,
               c ← acc;
               g ← goals p !! c;
               Some (if bool_decide (e = g) then S c else c))
            (Some 0) (sequence solution);
  Some (bool_decide (c = length (goals p))).

Definition reachable : State → Prop :=
  Search.reachable initial_state expand_state.

Definition search_reachable : State → Prop :=
  Search.search_reachable initial_state expand_state is_valid_solution.

Lemma expand_extends s s' :
  s' ∈ expand_state s →
  extends p so sequence goals_completed total_time
    (sorted (Dict.items (predecessors p))) s s'.
Proof.
  unfold expand_state, extends. case_bool_decide as Hlen.
  - by intros []%elem_of_nil.
  - intros (move & -> & Hmove)%list_elem_of_fmap.
    split; [lia|]. exists move. split; [done|]. unfold advance.
    by destruct (is_next_goal p (goals_completed s) move).
Qed.

Lemma initial_empty :
  sequence initial_state = [] ∧ goals_completed initial_state = 0
  ∧ total_time initial_state = 0%Q.
Proof. done. Qed.

Lemma entries_catalog e :
  e ∈ sorted (Dict.items (predecessors p)) →
  e ∈ Dict.items (predecessors p).
Proof. by rewrite sorted_elem. Qed.
End main.
End Main.

Coercion Main.catalog : Main.Profile >-> Config.


(** ** [choreography_planner.py]: goal-dominant priority *)

Module Planner.
Record State := {
  sequence : list string;
  goals_completed : nat;
  total_time : Q;
  heuristic_value : Q;
  priority : Q
}.

Section planner.
Variable cfg : Config.
Variable so : SetOrder.

Definition _compute_heuristic (goals_completed : nat) : Q :=
  let remaining_goals := drop goals_completed (goals cfg) in
  fold_left Qplus (get_move_duration cfg <$> remaining_goals) 0%Q.

Definition goal_penalty (goals_completed : nat) : Q :=
  (inject_Z (Z.of_nat (length (goals cfg)) - Z.of_nat goals_completed)
   * 1000)%Q.

(** [State.__init__] *)
Definition new_State (sequence : list string) (goals_completed : nat)
    (total_time : Q) : State :=
  let heuristic_value := _compute_heuristic goals_completed in
  {| sequence := sequence;
     goals_completed := goals_completed;
     total_time := total_time;
     heuristic_value := heuristic_value;
     priority :=
       (goal_penalty goals_completed + total_time + heuristic_value)%Q |}.

Definition get_valid_next_moves (current_move : string)
    (goals_completed : nat) (sequence : list string) : list string :=
  next_moves_over cfg so (Dict.items (predecessors cfg))
    current_move goals_completed sequence.

Definition expand_state (state : State) : list State :=
  if bool_decide (MAX_STEPS cfg ≤ length (sequence state)) then []
  else
    let current_move := current_move_of (sequence state) in
    let next_moves :=
      get_valid_next_moves current_move (goals_completed state)
        (sequence state) in
    (λ move,
       let new_sequence := sequence state ++ [move] in
       let new_time :=
         (total_time state + get_move_duration cfg move)%Q in
       if is_next_goal cfg (goals_completed state) move
       then new_State new_sequence (S (goals_completed state)) new_time
       else new_State new_sequence (goals_completed state) new_time)
    <$> next_moves.

Definition is_valid_solution (state : State) : bool :=
  bool_decide (length (goals cfg) ≤ goals_completed state).

Definition initial_state : State := new_State [] 0 0%Q.

Definition initial_loop_state : Search.LoopState :=
  Search.initial_loop_state priority initial_state.

Definition loop_body (ls : Search.LoopState) : Search.LoopState :=
  Search.loop_body sequence goals_completed priority expand_state
    is_valid_solution ls.

Definition while_loop (fuel : nat) (ls : Search.LoopState)
    : option Search.LoopState :=
  Search.while_loop sequence goals_completed priority expand_state
    is_valid_solution (MAX_EXPANSIONS cfg) fuel ls.

Definition find_choreography (fuel : nat)
    : option (option State * list State) :=
  Search.find_choreography sequence goals_completed priority
    initial_state expand_state is_valid_solution
    (MAX_EXPANSIONS cfg) (KEEP_TOP_K cfg) fuel.

Definition reachable : State → Prop :=
  Search.reachable initial_state expand_state.

Definition search_reachable : State → Prop :=
  Search.search_reachable initial_state expand_state is_valid_solution.

Lemma planner_expand_extends s s' :
  s' ∈ expand_state s →
  extends cfg so sequence goals_completed total_time
    (Dict.items (predecessors cfg)) s s'.
Proof.
  unfold expand_state, extends. case_bool_decide as Hlen.
  - by intros []%elem_of_nil.
  - intros (move & -> & Hmove)%list_elem_of_fmap.
    split; [lia|]. exists move. split; [done|]. unfold advance.
    by destruct (is_next_goal cfg (goals_completed s) move).
Qed.

Lemma planner_initial_empty :
  sequence initial_state = [] ∧ goals_completed initial_state = 0
  ∧ total_time initial_state = 0%Q.
Proof. done. Qed.
End planner.
End Planner.



(** ** Enumeration orders of a set *)

(** The distinct elements in the order of their last insertion. *)
Definition order_as_listed : SetOrder :=
  {| list_of_set := remove_dups;
     list_of_set_elem := λ l x, elem_of_remove_dups l x;
     list_of_set_NoDup := NoDup_remove_dups |}.

Lemma reverse_remove_dups_elem (l : list string) x :
  x ∈ reverse (remove_dups l) ↔ x ∈ l.
Proof. by rewrite elem_of_reverse, elem_of_remove_dups. Qed.

Lemma reverse_remove_dups_NoDup (l : list string) :
  NoDup (reverse (remove_dups l)).
Proof. rewrite reverse_Permutation. apply NoDup_remove_dups. Qed.

(** The same elements, enumerated the other way round. *)
Definition order_reversed : SetOrder :=
  {| list_of_set := λ l, reverse (remove_dups l);
     list_of_set_elem := reverse_remove_dups_elem;
     list_of_set_NoDup := reverse_remove_dups_NoDup |}.

(** ** The shipped configurations *)

(** *** [main.py] *)

Definition main_goals : list string :=
  ["StandInit"; "Hello"; "BlowKisses"; "StayingAlive"; "WipeForehead";
   "Sit"; "StandZero"; "VOnEyes"; "SitRelax"; "Stand"; "Crouch"].

Definition main_predecessors : Dict.t (list string) :=
  Dict.make [
  ("StandInit",
    ["START"]);
  ("Hello",
    ["Wave"; "Clap"; "Glory"; "Joy"; "ComeOn"; "Bow"; "StandInit"]);
  ("BlowKisses",
    ["Stand"; "ArmDance"; "ArmDanceDX"; "ArmDanceSX"; "Bow"; "Wave";
     "Hello"]);
  ("StandZero",
    ["Sit"; "SitRelax"; "RotationFeet"; "ArmDanceDX"; "ArmDanceSX";
     "BirthdayDance"; "Hello"; "Stand"; "BlowKisses"; "Wave"; "Bow";
     "Glory"]);
  ("Rhythm",
    ["ArmDance"; "ArmDanceDX"; "ArmDanceSX"; "Stand"; "Bow";
     "RotationFeet"; "StandZero"; "Wave"]);
  ("Stand",
    ["Sit"; "SitRelax"; "RotationFeet"; "BirthdayDance"; "Hello";
     "StandZero"; "Rhythm"; "WipeForehead"; "Bow"; "Wave"; "Glory";
     "Clap"; "Dab"]);
  ("StayingAlive",
    ["PulpFiction"; "DiagonalRight"; "RotationFeet"; "TheRobot"; "Bow";
     "Stand"; "StandZero"]);
  ("WipeForehead",
    ["Stand"; "StandZero"; "Wave"; "Glory"; "Clap"; "Bow"; "StayingAlive"]);
  ("VOnEyes",
    ["BlowKisses"; "Hello"; "Wave"; "Joy"; "ComeOn"; "Stand";
     "WipeForehead"]);
  ("Sit",
    ["Dab"; "Stand"; "StandZero"; "VOnEyes"]);
  ("SitRelax",
    ["PulpFiction"; "DiagonalRight"; "RotationFeet"; "TheRobot"; "Bow";
     "Stand"; "StandZero"]);
  ("Disco",
    ["Stand"; "StandZero"; "TheRobot"; "PulpFiction"; "DiagonalRight";
     "RotationFeet"; "Crouch"]);
  ("Crouch",
    ["SitRelax"; "Crouch"; "Dab"; "Disco"]);
  ("Wave",
    ["START"; "StandInit"; "Hello"; "Stand"; "StandZero"; "Clap"; "Glory";
     "Joy"; "ComeOn"; "Bow"]);
  ("Clap",
    ["START"; "StandInit"; "Wave"; "Hello"; "Stand"; "Joy"; "ComeOn";
     "Glory"; "Bow"; "StandZero"]);
  ("Glory",
    ["Wave"; "Clap"; "Stand"; "StandZero"; "Bow"; "Joy"; "ComeOn"]);
  ("Joy",
    ["Clap"; "Glory"; "Hello"; "Wave"; "ComeOn"; "Bow"; "Stand"]);
  ("ComeOn",
    ["Clap"; "Joy"; "Hello"; "Wave"; "Glory"; "Bow"; "Stand"]);
  ("Bow",
    ["Stand"; "StandZero"; "Glory"; "Wave"; "Clap"; "Joy"; "ComeOn"]);
  ("ArmDance",
    ["Stand"; "StandZero"; "Bow"; "Wave"; "Clap"; "Glory"]);
  ("ArmDanceDX",
    ["Stand"; "Bow"; "Wave"; "Glory"; "Clap"; "StandZero"]);
  ("ArmDanceSX",
    ["Stand"; "Bow"; "Wave"; "Glory"; "Clap"; "StandZero"]);
  ("PulpFiction",
    ["Stand"; "StandZero"; "DiagonalRight"; "RotationFeet"; "Wave";
     "Clap"; "Bow"]);
  ("RotationFeet",
    ["START"; "StandInit"; "Stand"; "StandZero"; "DiagonalRight"; "Wave";
     "Glory"; "Bow"]);
  ("DiagonalRight",
    ["Stand"; "StandZero"; "RotationFeet"; "PulpFiction"; "Wave"; "Bow";
     "Clap"]);
  ("TheRobot",
    ["Stand"; "StandZero"; "PulpFiction"; "DiagonalRight"; "RotationFeet";
     "Bow"]);
  ("BirthdayDance",
    ["Stand"; "StandZero"; "Wave"; "Clap"; "Bow"]);
  ("Dab",
    ["Stand"; "StandZero"; "Bow"; "Glory"; "Wave"; "Clap"; "WipeForehead";
     "VOnEyes"]);
  ("DanceMove",
    ["Stand"; "StandZero"; "Wave"; "Bow"; "Clap"])
  ] eq_refl.

Definition main_durations : Dict.t Q :=
  Dict.make [
  ("ArmDance", 10.353%Q);
  ("ArmDanceDX", 5.097%Q);
  ("BlowKisses", 9.867%Q);
  ("Bow", 3.994%Q);
  ("Clap", 4.180%Q);
  ("Crouch", 5.435%Q);
  ("Dab", 3.231%Q);
  ("Disco", 5.152%Q);
  ("Rhythm", 3.099%Q);
  ("StandInit", 1.410%Q);
  ("StayingAlive", 6.030%Q);
  ("VOnEyes", 6.049%Q)
  ] eq_refl.

Definition main_config : Config :=
  {| goals := main_goals;
     predecessors := main_predecessors;
     durations := main_durations;
     TARGET_TIME := 110.0%Q;
     DEFAULT_DURATION := 5.0%Q;
     MAX_EXPANSIONS := 10000;
     MAX_STEPS := 50;
     MAX_CONSECUTIVE_REPEATS := 3;
     ALLOW_POST_FILL := true;
     KEEP_TOP_K := 5 |}.

Definition main_profile : Main.Profile :=
  {| Main.catalog := main_config;
     Main.MIN_TIME := 100.0%Q;
     Main.MAX_TIME := 125.0%Q |}.

(** *** [choreography_planner.py] *)

Definition planner_goals : list string :=
  ["StandInit"; "Hello"; "BlowKisses"; "StandZero"; "Stand";
   "StayingAlive"; "WipeForehead"; "VOnEyes"; "Sit"; "SitRelax"; "Crouch"].

Definition planner_predecessors : Dict.t (list string) :=
  Dict.make [
  ("StandInit",
    ["START"]);
  ("Hello",
    ["Wave"; "Clap"; "Glory"; "Joy"; "ComeOn"; "Bow"; "StandInit"]);
  ("BlowKisses",
    ["Stand"; "ArmDance"; "ArmDanceDX"; "ArmDanceSX"; "Bow"; "Wave";
     "Hello"]);
  ("StandZero",
    ["RotationFeet"; "ArmDanceDX"; "ArmDanceSX"; "BirthdayDance"; "Hello";
     "Stand"; "BlowKisses"; "Wave"; "Bow"; "Glory"]);
  ("Rhythm",
    ["ArmDance"; "ArmDanceDX"; "ArmDanceSX"; "Stand"; "Bow";
     "RotationFeet"; "StandZero"; "Wave"]);
  ("Stand",
    ["RotationFeet"; "BirthdayDance"; "Hello"; "StandZero"; "Rhythm";
     "WipeForehead"; "Bow"; "Wave"; "Glory"; "Clap"; "F_Crouch"; "Dab__"]);
  ("StayingAlive",
    ["PulpFiction"; "DiagonalRight"; "RotationFeet"; "TheRobot"; "Bow";
     "Stand"; "StandZero"]);
  ("WipeForehead",
    ["Stand"; "StandZero"; "Wave"; "Glory"; "Clap"; "Bow"; "StayingAlive"]);
  ("VOnEyes",
    ["BlowKisses"; "Hello"; "Wave"; "Joy"; "ComeOn"; "Stand";
     "WipeForehead"]);
  ("Sit",
    ["Dab__"; "F_Crouch"; "Stand"; "StandZero"; "VOnEyes"]);
  ("SitRelax",
    ["Sit"; "F_Crouch"]);
  ("Disco",
    ["Stand"; "StandZero"; "TheRobot"; "PulpFiction"; "DiagonalRight";
     "RotationFeet"; "F_Crouch"]);
  ("Crouch",
    ["Sit"; "SitRelax"; "F_Crouch"; "Dab__"; "Disco"]);
  ("Wave",
    ["START"; "StandInit"; "Hello"; "Stand"; "StandZero"; "Clap"; "Glory";
     "Joy"; "ComeOn"; "Bow"]);
  ("Clap",
    ["START"; "StandInit"; "Wave"; "Hello"; "Stand"; "Joy"; "ComeOn";
     "Glory"; "Bow"; "StandZero"]);
  ("Glory",
    ["Wave"; "Clap"; "Stand"; "StandZero"; "Bow"; "Joy"; "ComeOn"]);
  ("Joy",
    ["Clap"; "Glory"; "Hello"; "Wave"; "ComeOn"; "Bow"; "Stand"]);
  ("ComeOn",
    ["Clap"; "Joy"; "Hello"; "Wave"; "Glory"; "Bow"; "Stand"]);
  ("Bow",
    ["Stand"; "StandZero"; "Glory"; "Wave"; "Clap"; "Joy"; "ComeOn"]);
  ("ArmDance",
    ["Stand"; "StandZero"; "Bow"; "Wave"; "Clap"; "Glory"]);
  ("ArmDanceDX",
    ["Stand"; "Bow"; "Wave"; "Glory"; "Clap"; "StandZero"]);
  ("ArmDanceSX",
    ["Stand"; "Bow"; "Wave"; "Glory"; "Clap"; "StandZero"]);
  ("PulpFiction",
    ["Stand"; "StandZero"; "DiagonalRight"; "RotationFeet"; "Wave";
     "Clap"; "Bow"]);
  ("RotationFeet",
    ["START"; "StandInit"; "Stand"; "StandZero"; "DiagonalRight"; "Wave";
     "Glory"; "Bow"]);
  ("DiagonalRight",
    ["Stand"; "StandZero"; "RotationFeet"; "PulpFiction"; "Wave"; "Bow";
     "Clap"]);
  ("TheRobot",
    ["Stand"; "StandZero"; "PulpFiction"; "DiagonalRight"; "RotationFeet";
     "Bow"]);
  ("BirthdayDance",
    ["Stand"; "StandZero"; "Wave"; "Clap"; "Bow"]);
  ("Dab__",
    ["Stand"; "StandZero"; "Bow"; "Glory"; "Wave"; "Clap"; "WipeForehead";
     "VOnEyes"]);
  ("F_Crouch",
    ["Stand"; "StandZero"; "Dab__"; "Bow"; "Wave"; "Sit"; "SitRelax"]);
  ("DanceMove",
    ["Stand"; "StandZero"; "Wave"; "Bow"; "Clap"])
  ] eq_refl.

Definition planner_durations : Dict.t Q :=
  Dict.make [
  ("ArmDance", 10.353%Q);
  ("ArmDanceDX", 5.097%Q);
  ("BlowKisses", 9.867%Q);
  ("Bow", 3.994%Q);
  ("Clap", 4.180%Q);
  ("Crouch", 30.435%Q);
  ("Dab__", 3.231%Q);
  ("Disco", 5.152%Q);
  ("F_Crouch", 1.439%Q);
  ("Rhythm", 3.099%Q);
  ("StandInit", 1.410%Q);
  ("StayingAlive", 6.030%Q);
  ("VOnEyes", 6.049%Q);
  ("WipeForehead", 3.0%Q);
  ("Hello", 3.0%Q);
  ("StandZero", 3.0%Q);
  ("Stand", 3.0%Q);
  ("Sit", 3.0%Q);
  ("SitRelax", 3.0%Q);
  ("Wave", 3.0%Q);
  ("Glory", 3.0%Q);
  ("Joy", 3.0%Q);
  ("ComeOn", 3.0%Q);
  ("ArmDanceSX", 3.0%Q);
  ("PulpFiction", 3.0%Q);
  ("RotationFeet", 3.0%Q);
  ("DiagonalRight", 3.0%Q);
  ("TheRobot", 3.0%Q);
  ("BirthdayDance", 3.0%Q);
  ("DanceMove", 3.0%Q)
  ] eq_refl.

Definition planner_config : Config :=
  {| goals := planner_goals;
     predecessors := planner_predecessors;
     durations := planner_durations;
     TARGET_TIME := 120.0%Q;
     DEFAULT_DURATION := 3.0%Q;
     MAX_EXPANSIONS := 10000;
     MAX_STEPS := 50;
     MAX_CONSECUTIVE_REPEATS := 3;
     ALLOW_POST_FILL := true;
     KEEP_TOP_K := 5 |}.

(** ** Small configurations, used to run the search to its end *)

(** Two goals in a row: [A] opens the sequence, [B] follows [A]. *)
Definition two_goals_config : Config :=
  {| goals := ["A"; "B"];
     predecessors := Dict.make [("A", ["START"]); ("B", ["A"])] eq_refl;
     durations := Dict.make [("A", 2%Q); ("B", 3%Q)] eq_refl;
     TARGET_TIME := 110.0%Q;
     DEFAULT_DURATION := 5.0%Q;
     MAX_EXPANSIONS := 100;
     MAX_STEPS := 50;
     MAX_CONSECUTIVE_REPEATS := 3;
     ALLOW_POST_FILL := true;
     KEEP_TOP_K := 5 |}.

Definition two_goals_profile : Main.Profile :=
  {| Main.catalog := two_goals_config;
     Main.MIN_TIME := 100.0%Q;
     Main.MAX_TIME := 125.0%Q |}.


(** ** The invariants, for the two entry points *)

Section main_facts.
Variable p : Main.Profile.
Variable so : SetOrder.

Lemma main_valid_solution_spec s :
  Main.is_valid_solution p s
  = bool_decide (length (goals p) ≤ Main.goals_completed s).
Proof. done. Qed.

Lemma main_count_goals s :
  Main.reachable p so s →
  Main.goals_completed s = count_goals p 0 (Main.sequence s).
Proof.
  eapply reachable_count_goals;
    eauto using Main.initial_empty, Main.expand_extends.
Qed.

Lemma main_precedence s :
  Main.reachable p so s → precedence_ok p "START" (Main.sequence s) = true.
Proof.
  eapply reachable_precedence
    with (entries := sorted (Dict.items (predecessors p)));
    eauto using Main.initial_empty, Main.expand_extends, Main.entries_catalog.
Qed.


Lemma main_runs s l1 l2 t move :
  1 ≤ MAX_CONSECUTIVE_REPEATS p → Main.reachable p so s →
  Main.sequence s = l1 ++ replicate t move ++ l2 →
  t ≤ MAX_CONSECUTIVE_REPEATS p
  ∨ ∃ j, ∀ i, i < t → goals p !! (j + i) = Some move.
Proof.
  eapply reachable_runs;
    eauto using Main.initial_empty, Main.expand_extends.
Qed.

Lemma main_solution_end s g :
  Main.search_reachable p so s → Main.is_valid_solution p s = true →
  last (goals p) = Some g →
  Main.goals_completed s = length (goals p)
  ∧ last (Main.sequence s) = Some g.
Proof.
  eapply solution_ends_with_final_goal;
    eauto using Main.initial_empty, Main.expand_extends,
      main_valid_solution_spec.
Qed.

(** Every appended move either completes a goal or counts as a filler. *)
Lemma main_filler_count s :
  Main.reachable p so s →
  Main.filler_moves s + Main.goals_completed s = length (Main.sequence s).
Proof.
  induction 1 as [|s s' _ IH Hin]; [done|].
  unfold Main.expand_state in Hin. case_bool_decide; [by apply elem_of_nil in Hin|].
  apply list_elem_of_fmap in Hin as (move & -> & _).
  destruct (is_next_goal p (Main.goals_completed s) move); simpl;
    rewrite length_app; simpl; lia.
Qed.

Lemma main_search_sound fuel best alternatives s :
  Main.find_choreography p so fuel = Some (best, alternatives) →
  best = Some s ∨ s ∈ alternatives →
  Main.search_reachable p so s ∧ Main.is_valid_solution p s = true.
Proof. apply Search.find_choreography_sound. Qed.
End main_facts.

Section planner_facts.
Variable cfg : Config.
Variable so : SetOrder.

Lemma planner_valid_solution_spec s :
  Planner.is_valid_solution cfg s
  = bool_decide (length (goals cfg) ≤ Planner.goals_completed s).
Proof. done. Qed.

Lemma planner_count_goals s :
  Planner.reachable cfg so s →
  Planner.goals_completed s = count_goals cfg 0 (Planner.sequence s).
Proof.
  eapply reachable_count_goals;
    eauto using Planner.planner_initial_empty, Planner.planner_expand_extends.
Qed.

Lemma planner_runs s l1 l2 t move :
  1 ≤ MAX_CONSECUTIVE_REPEATS cfg → Planner.reachable cfg so s →
  Planner.sequence s = l1 ++ replicate t move ++ l2 →
  t ≤ MAX_CONSECUTIVE_REPEATS cfg
  ∨ ∃ j, ∀ i, i < t → goals cfg !! (j + i) = Some move.
Proof.
  eapply reachable_runs;
    eauto using Planner.planner_initial_empty, Planner.planner_expand_extends.
Qed.

Lemma planner_solution_end s g :
  Planner.search_reachable cfg so s →
  Planner.is_valid_solution cfg s = true →
  last (goals cfg) = Some g →
  Planner.goals_completed s = length (goals cfg)
  ∧ last (Planner.sequence s) = Some g.
Proof.
  eapply solution_ends_with_final_goal;
    eauto using Planner.planner_initial_empty, Planner.planner_expand_extends,
      planner_valid_solution_spec.
Qed.

Lemma planner_search_sound fuel best alternatives s :
  Planner.find_choreography cfg so fuel = Some (best, alternatives) →
  best = Some s ∨ s ∈ alternatives →
  Planner.search_reachable cfg so s
  ∧ Planner.is_valid_solution cfg s = true.
Proof. apply Search.find_choreography_sound. Qed.
End planner_facts.


(** * The claims *)

(** [n] is the length of the longest prefix of the goal list that occurs in
    [sequence] as a subsequence. *)
Definition longest_goal_prefix (cfg : Config) (sequence : list string)
    (n : nat) : Prop :=
  n ≤ length (goals cfg)
  ∧ take n (goals cfg) `sublist_of` sequence
  ∧ ∀ k, k ≤ length (goals cfg) →
         take k (goals cfg) `sublist_of` sequence → k ≤ n.

(** The three parts of the goal-counting invariant, for a state type with its
    reachability, expansion and search. *)
Definition goals_counted {St : Type} (cfg : Config)
    (sequence : St → list string) (goals_completed : St → nat)
    (reach : St → Prop) (expand_state : St → list St)
    (find_choreography : nat → option (option St * list St)) : Prop :=
  (∀ s, reach s →
     longest_goal_prefix cfg (sequence s) (goals_completed s))
  ∧ (∀ s s', s' ∈ expand_state s →
       ∃ move,
         sequence s' = sequence s ++ [move]
         ∧ (goals_completed s' = S (goals_completed s)
            ↔ goals cfg !! goals_completed s = Some move)
         ∧ (goals_completed s' = goals_completed s
            ↔ goals cfg !! goals_completed s ≠ Some move))
  ∧ (∀ fuel best alternatives s,
       find_choreography fuel = Some (best, alternatives) →
       best = Some s ∨ s ∈ alternatives →
       goals cfg `sublist_of` sequence s
       ∧ goals_completed s = length (goals cfg)).

Lemma advance_cases cfg gc move :
  (advance cfg gc move = S gc ↔ goals cfg !! gc = Some move)
  ∧ (advance cfg gc move = gc ↔ goals cfg !! gc ≠ Some move).
Proof.
  unfold advance. destruct (is_next_goal cfg gc move) eqn:Hnext.
  - apply is_next_goal_true in Hnext. split; split; try done; lia.
  - assert (goals cfg !! gc ≠ Some move) as Hne.
    { intros H'%is_next_goal_true. congruence. }
    split; split; try done; lia.
Qed.

Lemma longest_goal_prefix_full cfg sequence n :
  longest_goal_prefix cfg sequence n → length (goals cfg) ≤ n →
  goals cfg `sublist_of` sequence ∧ n = length (goals cfg).
Proof.
  intros (Hle & Hsub & _) Hge. split; [|lia]. by rewrite take_ge in Hsub.
Qed.

(** C1. In every state reachable from the initial state by expansion,
    [goals_completed] is the length of the longest prefix of the goal list
    that occurs, in order, as a subsequence of the state's sequence; an
    appended move increments [goals_completed] exactly when it equals
    [goals[goals_completed]]; and every solution the search returns contains
    the whole goal list as a subsequence, with [goals_completed] equal to
    its length.  Proved for [main.py] and for [choreography_planner.py]. *)
Theorem C1_goals_completed_longest_prefix (so : SetOrder) :
  (∀ p : Main.Profile,
     goals_counted p Main.sequence Main.goals_completed
       (Main.reachable p so) (Main.expand_state p so)
       (Main.find_choreography p so))
  ∧ (∀ cfg : Config,
       goals_counted cfg Planner.sequence Planner.goals_completed
         (Planner.reachable cfg so) (Planner.expand_state cfg so)
         (Planner.find_choreography cfg so)).
Proof.
  split.
  - intros p.
    assert (∀ s, Main.reachable p so s →
              longest_goal_prefix p (Main.sequence s) (Main.goals_completed s))
      as Hreach.
    { intros s ->%main_count_goals. apply count_goals_spec. }
    split_and!; [done| |].
    + intros s s' (_ & move & _ & Hseq & -> & _)%Main.expand_extends.
      exists move. split; [done|]. apply advance_cases.
    + intros fuel best alternatives s Hrun Hs.
      destruct (main_search_sound p so _ _ _ _ Hrun Hs) as [Hsr Hvalid].
      apply bool_decide_eq_true in Hvalid.
      apply longest_goal_prefix_full; [|done].
      apply Hreach. eapply Search.search_reachable_reachable, Hsr.
  - intros cfg.
    assert (∀ s, Planner.reachable cfg so s →
              longest_goal_prefix cfg (Planner.sequence s)
                (Planner.goals_completed s)) as Hreach.
    { intros s ->%planner_count_goals. apply count_goals_spec. }
    split_and!; [done| |].
    + intros s s' (_ & move & _ & Hseq & -> & _)%Planner.planner_expand_extends.
      exists move. split; [done|]. apply advance_cases.
    + intros fuel best alternatives s Hrun Hs.
      destruct (planner_search_sound cfg so _ _ _ _ Hrun Hs) as [Hsr Hvalid].
      apply bool_decide_eq_true in Hvalid.
      apply longest_goal_prefix_full; [|done].
      apply Hreach. eapply Search.search_reachable_reachable, Hsr.
Qed.

(** The best solution of the search over [two_goals_profile]. *)
Definition two_goals_best : Main.State :=
  Eval vm_compute in Main.new_State two_goals_profile ["A"; "B"] 2 5%Q 0.

Lemma C1_witness :
  goals two_goals_config `sublist_of` Main.sequence two_goals_best
  ∧ Main.goals_completed two_goals_best = length (goals two_goals_config).
Proof.
  apply (proj2 (proj2 (proj1 (C1_goals_completed_longest_prefix
                                order_as_listed) two_goals_profile))
           20 (Some two_goals_best) [] two_goals_best).
  - vm_compute. reflexivity.
  - left. reflexivity.
Defined.

(** C2. In every solution the search returns, as the best one or as an
    alternative, each move is in the predecessor list of the move that
    follows it, and [START] is in the predecessor list of the first move. *)
Theorem C2_solutions_respect_precedence (p : Main.Profile) (so : SetOrder)
    fuel best alternatives s :
  Main.find_choreography p so fuel = Some (best, alternatives) →
  best = Some s ∨ s ∈ alternatives →
  (∀ b, Main.sequence s !! 0 = Some b → follows p "START" b)
  ∧ (∀ i a b, Main.sequence s !! i = Some a →
              Main.sequence s !! S i = Some b → follows p a b).
Proof.
  intros Hrun Hs.
  destruct (main_search_sound p so _ _ _ _ Hrun Hs) as [Hsr _].
  apply precedence_ok_pairs, (main_precedence p so).
  eapply Search.search_reachable_reachable, Hsr.
Qed.

Lemma C2_witness :
  follows two_goals_config "START" "A" ∧ follows two_goals_config "A" "B".
Proof.
  destruct (C2_solutions_respect_precedence two_goals_profile order_as_listed
              20 (Some two_goals_best) [] two_goals_best) as [Hfirst Hpairs].
  - vm_compute. reflexivity.
  - left. reflexivity.
  - split; [apply Hfirst | apply (Hpairs 0)]; reflexivity.
Defined.

Lemma Qltb_lt (x y : Q) : Qltb x y = true ↔ (x < y)%Q.
Proof.
  unfold Qltb. rewrite Qlt_alt. destruct (x ?= y)%Q; split; congruence.
Qed.

Lemma Qltb_ge (x y : Q) : Qltb x y = false ↔ (y <= x)%Q.
Proof.
  rewrite <- not_true_iff_false, Qltb_lt. split; [apply Qnot_lt_le|].
  intros Hle Hlt. by apply Qle_not_lt in Hle.
Qed.

(** C3. In [main.py] the priority of a state is the sum of three penalties:
    the goal penalty is the number of goals still to complete times 10000;
    the filler penalty is [(5 - filler_moves) * 100], and not zero, when all
    goals are complete and fewer than 5 fillers were appended, and zero
    otherwise; the time penalty is the distance of the projected final time
    ([total_time + heuristic], the heuristic being the sum of the durations
    of the goals still to complete) to the window [[MIN_TIME, MAX_TIME]]:
    [MIN_TIME - projected] below it, [projected - MAX_TIME] above it, and
    zero inside it. *)
Theorem C3_three_tier_priority (p : Main.Profile) (sequence : list string)
    (goals_completed : nat) (total_time : Q) (filler_moves : nat) :
  let s := Main.new_State p sequence goals_completed total_time filler_moves in
  let projected := (total_time + Main.heuristic_value s)%Q in
  Main.heuristic_value s
  = sum_durations p (drop goals_completed (goals p))
  ∧ ∃ goal_penalty filler_penalty time_penalty : Q,
      Main.priority s = (goal_penalty + filler_penalty + time_penalty)%Q
      ∧ goal_penalty
        = (inject_Z (Z.of_nat (length (goals p)) - Z.of_nat goals_completed)
           * 10000)%Q
      ∧ (goals_completed = length (goals p) ∧ filler_moves < 5 →
         filler_penalty = (inject_Z (5 - Z.of_nat filler_moves) * 100)%Q
         ∧ ¬ (filler_penalty == 0)%Q)
      ∧ (¬ (goals_completed = length (goals p) ∧ filler_moves < 5) →
         filler_penalty = 0%Q)
      ∧ ((projected < Main.MIN_TIME p)%Q →
         time_penalty = (Main.MIN_TIME p - projected)%Q)
      ∧ ((Main.MIN_TIME p <= projected)%Q →
         (Main.MAX_TIME p < projected)%Q →
         time_penalty = (projected - Main.MAX_TIME p)%Q)
      ∧ ((Main.MIN_TIME p <= projected)%Q →
         (projected <= Main.MAX_TIME p)%Q →
         time_penalty = 0%Q)
      ∧ (0 <= time_penalty)%Q.
Proof.
  simpl. split; [done|].
  exists (Main.goal_penalty p goals_completed),
    (Main.filler_penalty p goals_completed filler_moves),
    (Main.time_penalty p
       (total_time + Main._compute_heuristic p goals_completed)).
  split_and!; try done.
  - intros [Hgoals Hfill]. unfold Main.filler_penalty.
    rewrite !bool_decide_eq_true_2 by done. simpl. split; [done|].
    assert (0 < inject_Z (5 - Z.of_nat filler_moves))%Q as Hpos.
    { change 0%Q with (inject_Z 0). rewrite <- Zlt_Qlt. lia. }
    intros Hzero. lra.
  - intros Hnot. unfold Main.filler_penalty.
    case_bool_decide; [|done]. case_bool_decide; [|done]. by destruct Hnot.
  - intros Hlow%Qltb_lt. unfold Main.time_penalty. by rewrite Hlow.
  - intros Hmin%Qltb_ge Hhigh%Qltb_lt. unfold Main.time_penalty.
    by rewrite Hmin, Hhigh.
  - intros Hmin%Qltb_ge Hmax%Qltb_ge. unfold Main.time_penalty.
    by rewrite Hmin, Hmax.
  - unfold Main.time_penalty.
    destruct (Qltb _ (Main.MIN_TIME p)) eqn:Hlow.
    + apply Qltb_lt in Hlow. lra.
    + destruct (Qltb (Main.MAX_TIME p) _) eqn:Hhigh; [|lra].
      apply Qltb_lt in Hhigh. lra.
Qed.

Lemma C3_witness :
  Main.priority two_goals_best = (0 * 10000 + 5 * 100 + (100.0 - 5))%Q.
Proof.
  destruct (C3_three_tier_priority two_goals_profile ["A"; "B"] 2 5%Q 0)
    as (_ & gp & fp & tp & Hprio & Hgp & Hfp & _ & Htp & _).
  destruct Hfp as [Hfp _]; [split; [reflexivity|simpl; lia]|].
  specialize (Htp eq_refl).
  change (Main.new_State two_goals_profile ["A"; "B"] 2 5%Q 0)
    with two_goals_best in Hprio.
  rewrite Hprio, Hgp, Hfp, Htp. reflexivity.
Defined.





(** Two states of [main.py] reached by expansion: [Wave], then [Bow]. *)
Definition wave_state : Main.State :=
  Eval vm_compute in Main.new_State main_profile ["Wave"] 0 (0 + 5.0)%Q 1.

Definition wave_bow_state : Main.State :=
  Eval vm_compute in
    Main.new_State main_profile ["Wave"; "Bow"] 0 (0 + 5.0 + 3.994)%Q 2.

Lemma wave_bow_reachable :
  Main.reachable main_profile order_as_listed wave_bow_state.
Proof.
  apply (Search.reachable_expand _ _ wave_state).
  - apply (Search.reachable_expand _ _ (Main.initial_state main_profile)).
    + apply Search.reachable_initial.
    + vm_compute.
      repeat first [apply list_elem_of_here | apply list_elem_of_further].
  - vm_compute.
    repeat first [apply list_elem_of_here | apply list_elem_of_further].
Defined.


(** Three moves whose durations add up to 15.435: the double built up
    along the sequence lies just below that, and 15.43 is saved. *)
Definition three_moves_state : Main.State :=
  Eval vm_compute in
    Main.new_State main_profile ["RotationFeet"; "SitRelax"; "Crouch"] 0
      (0 + 5.0 + 5.0 + 5.435)%Q 3.

Lemma three_moves_reachable :
  Main.reachable main_profile order_as_listed three_moves_state.
Proof.
  apply (Search.reachable_expand _ _
           (Main.new_State main_profile ["RotationFeet"; "SitRelax"] 0
              (0 + 5.0 + 5.0)%Q 2)).
  - apply (Search.reachable_expand _ _
             (Main.new_State main_profile ["RotationFeet"] 0 (0 + 5.0)%Q 1)).
    + apply (Search.reachable_expand _ _ (Main.initial_state main_profile)).
      * apply Search.reachable_initial.
      * vm_compute.
        repeat first [apply list_elem_of_here | apply list_elem_of_further].
    + vm_compute.
      repeat first [apply list_elem_of_here | apply list_elem_of_further].
  - vm_compute.
    repeat first [apply list_elem_of_here | apply list_elem_of_further].
Qed.

Lemma three_moves_saved :
  (Main.total_time three_moves_state == 15.435)%Q
  ∧ double_total_time main_profile (Main.sequence three_moves_state)
    = Float64.Finite (4344566265528975 # 281474976710656)
  ∧ Main.out_total_time (Main.save_solution main_profile three_moves_state)
    = Float64.of_Q 15.43.
Proof. split_and!; vm_compute; reflexivity. Qed.

(** The parts of the terminal-state property, for a state type with its
    search. *)
Definition ends_at_final_goal {St : Type} (cfg : Config)
    (sequence : St → list string) (goals_completed : St → nat)
    (priority : St → Q) (search_reach : St → Prop)
    (loop_body : @Search.LoopState St → @Search.LoopState St)
    (find_choreography : nat → option (option St * list St)) : Prop :=
  (∀ ls prio c current_state rest,
     Search.heappop priority (Search.pq ls)
     = Some ((prio, c, current_state), rest) →
     goals_completed current_state = length (goals cfg) →
     Search.pq (loop_body ls) = rest
     ∧ Search.expansions (loop_body ls) = Search.expansions ls
     ∧ ((sequence current_state, goals_completed current_state)
          ∉ Search.visited ls →
        Search.all_solutions (loop_body ls)
        = Search.all_solutions ls ++ [current_state]))
  ∧ (∀ s g, search_reach s → last (goals cfg) = Some g →
       goals_completed s = length (goals cfg) →
       last (sequence s) = Some g)
  ∧ (∀ fuel best alternatives s g,
       find_choreography fuel = Some (best, alternatives) →
       best = Some s ∨ s ∈ alternatives →
       last (goals cfg) = Some g →
       sequence s ≠ [] ∧ last (sequence s) = Some g).

(** C10. A popped state with all goals completed is recorded as a solution
    and is not expanded: nothing is pushed and no expansion is counted.  So
    no state the search ever holds has a move after the final goal, whatever
    [ALLOW_POST_FILL] says, and every solution returned has a non-empty
    sequence whose last move is the last entry of the goal list; in
    [main.py] the fillers of a solution are therefore all the moves of the
    sequence that did not complete a goal, and they stand before the final
    goal.  Proved for [main.py] and for [choreography_planner.py]. *)
Theorem C10_solutions_end_at_final_goal (so : SetOrder) :
  (∀ p : Main.Profile,
     ends_at_final_goal p Main.sequence Main.goals_completed Main.priority
       (Main.search_reachable p so) (Main.loop_body p so)
       (Main.find_choreography p so)
     ∧ (∀ fuel best alternatives s,
          Main.find_choreography p so fuel = Some (best, alternatives) →
          best = Some s ∨ s ∈ alternatives →
          Main.filler_moves s + length (goals p)
          = length (Main.sequence s)))
  ∧ (∀ cfg : Config,
       ends_at_final_goal cfg Planner.sequence Planner.goals_completed
         Planner.priority (Planner.search_reachable cfg so)
         (Planner.loop_body cfg so) (Planner.find_choreography cfg so)).
Proof.
  split.
  - intros p. split; [split_and!|].
    + intros ls prio c cur rest Hpop Hgc.
      unfold Main.loop_body, Search.loop_body. rewrite Hpop.
      assert (Main.is_valid_solution p cur = true) as ->.
      { apply bool_decide_eq_true. lia. }
      case_bool_decide; done.
    + intros s g Hs Hlast Hgc. eapply main_solution_end; [done| |done].
      apply bool_decide_eq_true. lia.
    + intros fuel best alternatives s g Hrun Hs Hlast.
      destruct (main_search_sound p so _ _ _ _ Hrun Hs) as [Hsr Hvalid].
      destruct (main_solution_end p so s g Hsr Hvalid Hlast) as [_ Hend].
      split; [|done]. intros Hnil. by rewrite Hnil in Hend.
    + intros fuel best alternatives s Hrun Hs.
      destruct (main_search_sound p so _ _ _ _ Hrun Hs) as [Hsr Hvalid].
      apply Search.search_reachable_reachable in Hsr.
      pose proof (main_filler_count p so s Hsr) as Hfill.
      pose proof (main_count_goals p so s Hsr) as Hcount.
      pose proof (count_goals_le p 0 (Main.sequence s) ltac:(lia)) as Hle.
      apply bool_decide_eq_true in Hvalid. lia.
  - intros cfg. split_and!.
    + intros ls prio c cur rest Hpop Hgc.
      unfold Planner.loop_body, Search.loop_body. rewrite Hpop.
      assert (Planner.is_valid_solution cfg cur = true) as ->.
      { apply bool_decide_eq_true. lia. }
      case_bool_decide; done.
    + intros s g Hs Hlast Hgc. eapply planner_solution_end; [done| |done].
      apply bool_decide_eq_true. lia.
    + intros fuel best alternatives s g Hrun Hs Hlast.
      destruct (planner_search_sound cfg so _ _ _ _ Hrun Hs) as [Hsr Hvalid].
      destruct (planner_solution_end cfg so s g Hsr Hvalid Hlast)
        as [_ Hend].
      split; [|done]. intros Hnil. by rewrite Hnil in Hend.
Qed.

Lemma C10_witness :
  Main.sequence two_goals_best ≠ []
  ∧ last (Main.sequence two_goals_best) = Some "B".
Proof.
  apply (proj2 (proj2 (proj1 (proj1 (C10_solutions_end_at_final_goal
                                       order_as_listed) two_goals_profile)))
           20 (Some two_goals_best) [] two_goals_best "B").
  - vm_compute. reflexivity.
  - left. reflexivity.
  - reflexivity.
Defined.

(** A goal list that asks for the same move four times in a row. *)
Definition four_in_a_row_config : Config :=
  {| goals := ["M"; "M"; "M"; "M"];
     predecessors := Dict.make [("M", ["START"; "M"])] eq_refl;
     durations := Dict.make [] eq_refl;
     TARGET_TIME := 110.0%Q;
     DEFAULT_DURATION := 5.0%Q;
     MAX_EXPANSIONS := 100;
     MAX_STEPS := 50;
     MAX_CONSECUTIVE_REPEATS := 3;
     ALLOW_POST_FILL := true;
     KEEP_TOP_K := 5 |}.

Definition four_in_a_row_profile : Main.Profile :=
  {| Main.catalog := four_in_a_row_config;
     Main.MIN_TIME := 100.0%Q;
     Main.MAX_TIME := 125.0%Q |}.

(** No two neighbouring entries of the list are equal. *)
Definition no_adjacent_repeat (l : list string) : Prop :=
  ∀ i g, l !! i = Some g → l !! S i ≠ Some g.

Lemma NoDup_no_adjacent_repeat (l : list string) :
  NoDup l → no_adjacent_repeat l.
Proof.
  intros Hnd i g Hi HSi.
  pose proof (NoDup_lookup _ _ _ _ Hnd Hi HSi). lia.
Qed.

Lemma shipped_goals_no_adjacent_repeat :
  no_adjacent_repeat (goals main_config)
  ∧ no_adjacent_repeat (goals planner_config).
Proof.
  split; apply NoDup_no_adjacent_repeat;
    apply (bool_decide_unpack _); vm_compute; exact I.
Qed.

Lemma forallb_all_equal (l : list string) move :
  (∀ m, m ∈ l → m = move) →
  forallb (λ m, bool_decide (m = move)) l = true.
Proof.
  induction l as [|x l IH]; intros Hall; simpl; [done|].
  rewrite bool_decide_eq_true_2 by (apply Hall; left).
  apply IH. intros m Hm. apply Hall. by right.
Qed.

(** With the last [MAX_CONSECUTIVE_REPEATS] moves all equal to [move], the
    candidate generator offers [move] only as the next goal. *)
Lemma guard_only_lets_next_goal cfg so entries current_move gc sequence move :
  MAX_CONSECUTIVE_REPEATS cfg ≤ length sequence →
  (∀ m, m ∈ recent_moves cfg sequence → m = move) →
  move ∈ next_moves_over cfg so entries current_move gc sequence →
  goals cfg !! gc = Some move ∧ can_follow cfg current_move move = true.
Proof.
  intros Hlen Hall [_ [?|(ps & _ & _ & _ & Hrep)]]%elem_of_next_moves_over;
    [done|].
  unfold repeated in Hrep.
  by rewrite bool_decide_eq_true_2, forallb_all_equal in Hrep.
Qed.

Lemma run_in_goals_adjacent cfg t move j :
  2 ≤ t → no_adjacent_repeat (goals cfg) →
  ¬ (∀ i, i < t → goals cfg !! (j + i) = Some move).
Proof.
  intros Ht Hadj Hrun. apply (Hadj j move).
  - rewrite <- (Nat.add_0_r j). apply Hrun. lia.
  - replace (S j) with (j + 1) by lia. apply Hrun. lia.
Qed.

(** C5, the claim as stated fails.  In [main.py], with the three most recent
    moves all equal to [Crouch], the candidate generator still offers
    [Crouch], as the next goal; and over a goal list that asks for a move
    four times in a row the search returns a sequence of four equal moves,
    with [MAX_CONSECUTIVE_REPEATS] equal to 3. *)
Lemma C5_counterexample :
  (recent_moves main_config ["Crouch"; "Crouch"; "Crouch"]
   = ["Crouch"; "Crouch"; "Crouch"]
   ∧ "Crouch" ∈ Main.get_valid_next_moves main_profile order_as_listed
                  "Crouch" 10 ["Crouch"; "Crouch"; "Crouch"])
  ∧ (MAX_CONSECUTIVE_REPEATS four_in_a_row_profile = 3
     ∧ ∃ s, Main.find_choreography four_in_a_row_profile order_as_listed 20
            = Some (Some s, [])
            ∧ Main.sequence s = ["M"; "M"; "M"; "M"]).
Proof.
  split_and!; [done| |done|].
  - vm_compute.
    repeat first [apply list_elem_of_here | apply list_elem_of_further].
  - eexists (Main.new_State four_in_a_row_profile ["M"; "M"; "M"; "M"] 4
               (0 + 5.0 + 5.0 + 5.0 + 5.0)%Q 0).
    split; [vm_compute|]; reflexivity.
Qed.

(** The parts of the repetition property that hold. *)
Definition repetition_guarded {St : Type} (cfg : Config)
    (sequence : St → list string) (reach : St → Prop)
    (get_valid_next_moves : string → nat → list string → list string)
    (find_choreography : nat → option (option St * list St)) : Prop :=
  (∀ current_move goals_completed sequence move,
     MAX_CONSECUTIVE_REPEATS cfg ≤ length sequence →
     (∀ m, m ∈ recent_moves cfg sequence → m = move) →
     move ∈ get_valid_next_moves current_move goals_completed sequence →
     goals cfg !! goals_completed = Some move
     ∧ can_follow cfg current_move move = true)
  ∧ (∀ s l1 l2 t move,
       1 ≤ MAX_CONSECUTIVE_REPEATS cfg → reach s →
       sequence s = l1 ++ replicate t move ++ l2 →
       MAX_CONSECUTIVE_REPEATS cfg < t →
       ∃ j, ∀ i, i < t → goals cfg !! (j + i) = Some move)
  ∧ (∀ fuel best alternatives s l1 l2 t move,
       1 ≤ MAX_CONSECUTIVE_REPEATS cfg →
       no_adjacent_repeat (goals cfg) →
       find_choreography fuel = Some (best, alternatives) →
       best = Some s ∨ s ∈ alternatives →
       sequence s = l1 ++ replicate t move ++ l2 →
       t ≤ MAX_CONSECUTIVE_REPEATS cfg).

(** C5, amended.  When the most recent [MAX_CONSECUTIVE_REPEATS] moves are
    all equal to [m], the candidate generator offers [m] only if [m] is the
    next goal and may follow the current move: the guard sits in the catalog
    loop, not on the goal.  With [MAX_CONSECUTIVE_REPEATS] at least 1, a run
    of more than [MAX_CONSECUTIVE_REPEATS] equal moves in a reachable
    sequence is a run of as many consecutive entries of the goal list; so
    when no two neighbouring goals are equal, as in both shipped goal lists,
    no move occurs more than [MAX_CONSECUTIVE_REPEATS] times in a row in a
    solution.  Proved for [main.py] and for [choreography_planner.py]. *)
Theorem C5_repetition_guard_amended (so : SetOrder) :
  (∀ p : Main.Profile,
     repetition_guarded p Main.sequence (Main.reachable p so)
       (Main.get_valid_next_moves p so) (Main.find_choreography p so))
  ∧ (∀ cfg : Config,
       repetition_guarded cfg Planner.sequence (Planner.reachable cfg so)
         (Planner.get_valid_next_moves cfg so)
         (Planner.find_choreography cfg so)).
Proof.
  split.
  - intros p. split_and!.
    + intros cur gc sequence move. apply guard_only_lets_next_goal.
    + intros s l1 l2 t move HR Hs Hseq Ht.
      destruct (main_runs p so s l1 l2 t move HR Hs Hseq); [lia|done].
    + intros fuel best alternatives s l1 l2 t move HR Hadj Hrun Hs Hseq.
      destruct (main_search_sound p so _ _ _ _ Hrun Hs) as [Hsr _].
      apply Search.search_reachable_reachable in Hsr.
      destruct (main_runs p so s l1 l2 t move HR Hsr Hseq)
        as [|[j Hj]]; [done|].
      destruct (decide (t ≤ MAX_CONSECUTIVE_REPEATS p)); [done|].
      by destruct (run_in_goals_adjacent p t move j); [lia|..].
  - intros cfg. split_and!.
    + intros cur gc sequence move. apply guard_only_lets_next_goal.
    + intros s l1 l2 t move HR Hs Hseq Ht.
      destruct (planner_runs cfg so s l1 l2 t move HR Hs Hseq); [lia|done].
    + intros fuel best alternatives s l1 l2 t move HR Hadj Hrun Hs Hseq.
      destruct (planner_search_sound cfg so _ _ _ _ Hrun Hs) as [Hsr _].
      apply Search.search_reachable_reachable in Hsr.
      destruct (planner_runs cfg so s l1 l2 t move HR Hsr Hseq)
        as [|[j Hj]]; [done|].
      destruct (decide (t ≤ MAX_CONSECUTIVE_REPEATS cfg)); [done|].
      by destruct (run_in_goals_adjacent cfg t move j); [lia|..].
Qed.

Lemma C5_witness :
  goals main_config !! 10 = Some "Crouch"
  ∧ can_follow main_config "Crouch" "Crouch" = true.
Proof.
  apply (proj1 (proj1 (C5_repetition_guard_amended order_as_listed)
                  main_profile)
           "Crouch" 10 ["Crouch"; "Crouch"; "Crouch"] "Crouch").
  - simpl. lia.
  - intros m Hm. unfold recent_moves in Hm. simpl in Hm.
    rewrite !elem_of_cons in Hm.
    destruct Hm as [->|[->|[->|Hm]]]; try reflexivity.
    by apply elem_of_nil in Hm.
  - vm_compute.
    repeat first [apply list_elem_of_here | apply list_elem_of_further].
Defined.

(** ** Running the first iterations of the loop *)

Section first_iterations.
Context {St : Type}.
Variables (sequence : St → list string) (goals_completed : St → nat)
          (priority : St → Q).
Variables (initial_state : St) (expand_state : St → list St)
          (is_valid_solution : St → bool).
Variables (max_expansions keep_top_k : nat).

Local Abbreviation loop_body :=
  (Search.loop_body sequence goals_completed priority expand_state
     is_valid_solution).
Local Abbreviation while_loop :=
  (Search.while_loop sequence goals_completed priority expand_state
     is_valid_solution max_expansions).
Local Abbreviation loop_inv :=
  (Search.loop_inv initial_state expand_state is_valid_solution).

(** [k] iterations of the [while] loop; [None] if it exits earlier. *)
Fixpoint run_steps (k : nat) (ls : Search.LoopState)
    : option (@Search.LoopState St) :=
  match k with
  | 0 => Some ls
  | S k' =>
      if Search.loop_cond max_expansions ls
      then run_steps k' (loop_body ls) else None
  end.

Lemma run_steps_while k ls ls_k fuel r :
  run_steps k ls = Some ls_k → while_loop fuel ls = Some r →
  ∃ fuel', while_loop fuel' ls_k = Some r.
Proof.
  revert ls fuel. induction k as [|k IH]; intros ls fuel; simpl.
  - intros [= <-] Hrun. by exists fuel.
  - destruct (Search.loop_cond max_expansions ls) eqn:Hcond; [|done].
    intros Hsteps Hrun. destruct fuel as [|fuel]; simpl in Hrun;
      rewrite Hcond in Hrun; [done|]. by eapply IH.
Qed.

Lemma run_steps_inv k ls ls_k :
  run_steps k ls = Some ls_k → loop_inv ls → loop_inv ls_k.
Proof.
  revert ls. induction k as [|k IH]; intros ls; simpl.
  - by intros [= <-].
  - destruct (Search.loop_cond max_expansions ls); [|done].
    intros Hsteps Hinv. eapply IH; [done|]. by apply Search.loop_inv_body.
Qed.

(** A best solution that no solution can beat stays the best one. *)
Lemma best_solution_stays b fuel ls r :
  (∀ s, Search.search_reachable initial_state expand_state
          is_valid_solution s →
        is_valid_solution s = true →
        Qltb (priority s) (priority b) = false) →
  loop_inv ls → Search.best_solution ls = Some b →
  while_loop fuel ls = Some r → Search.best_solution r = Some b.
Proof.
  intros Hbest. revert ls.
  induction fuel as [|fuel IH]; intros ls Hinv Hb; simpl;
    destruct (Search.loop_cond max_expansions ls); try done;
    try (by intros [= <-]).
  apply IH; [by apply Search.loop_inv_body|].
  destruct Hinv as (Hpq & _). unfold Search.loop_body.
  destruct (Search.heappop priority (Search.pq ls))
    as [[[[prio c] cur] pq']|] eqn:Hpop; [|done].
  case_bool_decide; [done|].
  destruct (is_valid_solution cur) eqn:Hvalid; [|done]. simpl.
  rewrite Hb. simpl. rewrite Hbest; [done| |done].
  apply (Hpq (prio, c, cur)).
  apply Search.heappop_Some in Hpop. rewrite Hpop. left.
Qed.

(** If the first [k] iterations leave a best solution that cannot be
    beaten, the search returns it. *)
Lemma find_choreography_best k ls_k b fuel r :
  (∀ s, Search.search_reachable initial_state expand_state
          is_valid_solution s →
        is_valid_solution s = true →
        Qltb (priority s) (priority b) = false) →
  run_steps k (Search.initial_loop_state priority initial_state)
  = Some ls_k →
  Search.best_solution ls_k = Some b →
  Search.find_choreography sequence goals_completed priority initial_state
    expand_state is_valid_solution max_expansions keep_top_k fuel = Some r →
  r.1 = Some b.
Proof.
  intros Hbest Hsteps Hb. unfold Search.find_choreography.
  destruct (Search.while_loop _ _ _ _ _ _ fuel _) as [ls|] eqn:Hrun; [|done].
  intros [= <-]. simpl.
  destruct (run_steps_while _ _ _ _ _ Hsteps Hrun) as [fuel' Hrun'].
  eapply best_solution_stays; [done| |done|done].
  eapply run_steps_inv; [done|]. apply Search.loop_inv_initial.
Qed.
End first_iterations.

(** ** The priority of a solution of [main.py] is not negative *)

Lemma main_state_built p so s :
  Main.reachable p so s →
  s = Main.new_State p (Main.sequence s) (Main.goals_completed s)
        (Main.total_time s) (Main.filler_moves s).
Proof.
  induction 1 as [|s s' _ _ Hin]; [done|].
  unfold Main.expand_state in Hin.
  case_bool_decide; [by apply elem_of_nil in Hin|].
  apply list_elem_of_fmap in Hin as (move & -> & _).
  by destruct (is_next_goal p (Main.goals_completed s) move).
Qed.

Lemma time_penalty_nonneg p x : (0 <= Main.time_penalty p x)%Q.
Proof.
  unfold Main.time_penalty. destruct (Qltb x (Main.MIN_TIME p)) eqn:Hlow.
  - apply Qltb_lt in Hlow. lra.
  - destruct (Qltb (Main.MAX_TIME p) x) eqn:Hhigh; [|lra].
    apply Qltb_lt in Hhigh. lra.
Qed.

Lemma filler_penalty_nonneg p gc filler :
  (0 <= Main.filler_penalty p gc filler)%Q.
Proof.
  unfold Main.filler_penalty. case_bool_decide; simpl; [|lra].
  case_bool_decide; simpl; [|lra].
  assert (0 <= inject_Z (5 - Z.of_nat filler))%Q.
  { change 0%Q with (inject_Z 0). rewrite <- Zle_Qle. lia. }
  lra.
Qed.

Lemma main_solution_priority_nonneg p so s :
  Main.search_reachable p so s → Main.is_valid_solution p s = true →
  (0 <= Main.priority s)%Q.
Proof.
  intros Hs%Search.search_reachable_reachable Hvalid%bool_decide_eq_true.
  pose proof (main_count_goals p so s Hs) as Hcount.
  pose proof (count_goals_le p 0 (Main.sequence s) ltac:(lia)) as Hle.
  rewrite (main_state_built p so s Hs). simpl.
  pose proof (time_penalty_nonneg p
    (Main.total_time s + Main._compute_heuristic p (Main.goals_completed s)))
    as Htime.
  pose proof (filler_penalty_nonneg p (Main.goals_completed s)
                (Main.filler_moves s)) as Hfill.
  unfold Main.goal_penalty.
  replace (Z.of_nat (length (goals p)) - Z.of_nat (Main.goals_completed s))%Z
    with 0%Z by lia.
  change (inject_Z 0) with 0%Q. lra.
Qed.

(** A best solution of priority zero, found in the first [k] iterations of
    [main.py]'s loop, is the best solution the search returns. *)
Lemma main_best_of_priority_zero p so k b fuel r :
  (run_steps Main.sequence Main.goals_completed Main.priority
     (Main.expand_state p so) (Main.is_valid_solution p)
     (MAX_EXPANSIONS p) k (Main.initial_loop_state p)
   ≫= Search.best_solution) = Some b →
  (Main.priority b == 0)%Q →
  Main.find_choreography p so fuel = Some r →
  r.1 = Some b.
Proof.
  intros Hk Hzero Hrun.
  destruct (run_steps _ _ _ _ _ _ k _) as [ls_k|] eqn:Hsteps; [|done].
  simpl in Hk.
  eapply find_choreography_best; [|done..].
  intros s Hs Hvalid. apply Qltb_ge. rewrite Hzero.
  by eapply main_solution_priority_nonneg.
Qed.

(** The best solutions of the shipped [main.py], for two enumeration orders
    of the candidate set. *)
Definition main_best_as_listed : list string :=
  ["StandInit"; "Hello"; "BlowKisses"; "VOnEyes"; "Sit"; "Stand";
   "StayingAlive"; "WipeForehead"; "VOnEyes"; "Sit"; "StandZero";
   "ArmDance"; "Rhythm"; "Stand"; "VOnEyes"; "Dab"; "Stand"; "SitRelax";
   "Stand"; "Dab"; "Crouch"].

Definition main_best_reversed : list string :=
  ["StandInit"; "Hello"; "BlowKisses"; "VOnEyes"; "Sit"; "StandZero";
   "StayingAlive"; "WipeForehead"; "VOnEyes"; "Sit"; "StandZero";
   "ArmDance"; "Rhythm"; "Stand"; "VOnEyes"; "Dab"; "Stand"; "SitRelax";
   "Stand"; "Disco"; "Crouch"].

Definition best_after (so : SetOrder) (k : nat) : option Main.State :=
  run_steps Main.sequence Main.goals_completed Main.priority
    (Main.expand_state main_profile so) (Main.is_valid_solution main_profile)
    (MAX_EXPANSIONS main_profile) k (Main.initial_loop_state main_profile)
  ≫= Search.best_solution.

(** The best solution held after 30 iterations, for each of the two orders. *)
Definition main_state_as_listed : Main.State :=
  Eval vm_compute in
    default (Main.initial_state main_profile) (best_after order_as_listed 30).

Definition main_state_reversed : Main.State :=
  Eval vm_compute in
    default (Main.initial_state main_profile) (best_after order_reversed 30).

Lemma best_after_as_listed :
  best_after order_as_listed 30 = Some main_state_as_listed.
Proof. vm_compute. reflexivity. Qed.

Lemma best_after_reversed :
  best_after order_reversed 30 = Some main_state_reversed.
Proof. vm_compute. reflexivity. Qed.

Lemma main_returns_as_listed fuel r :
  Main.find_choreography main_profile order_as_listed fuel = Some r →
  Main.sequence <$> r.1 = Some main_best_as_listed.
Proof.
  intros Hrun.
  rewrite (main_best_of_priority_zero _ _ 30 main_state_as_listed fuel r
             best_after_as_listed); [reflexivity| |done].
  vm_compute. reflexivity.
Qed.

Lemma main_returns_reversed fuel r :
  Main.find_choreography main_profile order_reversed fuel = Some r →
  Main.sequence <$> r.1 = Some main_best_reversed.
Proof.
  intros Hrun.
  rewrite (main_best_of_priority_zero _ _ 30 main_state_reversed fuel r
             best_after_reversed); [reflexivity| |done].
  vm_compute. reflexivity.
Qed.

(** C6, evaluated on the shipped [main.py].  The candidate list is
    [list(set(valid_moves))], whose order is that of a set of strings.  For
    two enumeration orders of that set the candidates of the first expansion
    come in different orders, and the search, with the shipped catalog, goal
    list and constants, terminates with different best solutions. *)
Theorem C6_best_solution_depends_on_set_order :
  Main.get_valid_next_moves main_profile order_as_listed "START" 0 []
  = ["Clap"; "RotationFeet"; "StandInit"; "Wave"]
  ∧ Main.get_valid_next_moves main_profile order_reversed "START" 0 []
    = ["Wave"; "StandInit"; "RotationFeet"; "Clap"]
  ∧ ∃ fuel r1 r2,
      Main.find_choreography main_profile order_as_listed fuel = Some r1
      ∧ Main.find_choreography main_profile order_reversed fuel = Some r2
      ∧ Main.sequence <$> r1.1 = Some main_best_as_listed
      ∧ Main.sequence <$> r2.1 = Some main_best_reversed
      ∧ Main.sequence <$> r1.1 ≠ Main.sequence <$> r2.1.
Proof.
  split_and!; [by vm_compute..|].
  destruct (Search.find_choreography_terminates Main.sequence
              Main.goals_completed Main.priority
              (Main.initial_state main_profile)
              (Main.expand_state main_profile order_as_listed)
              (Main.is_valid_solution main_profile)
              (MAX_EXPANSIONS main_profile) (KEEP_TOP_K main_profile))
    as [n1 Hn1].
  destruct (Search.find_choreography_terminates Main.sequence
              Main.goals_completed Main.priority
              (Main.initial_state main_profile)
              (Main.expand_state main_profile order_reversed)
              (Main.is_valid_solution main_profile)
              (MAX_EXPANSIONS main_profile) (KEEP_TOP_K main_profile))
    as [n2 Hn2].
  destruct (Hn1 (n1 `max` n2)) as [r1 Hr1]; [lia|].
  destruct (Hn2 (n1 `max` n2)) as [r2 Hr2]; [lia|].
  exists (n1 `max` n2), r1, r2.
  pose proof (main_returns_as_listed _ _ Hr1) as H1.
  pose proof (main_returns_reversed _ _ Hr2) as H2.
  split_and!; [done..|]. rewrite H1, H2. by intros [=].
Qed.

(** [two_goals_profile] with room for a single move. *)
Definition dead_end_profile : Main.Profile :=
  {| Main.catalog :=
       {| goals := ["A"; "B"];
          predecessors := Dict.make [("A", ["START"]); ("B", ["A"])] eq_refl;
          durations := Dict.make [("A", 2%Q); ("B", 3%Q)] eq_refl;
          TARGET_TIME := 110.0%Q;
          DEFAULT_DURATION := 5.0%Q;
          MAX_EXPANSIONS := 100;
          MAX_STEPS := 1;
          MAX_CONSECUTIVE_REPEATS := 3;
          ALLOW_POST_FILL := true;
          KEEP_TOP_K := 5 |};
     Main.MIN_TIME := 100.0%Q;
     Main.MAX_TIME := 125.0%Q |}.

(** The loop state after the first iteration over [dead_end_profile]. *)
Definition dead_end_after_first : Search.LoopState :=
  Main.loop_body dead_end_profile order_as_listed
    (Main.initial_loop_state dead_end_profile).

(** C7, the claim as stated fails.  With [MAX_STEPS = 1] the second state
    popped is [[A]]: it is not a solution, its sequence has reached
    [MAX_STEPS], [expand_state] gives it no successor, and the iteration
    still takes [expansions] from 1 to 2. *)
Lemma C7_counterexample :
  ∃ prio c current_state,
    Search.heappop Main.priority (Search.pq dead_end_after_first)
    = Some ((prio, c, current_state), [])
    ∧ Main.sequence current_state = ["A"]
    ∧ MAX_STEPS dead_end_profile ≤ length (Main.sequence current_state)
    ∧ Main.is_valid_solution dead_end_profile current_state = false
    ∧ Main.expand_state dead_end_profile order_as_listed current_state = []
    ∧ Search.expansions dead_end_after_first = 1
    ∧ Search.expansions
        (Main.loop_body dead_end_profile order_as_listed dead_end_after_first)
      = 2.
Proof.
  eexists _, _, (Main.new_State dead_end_profile ["A"] 1 (0 + 2)%Q 0).
  split_and!; [vm_compute; reflexivity|done|simpl; lia|done..].
Qed.

(** C7, amended.  An iteration of the loop of [main.py] leaves [expansions]
    unchanged when the popped state's key is already visited, and when the
    popped state is a solution; in every other case it adds one to
    [expansions], whether or not [expand_state] returns successors: a popped
    state with [len(sequence) >= MAX_STEPS] gets no successor pushed and is
    counted as an expansion all the same. *)
Theorem C7_expansions_counted_amended (p : Main.Profile) (so : SetOrder)
    (ls : Search.LoopState) prio c current_state rest :
  Search.heappop Main.priority (Search.pq ls)
  = Some ((prio, c, current_state), rest) →
  let state_key :=
    (Main.sequence current_state, Main.goals_completed current_state) in
  let ls' := Main.loop_body p so ls in
  (state_key ∈ Search.visited ls →
   Search.expansions ls' = Search.expansions ls
   ∧ Search.pq ls' = rest
   ∧ Search.all_solutions ls' = Search.all_solutions ls)
  ∧ (state_key ∉ Search.visited ls →
     Main.is_valid_solution p current_state = true →
     Search.expansions ls' = Search.expansions ls ∧ Search.pq ls' = rest)
  ∧ (state_key ∉ Search.visited ls →
     Main.is_valid_solution p current_state = false →
     Search.expansions ls' = S (Search.expansions ls)
     ∧ Search.pq ls'
       = (Search.push_all Main.priority
            (Main.expand_state p so current_state) rest
            (Search.counter ls)).1)
  ∧ (state_key ∉ Search.visited ls →
     Main.is_valid_solution p current_state = false →
     MAX_STEPS p ≤ length (Main.sequence current_state) →
     Search.expansions ls' = S (Search.expansions ls)
     ∧ Search.pq ls' = rest).
Proof.
  intros Hpop state_key ls'. subst state_key ls'.
  unfold Main.loop_body, Search.loop_body. rewrite Hpop.
  split_and!.
  - intros Hvisited. by rewrite bool_decide_eq_true_2.
  - intros Hnew ->. by rewrite bool_decide_eq_false_2.
  - intros Hnew ->. by rewrite bool_decide_eq_false_2.
  - intros Hnew -> Hlen. rewrite bool_decide_eq_false_2 by done.
    unfold Main.expand_state. by rewrite bool_decide_eq_true_2.
Qed.

Lemma C7_witness :
  Search.expansions
    (Main.loop_body dead_end_profile order_as_listed dead_end_after_first)
  = S (Search.expansions dead_end_after_first)
  ∧ Search.pq
      (Main.loop_body dead_end_profile order_as_listed dead_end_after_first)
    = [].
Proof.
  apply (proj2 (proj2 (proj2
           (C7_expansions_counted_amended dead_end_profile order_as_listed
              dead_end_after_first
              (Main.priority
                 (Main.new_State dead_end_profile ["A"] 1 (0 + 2)%Q 0)) 1
              (Main.new_State dead_end_profile ["A"] 1 (0 + 2)%Q 0) []
              ltac:(vm_compute; reflexivity))))).
  - apply (bool_decide_unpack _). vm_compute. exact I.
  - reflexivity.
  - simpl. lia.
Defined.

(** C8, the claim as stated fails.  [Moonwalk] is no key of the predecessor
    table of [main.py]; asked whether it may follow [START], [can_follow]
    returns [False] and raises nothing, the answer it also gives for
    [Hello], a key of the table whose list does not hold [START]. *)
Lemma C8_counterexample :
  Dict.get (predecessors main_config) "Moonwalk" = None
  ∧ can_follow_exn main_config "START" "Moonwalk" = Return false
  ∧ can_follow_exn main_config "START" "Hello" = Return false.
Proof. by vm_compute. Qed.

(** C8, amended.  [can_follow] never raises: the subscript
    [predecessors[next_move]] is reached only when the key is present.  For
    a target move absent from the predecessor table it returns [False], the
    plain answer of a transition that is not allowed. *)
Theorem C8_unknown_target_is_disallowed (cfg : Config)
    (prev_move next_move : string) :
  Dict.get (predecessors cfg) next_move = None →
  can_follow_exn cfg prev_move next_move = Return false
  ∧ ∀ prev next,
      can_follow_exn cfg prev next = Return (can_follow cfg prev next).
Proof.
  intros Hnone. split; [|apply can_follow_exn_pure].
  rewrite can_follow_exn_pure. unfold can_follow. by rewrite Hnone.
Qed.

Lemma C8_witness :
  can_follow_exn main_config "START" "Moonwalk" = Return false.
Proof.
  apply (C8_unknown_target_is_disallowed main_config "START" "Moonwalk").
  reflexivity.
Defined.


(** * Further properties of the code *)

(** ** What the search loop returns *)

Section search_results.
Context {St : Type}.
Variables (sequence : St → list string) (goals_completed : St → nat)
          (priority : St → Q).
Variables (initial_state : St) (expand_state : St → list St)
          (is_valid_solution : St → bool).
Variables (max_expansions keep_top_k : nat).

Local Abbreviation loop_body :=
  (Search.loop_body sequence goals_completed priority expand_state
     is_valid_solution).
Local Abbreviation while_loop :=
  (Search.while_loop sequence goals_completed priority expand_state
     is_valid_solution max_expansions).
Local Abbreviation find_choreography :=
  (Search.find_choreography sequence goals_completed priority initial_state
     expand_state is_valid_solution max_expansions keep_top_k).

(** The best solution as the loop maintains it over the solutions met so
    far: a later solution replaces it only with a strictly lower priority. *)
Definition best_of (l : list St) : option St :=
  fold_left (λ best s, if Search.better priority s best then Some s else best)
            l None.

(** Ascending priorities. *)
Definition priority_le (a b : St) : Prop := (priority a <= priority b)%Q.

(** What the loop keeps about its counters and its best solution. *)
Definition result_inv (ls : @Search.LoopState St) : Prop :=
  Search.expansions ls ≤ max_expansions
  ∧ Search.best_solution ls = best_of (Search.all_solutions ls).

Lemma best_of_snoc l s :
  best_of (l ++ [s])
  = if Search.better priority s (best_of l) then Some s else best_of l.
Proof. unfold best_of. by rewrite fold_left_app. Qed.

Lemma result_inv_initial :
  result_inv (Search.initial_loop_state priority initial_state).
Proof. split; simpl; [lia|done]. Qed.

Lemma result_inv_body ls :
  Search.loop_cond max_expansions ls = true →
  result_inv ls → result_inv (loop_body ls).
Proof.
  unfold Search.loop_cond. rewrite andb_true_iff, bool_decide_eq_true.
  intros [_ Hlt] [Hexp Hbest]. unfold Search.loop_body.
  destruct (Search.heappop priority (Search.pq ls))
    as [[[[prio c] cur] pq']|]; [|done].
  case_bool_decide; [done|].
  destruct (is_valid_solution cur); split; simpl; try done; try lia.
  by rewrite best_of_snoc, <- Hbest.
Qed.

Lemma while_loop_result_inv fuel ls ls' :
  while_loop fuel ls = Some ls' → result_inv ls → result_inv ls'.
Proof.
  revert ls. induction fuel as [|fuel IH]; intros ls; simpl;
    destruct (Search.loop_cond max_expansions ls) eqn:Hcond; try done;
    try (by intros [= <-]).
  intros Hrun Hinv. eapply IH; [done|]. by apply result_inv_body.
Qed.

Lemma head_insert_by_priority s l :
  head (Search.insert_by_priority priority s l)
  = if Search.better priority s (head l) then Some s else head l.
Proof. destruct l as [|x l]; simpl; [done|]. by case_match. Qed.

(** The stable sort puts first the solution the loop holds as the best. *)
Lemma head_sort_by_priority l :
  head (Search.sort_by_priority priority l) = best_of l.
Proof.
  unfold Search.sort_by_priority, best_of.
  change (@None St) with (head (@nil St)). generalize (@nil St).
  induction l as [|s l IH]; intros acc; simpl; [done|].
  by rewrite IH, head_insert_by_priority.
Qed.

Lemma best_of_None l : best_of l = None → l = [].
Proof.
  destruct l as [|x l _] using rev_ind; [done|].
  rewrite best_of_snoc. destruct (best_of l); simpl; [|done].
  by case_match.
Qed.

(** The best solution is one of the solutions, and none has a strictly
    lower priority. *)
Lemma best_of_least l b :
  best_of l = Some b →
  b ∈ l ∧ ∀ s, s ∈ l → priority_le b s.
Proof.
  unfold priority_le. revert b.
  induction l as [|x l IH] using rev_ind; intros b; [done|].
  rewrite best_of_snoc. destruct (best_of l) as [b0|] eqn:Hb0; simpl.
  - destruct (IH b0 eq_refl) as [Hin Hleast].
    destruct (Qltb (priority x) (priority b0)) eqn:Hlt; intros [= <-].
    + apply Qltb_lt in Hlt. split; [apply elem_of_app; right; left|].
      intros s [Hs| ->%list_elem_of_singleton]%elem_of_app; [|lra].
      specialize (Hleast s Hs). lra.
    + apply Qltb_ge in Hlt. split; [apply elem_of_app; by left|].
      intros s [Hs| ->%list_elem_of_singleton]%elem_of_app; [by auto|done].
  - apply best_of_None in Hb0 as ->. intros [= <-].
    split; [left|]. intros s ->%list_elem_of_singleton. lra.
Qed.

Lemma insert_by_priority_sorted s l :
  StronglySorted priority_le l →
  StronglySorted priority_le (Search.insert_by_priority priority s l).
Proof.
  unfold priority_le.
  induction 1 as [|x l Hsorted IH Hall]; simpl; [repeat constructor|].
  destruct (Qltb (priority s) (priority x)) eqn:Hlt.
  - apply Qltb_lt in Hlt. constructor; [by constructor|].
    constructor; [lra|]. eapply Forall_impl; [done|]. simpl. intros y ?. lra.
  - apply Qltb_ge in Hlt. constructor; [done|].
    rewrite Search.insert_by_priority_perm. by constructor.
Qed.

Lemma sort_by_priority_sorted l :
  StronglySorted priority_le (Search.sort_by_priority priority l).
Proof.
  unfold Search.sort_by_priority.
  assert (StronglySorted priority_le (@nil St)) as Hnil by constructor.
  revert Hnil. generalize (@nil St).
  induction l as [|s l IH]; intros acc Hacc; simpl; [done|].
  by apply IH, insert_by_priority_sorted.
Qed.

Lemma take_sorted k (l : list St) :
  StronglySorted priority_le l → StronglySorted priority_le (take k l).
Proof.
  intros Hsorted. rewrite <- (take_drop k l) in Hsorted.
  by apply StronglySorted_app in Hsorted as (_ & ? & _).
Qed.

(** The shape of the pair [find_choreography] returns. *)
Lemma find_choreography_result fuel best alternatives :
  find_choreography fuel = Some (best, alternatives) →
  length alternatives ≤ keep_top_k
  ∧ StronglySorted priority_le alternatives
  ∧ (∀ a, head alternatives = Some a → best = Some a)
  ∧ (∀ b s, best = Some b → s ∈ alternatives → priority_le b s)
  ∧ (best = None → alternatives = []).
Proof.
  unfold Search.find_choreography.
  destruct (Search.while_loop _ _ _ _ _ _ fuel _) as [ls|] eqn:Hrun; [|done].
  apply while_loop_result_inv in Hrun as [_ Hbest];
    [|apply result_inv_initial].
  unfold Search.search_result. intros [= <- <-].
  set (sorted_solutions :=
         Search.sort_by_priority priority (Search.all_solutions ls)).
  split_and!.
  - case_bool_decide; simpl; [|lia]. rewrite length_take. lia.
  - case_bool_decide; [|constructor].
    apply take_sorted, sort_by_priority_sorted.
  - intros a Ha. rewrite Hbest, <- head_sort_by_priority.
    case_bool_decide; [|done]. fold sorted_solutions.
    destruct keep_top_k, sorted_solutions; done.
  - intros b s Hb Hs. rewrite Hbest in Hb.
    apply best_of_least in Hb as [_ Hleast]. apply Hleast.
    case_bool_decide; [|by apply elem_of_nil in Hs].
    apply elem_of_take in Hs as (i & Hs & _).
    apply list_elem_of_lookup_2 in Hs. subst sorted_solutions.
    by rewrite Search.sort_by_priority_perm in Hs.
  - intros Hnone. rewrite Hbest in Hnone. apply best_of_None in Hnone.
    subst sorted_solutions. rewrite Hnone. done.
Qed.

(** The budget is never overrun, and the loop stops only on an empty
    frontier or a spent budget. *)
Lemma while_loop_budget fuel ls' :
  while_loop fuel (Search.initial_loop_state priority initial_state)
  = Some ls' →
  Search.expansions ls' ≤ max_expansions
  ∧ (Search.pq ls' = [] ∨ Search.expansions ls' = max_expansions).
Proof.
  intros Hrun. pose proof (Search.while_loop_exit _ _ _ _ _ _ _ _ _ Hrun)
    as Hexit.
  apply while_loop_result_inv in Hrun as [Hexp _];
    [|apply result_inv_initial].
  split; [done|]. unfold Search.loop_cond in Hexit.
  apply andb_false_iff in Hexit as [Hpq|Hlt].
  - left. by apply negb_false_iff, bool_decide_eq_true in Hpq.
  - right. apply bool_decide_eq_false in Hlt. lia.
Qed.
End search_results.

(** A goal reachable by two routes of equal cost: [B] and [C] both open a
    sequence and both lead to [G]. *)
Definition tie_config : Config :=
  {| goals := ["G"];
     predecessors :=
       Dict.make [("G", ["B"; "C"]); ("B", ["START"]); ("C", ["START"])]
         eq_refl;
     durations := Dict.make [] eq_refl;
     TARGET_TIME := 110.0%Q;
     DEFAULT_DURATION := 5.0%Q;
     MAX_EXPANSIONS := 100;
     MAX_STEPS := 50;
     MAX_CONSECUTIVE_REPEATS := 3;
     ALLOW_POST_FILL := true;
     KEEP_TOP_K := 5 |}.

Definition tie_profile : Main.Profile :=
  {| Main.catalog := tie_config;
     Main.MIN_TIME := 100.0%Q;
     Main.MAX_TIME := 125.0%Q |}.

Definition tie_first : Main.State :=
  Eval vm_compute in Main.new_State tie_profile ["B"; "G"] 1 (0 + 5.0 + 5.0)%Q 1.

Definition tie_second : Main.State :=
  Eval vm_compute in Main.new_State tie_profile ["C"; "G"] 1 (0 + 5.0 + 5.0)%Q 1.

Lemma tie_search :
  Main.find_choreography tie_profile order_as_listed 20
  = Some (Some tie_first, [tie_first; tie_second]).
Proof. vm_compute. reflexivity. Qed.

(** X1. The search loop of both entry points terminates, for every
    configuration and every enumeration order of the candidate set: from
    some amount of fuel on [find_choreography] returns, and what it returns
    does not depend on the fuel. *)
Theorem X1_search_terminates (so : SetOrder) :
  (∀ p : Main.Profile,
     ∃ n r, ∀ fuel,
       (n ≤ fuel → Main.find_choreography p so fuel = Some r)
       ∧ (∀ r', Main.find_choreography p so fuel = Some r' → r' = r))
  ∧ (∀ cfg : Config,
       ∃ n r, ∀ fuel,
         (n ≤ fuel → Planner.find_choreography cfg so fuel = Some r)
         ∧ (∀ r', Planner.find_choreography cfg so fuel = Some r' → r' = r)).
Proof.
  split.
  - intros p.
    destruct (Search.find_choreography_terminates Main.sequence
                Main.goals_completed Main.priority (Main.initial_state p)
                (Main.expand_state p so) (Main.is_valid_solution p)
                (MAX_EXPANSIONS p) (KEEP_TOP_K p)) as [n Hn].
    destruct (Hn n) as [r Hr]; [lia|]. exists n, r. intros fuel. split.
    + intros Hle. destruct (Hn fuel Hle) as [r' Hr'].
      unfold Main.find_choreography. rewrite Hr'. f_equal.
      by eapply Search.find_choreography_fuel_irrelevant.
    + intros r' Hr'. by eapply Search.find_choreography_fuel_irrelevant.
  - intros cfg.
    destruct (Search.find_choreography_terminates Planner.sequence
                Planner.goals_completed Planner.priority
                (Planner.initial_state cfg) (Planner.expand_state cfg so)
                (Planner.is_valid_solution cfg)
                (MAX_EXPANSIONS cfg) (KEEP_TOP_K cfg)) as [n Hn].
    destruct (Hn n) as [r Hr]; [lia|]. exists n, r. intros fuel. split.
    + intros Hle. destruct (Hn fuel Hle) as [r' Hr'].
      unfold Planner.find_choreography. rewrite Hr'. f_equal.
      by eapply Search.find_choreography_fuel_irrelevant.
    + intros r' Hr'. by eapply Search.find_choreography_fuel_irrelevant.
Qed.

(** X2. When the loop of [find_choreography] stops, [expansions] has not
    passed [MAX_EXPANSIONS], and either the frontier is empty or the budget
    is spent exactly. *)
Theorem X2_budget_respected (p : Main.Profile) (so : SetOrder) fuel ls :
  Main.while_loop p so fuel (Main.initial_loop_state p) = Some ls →
  Search.expansions ls ≤ MAX_EXPANSIONS p
  ∧ (Search.pq ls = [] ∨ Search.expansions ls = MAX_EXPANSIONS p).
Proof. apply while_loop_budget. Qed.

Lemma X2_witness :
  ∃ ls,
    Main.while_loop two_goals_profile order_as_listed 20
      (Main.initial_loop_state two_goals_profile) = Some ls
    ∧ Search.expansions ls ≤ 100
    ∧ (Search.pq ls = [] ∨ Search.expansions ls = 100).
Proof.
  destruct (Main.while_loop two_goals_profile order_as_listed 20
              (Main.initial_loop_state two_goals_profile)) as [ls|] eqn:Hrun;
    [|by vm_compute in Hrun].
  exists ls. split; [done|].
  exact (X2_budget_respected two_goals_profile order_as_listed 20 ls Hrun).
Defined.

(** X3. The alternatives [find_choreography] returns are at most
    [KEEP_TOP_K], in ascending order of priority, and there are none when
    no solution was found. *)
Theorem X3_alternatives_ranked (p : Main.Profile) (so : SetOrder)
    fuel best alternatives :
  Main.find_choreography p so fuel = Some (best, alternatives) →
  length alternatives ≤ KEEP_TOP_K p
  ∧ StronglySorted (priority_le Main.priority) alternatives
  ∧ (best = None → alternatives = []).
Proof.
  intros Hrun. apply find_choreography_result in Hrun.
  destruct Hrun as (? & ? & _ & _ & ?). done.
Qed.

Lemma X3_witness :
  length [tie_first; tie_second] ≤ KEEP_TOP_K tie_profile
  ∧ StronglySorted (priority_le Main.priority) [tie_first; tie_second]
  ∧ (Some tie_first = None → [tie_first; tie_second] = []).
Proof.
  exact (X3_alternatives_ranked tie_profile order_as_listed 20
           (Some tie_first) [tie_first; tie_second] tie_search).
Defined.

(** X4. The best solution is the first of the alternatives whenever there
    are alternatives: with two or more solutions found, the list of
    alternatives starts with the best solution itself, and no alternative
    has a lower priority than the best solution. *)
Theorem X4_best_heads_alternatives (p : Main.Profile) (so : SetOrder)
    fuel best alternatives :
  Main.find_choreography p so fuel = Some (best, alternatives) →
  (∀ a, head alternatives = Some a → best = Some a)
  ∧ (∀ b s, best = Some b → s ∈ alternatives →
       (Main.priority b <= Main.priority s)%Q).
Proof.
  intros Hrun. apply find_choreography_result in Hrun.
  destruct Hrun as (_ & _ & ? & ? & _). done.
Qed.

Lemma X4_witness :
  (∀ a, head [tie_first; tie_second] = Some a → Some tie_first = Some a)
  ∧ (∀ b s, Some tie_first = Some b → s ∈ [tie_first; tie_second] →
       (Main.priority b <= Main.priority s)%Q).
Proof.
  exact (X4_best_heads_alternatives tie_profile order_as_listed 20
           (Some tie_first) [tie_first; tie_second] tie_search).
Defined.

(** ** Sequences the search builds *)

Lemma can_follow_contains cfg prev_move next_move :
  can_follow cfg prev_move next_move = true →
  Dict.contains (predecessors cfg) next_move = true.
Proof.
  intros (preds & Hget & _)%can_follow_true.
  apply Dict.contains_get. by eexists.
Qed.

Lemma precedence_ok_keys cfg prev sequence move :
  precedence_ok cfg prev sequence = true → move ∈ sequence →
  Dict.contains (predecessors cfg) move = true.
Proof.
  revert prev. induction sequence as [|b rest IH]; intros prev; simpl.
  - by intros _ []%elem_of_nil.
  - rewrite andb_true_iff. intros [Hb Hrest] [->|Hin]%elem_of_cons.
    + by eapply can_follow_contains.
    + by eapply IH.
Qed.

(** X5. Every move of a sequence built by expansion is a key of the
    predecessor table: the search never plans a move the catalog does not
    define, in [main.py] and in [choreography_planner.py]. *)
Theorem X5_moves_are_catalog_keys (so : SetOrder) :
  (∀ (p : Main.Profile) s move,
     Main.reachable p so s → move ∈ Main.sequence s →
     Dict.contains (predecessors p) move = true)
  ∧ (∀ (cfg : Config) s move,
       Planner.reachable cfg so s → move ∈ Planner.sequence s →
       Dict.contains (predecessors cfg) move = true).
Proof.
  split.
  - intros p s move Hs. apply precedence_ok_keys with (prev := "START").
    by apply (main_precedence p so).
  - intros cfg s move Hs. apply precedence_ok_keys with (prev := "START").
    eapply reachable_precedence
      with (entries := Dict.items (predecessors cfg));
      eauto using Planner.planner_initial_empty,
        Planner.planner_expand_extends.
Qed.

Lemma X5_witness : Dict.contains (predecessors main_profile) "Bow" = true.
Proof.
  apply (proj1 (X5_moves_are_catalog_keys order_as_listed)
           main_profile wave_bow_state "Bow" wave_bow_reachable).
  right. left.
Defined.

(** X6. No sequence built by expansion is longer than [MAX_STEPS], so no
    solution is: [expand_state] refuses to extend a sequence that has
    reached that length. *)
Theorem X6_sequence_length_bounded (so : SetOrder) :
  (∀ (p : Main.Profile) s,
     Main.reachable p so s → length (Main.sequence s) ≤ MAX_STEPS p)
  ∧ (∀ (cfg : Config) s,
       Planner.reachable cfg so s →
       length (Planner.sequence s) ≤ MAX_STEPS cfg).
Proof.
  split.
  - intros p s.
    eapply reachable_length; eauto using Main.initial_empty, Main.expand_extends.
  - intros cfg s.
    eapply reachable_length;
      eauto using Planner.planner_initial_empty,
        Planner.planner_expand_extends.
Qed.

Lemma X6_witness : length (Main.sequence wave_bow_state) ≤ 50.
Proof.
  exact (proj1 (X6_sequence_length_bounded order_as_listed)
           main_profile wave_bow_state wave_bow_reachable).
Defined.

(** X7. In [main.py] every appended move either completes a goal or is
    counted as a filler: in a state built by expansion [filler_moves] plus
    [goals_completed] is the length of the sequence, so a solution has
    exactly [len(sequence) - len(goals)] fillers. *)
Theorem X7_fillers_counted (p : Main.Profile) (so : SetOrder) (s : Main.State) :
  Main.reachable p so s →
  Main.filler_moves s + Main.goals_completed s = length (Main.sequence s)
  ∧ (Main.is_valid_solution p s = true →
     Main.filler_moves s + length (goals p) = length (Main.sequence s)).
Proof.
  intros Hs. pose proof (main_filler_count p so s Hs) as Hfill.
  split; [done|]. intros Hvalid%bool_decide_eq_true.
  pose proof (main_count_goals p so s Hs) as Hcount.
  pose proof (count_goals_le p 0 (Main.sequence s) ltac:(lia)). lia.
Qed.

Lemma X7_witness :
  Main.filler_moves wave_bow_state + Main.goals_completed wave_bow_state = 2.
Proof.
  exact (proj1 (X7_fillers_counted main_profile order_as_listed
                  wave_bow_state wave_bow_reachable)).
Defined.

(** ** The heuristic *)


(** The sum of the durations of the goals still to complete, as both
    [_compute_heuristic] compute it. *)
Definition remaining_time (cfg : Config) (goals_completed : nat) : Q :=
  sum_durations cfg (drop goals_completed (goals cfg)).





Lemma remaining_time_done cfg gc :
  length (goals cfg) ≤ gc → remaining_time cfg gc = 0%Q.
Proof.
  intros Hle. unfold remaining_time. by rewrite drop_ge.
Qed.














(** ** [check_order] *)

(** One turn of the loop of [check_order]; [None] is the [IndexError] of
    [goals[c]]. *)
Definition check_step (cfg : Config) (acc : option nat) (e : string)
    : option nat :=
  c ← acc;
  g ← goals cfg !! c;
  Some (if bool_decide (e = g) then S c else c).

Lemma check_order_fold (p : Main.Profile) s :
  Main.check_order p s
  = c ← foldl (check_step p) (Some 0) (Main.sequence s);
    Some (bool_decide (c = length (goals p))).
Proof. reflexivity. Qed.

Lemma check_step_advance cfg c e :
  c < length (goals cfg) →
  check_step cfg (Some c) e = Some (advance cfg c e).
Proof.
  intros [g Hg]%lookup_lt_is_Some_2. unfold check_step, advance, is_next_goal.
  simpl. rewrite Hg. simpl. by case_bool_decide.
Qed.

Lemma check_step_index_error cfg c e :
  length (goals cfg) ≤ c → check_step cfg (Some c) e = None.
Proof.
  intros Hle. unfold check_step. simpl. by rewrite lookup_ge_None_2.
Qed.

(** The loop either counts the goals, all proper prefixes being short of
    the goal list, or raises, some proper prefix completing the list. *)
Lemma check_fold_spec cfg sequence :
  (foldl (check_step cfg) (Some 0) sequence
   = Some (count_goals cfg 0 sequence)
   ∧ ∀ l1 move l2, sequence = l1 ++ move :: l2 →
       count_goals cfg 0 l1 < length (goals cfg))
  ∨ (foldl (check_step cfg) (Some 0) sequence = None
     ∧ ∃ l1 move l2, sequence = l1 ++ move :: l2
         ∧ count_goals cfg 0 l1 = length (goals cfg)).
Proof.
  induction sequence as [|x l IH] using rev_ind.
  - left. split; [done|]. intros l1 move l2 Heq. by destruct l1.
  - rewrite foldl_snoc, count_goals_snoc.
    destruct IH as [[Hfold Hshort]|[Hfold (l1 & move & l2 & -> & Hfull)]].
    + rewrite Hfold.
      pose proof (count_goals_le cfg 0 l ltac:(lia)) as Hle.
      destruct (decide (count_goals cfg 0 l < length (goals cfg)))
        as [Hlt|Hnlt].
      * left. split; [by apply check_step_advance|].
        intros l1 move l2 Heq.
        destruct l2 as [|y l2 _] using rev_ind.
        -- apply app_inj_tail in Heq as [<- _]. done.
        -- rewrite app_comm_cons, app_assoc in Heq.
           apply app_inj_tail in Heq as [-> _]. by eapply Hshort.
      * right. split; [apply check_step_index_error; lia|].
        exists l, x, []. split; [done|lia].
    + right. rewrite Hfold. split; [done|].
      exists l1, move, (l2 ++ [x]). split; [|done].
      by rewrite <- app_assoc.
Qed.

(** X10. [check_order] of [main.py] raises [IndexError] exactly when the
    goal list is already complete before the last move of the sequence (it
    reads [goals[c]] with [c = len(goals)]); otherwise it answers whether
    the count of goals met in order equals [len(goals)]. *)
Theorem X10_check_order_index_error (p : Main.Profile) (s : Main.State) :
  (Main.check_order p s = None ↔
   ∃ l1 move l2, Main.sequence s = l1 ++ move :: l2
     ∧ count_goals p 0 l1 = length (goals p))
  ∧ (∀ b, Main.check_order p s = Some b →
       b = bool_decide (count_goals p 0 (Main.sequence s)
                        = length (goals p))).
Proof.
  rewrite check_order_fold.
  destruct (check_fold_spec p (Main.sequence s))
    as [[-> Hshort]|[-> Hfull]]; simpl.
  - split; [|by intros b [= <-]]. split; [done|].
    intros (l1 & move & l2 & Heq & Hfull).
    specialize (Hshort _ _ _ Heq). lia.
  - split; [done|]. by intros b.
Qed.

Lemma count_goals_prefix cfg l1 l2 :
  count_goals cfg 0 l1 ≤ count_goals cfg 0 (l1 ++ l2).
Proof.
  unfold count_goals. rewrite fold_left_app. apply (count_goals_ge cfg).
Qed.

(** A solution the loop can hold is complete at its last move and not
    before, so [check_order] runs through and answers [True]. *)
Lemma check_order_search_reachable (p : Main.Profile) (so : SetOrder) s :
  Main.search_reachable p so s → Main.is_valid_solution p s = true →
  Main.check_order p s = Some true.
Proof.
  intros Hsr Hvalid.
  pose proof (Search.search_reachable_reachable _ _ _ _ Hsr) as Hreach.
  pose proof (main_count_goals p so s Hreach) as Hcount.
  pose proof (count_goals_le p 0 (Main.sequence s) ltac:(lia)) as Hle.
  apply bool_decide_eq_true in Hvalid.
  rewrite check_order_fold.
  destruct (check_fold_spec p (Main.sequence s))
    as [[-> _]|[_ (l1 & move & l2 & Heq & Hfull)]]; simpl.
  - do 2 f_equal. apply bool_decide_eq_true. lia.
  - exfalso.
    destruct Hsr as [|parent s Hparent Hnot Hin]; [by destruct l1|].
    apply bool_decide_eq_false in Hnot.
    pose proof (main_count_goals p so parent
                  (Search.search_reachable_reachable _ _ _ _ Hparent))
      as Hpc.
    apply Main.expand_extends in Hin as (_ & x & _ & Hseq & _).
    rewrite Hseq in Heq.
    assert (∃ l3, Main.sequence parent = l1 ++ l3) as [l3 Hl3].
    { destruct l2 as [|y l2 _] using rev_ind.
      - apply app_inj_tail in Heq as [-> _]. exists []. by rewrite app_nil_r.
      - rewrite app_comm_cons, app_assoc in Heq.
        apply app_inj_tail in Heq as [-> _]. by exists (move :: l2). }
    pose proof (count_goals_prefix p l1 l3) as Hpre.
    rewrite <- Hl3 in Hpre. lia.
Qed.

(** X9. On every solution [find_choreography] of [main.py] returns,
    [check_order] answers [True] and does not raise: the goals are complete
    at the last move and not before. *)
Theorem X9_check_order_accepts_solutions (p : Main.Profile) (so : SetOrder)
    fuel best alternatives s :
  Main.find_choreography p so fuel = Some (best, alternatives) →
  best = Some s ∨ s ∈ alternatives →
  Main.check_order p s = Some true.
Proof.
  intros Hrun Hs.
  destruct (main_search_sound p so _ _ _ _ Hrun Hs) as [Hsr Hvalid].
  by eapply check_order_search_reachable.
Qed.

Lemma X9_witness : Main.check_order two_goals_profile two_goals_best = Some true.
Proof.
  apply (X9_check_order_accepts_solutions two_goals_profile order_as_listed
           20 (Some two_goals_best) [] two_goals_best).
  - vm_compute. reflexivity.
  - left. reflexivity.
Defined.

(** ** Goals without a predecessor entry *)

(** [[g for g in goals if g not in predecessors]], the validation of
    [main]. *)
Definition missing_goals (cfg : Config) : list string :=
  filter (λ g, Dict.contains (predecessors cfg) g = false) (goals cfg).

Lemma missing_goals_elem cfg g :
  g ∈ missing_goals cfg ↔
  g ∈ goals cfg ∧ Dict.get (predecessors cfg) g = None.
Proof.
  unfold missing_goals. rewrite list_elem_of_filter.
  rewrite <- not_true_iff_false, Dict.contains_get, <- eq_None_not_Some.
  tauto.
Qed.

(** The search cannot get past a goal that has no predecessor entry. *)
Lemma stuck_before_missing_goal cfg so {St : Type}
    (sequence : St → list string) (goals_completed : St → nat)
    (total_time : St → Q) initial_state expand_state entries i g s :
  sequence initial_state = [] ∧ goals_completed initial_state = 0
  ∧ total_time initial_state = 0%Q →
  (∀ e, e ∈ entries → e ∈ Dict.items (predecessors cfg)) →
  (∀ s s', s' ∈ expand_state s →
     extends cfg so sequence goals_completed total_time entries s s') →
  goals cfg !! i = Some g → Dict.get (predecessors cfg) g = None →
  Search.reachable initial_state expand_state s →
  goals_completed s ≤ i.
Proof.
  intros (_ & Hgc0 & _) Hentries Hexpand Hg Hnone.
  induction 1 as [|s s' _ IH Hin]; [lia|].
  apply Hexpand in Hin as (_ & move & Hmove & _ & -> & _).
  unfold advance.
  destruct (is_next_goal cfg (goals_completed s) move) eqn:Hnext; [|done].
  destruct (decide (goals_completed s = i)) as [Heq|]; [|lia].
  apply is_next_goal_true in Hnext. rewrite Heq, Hg in Hnext.
  injection Hnext as <-.
  apply (next_moves_can_follow _ _ _ _ _ _ _ Hentries) in Hmove.
  apply can_follow_true in Hmove as (preds & Hget & _). congruence.
Qed.

(** X11. When a goal has no entry in the predecessor table, the case in
    which [main] refuses to search, the search itself would find nothing:
    [find_choreography] returns no best solution and no alternative.
    Proved for [main.py] and for [choreography_planner.py]. *)
Theorem X11_missing_goal_no_solution (so : SetOrder) :
  (∀ (p : Main.Profile) fuel r,
     missing_goals p ≠ [] →
     Main.find_choreography p so fuel = Some r → r = (None, []))
  ∧ (∀ (cfg : Config) fuel r,
       missing_goals cfg ≠ [] →
       Planner.find_choreography cfg so fuel = Some r → r = (None, [])).
Proof.
  split.
  - intros p fuel [best alternatives] Hmissing Hrun.
    destruct (missing_goals p) as [|g ms] eqn:Hms; [done|].
    assert (g ∈ missing_goals p) as [Hg Hnone]%missing_goals_elem
      by (rewrite Hms; left).
    apply list_elem_of_lookup in Hg as [i Hi].
    pose proof (lookup_lt_Some _ _ _ Hi) as Hlt.
    assert (∀ s, ¬ (best = Some s ∨ s ∈ alternatives)) as Hno.
    { intros s Hs.
      destruct (main_search_sound p so _ _ _ _ Hrun Hs) as [Hsr Hvalid].
      apply bool_decide_eq_true in Hvalid.
      apply Search.search_reachable_reachable in Hsr.
      pose proof (stuck_before_missing_goal p so _ _ _ _ _ _ i g s
                    (Main.initial_empty p) (Main.entries_catalog p)
                    (Main.expand_extends p so) Hi Hnone Hsr). lia. }
    destruct best as [s|]; [by destruct (Hno s); left|].
    destruct alternatives as [|s alts]; [done|].
    destruct (Hno s). right. left.
  - intros cfg fuel [best alternatives] Hmissing Hrun.
    destruct (missing_goals cfg) as [|g ms] eqn:Hms; [done|].
    assert (g ∈ missing_goals cfg) as [Hg Hnone]%missing_goals_elem
      by (rewrite Hms; left).
    apply list_elem_of_lookup in Hg as [i Hi].
    pose proof (lookup_lt_Some _ _ _ Hi) as Hlt.
    assert (∀ s, ¬ (best = Some s ∨ s ∈ alternatives)) as Hno.
    { intros s Hs.
      destruct (planner_search_sound cfg so _ _ _ _ Hrun Hs)
        as [Hsr Hvalid].
      apply bool_decide_eq_true in Hvalid.
      apply Search.search_reachable_reachable in Hsr.
      pose proof (stuck_before_missing_goal cfg so _ _ _ _ _
                    (Dict.items (predecessors cfg)) i g s
                    (Planner.planner_initial_empty cfg) (λ e H, H)
                    (Planner.planner_expand_extends cfg so) Hi Hnone Hsr).
      lia. }
    destruct best as [s|]; [by destruct (Hno s); left|].
    destruct alternatives as [|s alts]; [done|].
    destruct (Hno s). right. left.
Qed.

(** [two_goals_config] with the entry of the goal [B] taken out. *)
Definition missing_goal_profile : Main.Profile :=
  {| Main.catalog :=
       {| goals := ["A"; "B"];
          predecessors := Dict.make [("A", ["START"])] eq_refl;
          durations := Dict.make [("A", 2%Q); ("B", 3%Q)] eq_refl;
          TARGET_TIME := 110.0%Q;
          DEFAULT_DURATION := 5.0%Q;
          MAX_EXPANSIONS := 100;
          MAX_STEPS := 50;
          MAX_CONSECUTIVE_REPEATS := 3;
          ALLOW_POST_FILL := true;
          KEEP_TOP_K := 5 |};
     Main.MIN_TIME := 100.0%Q;
     Main.MAX_TIME := 125.0%Q |}.

Lemma X11_witness :
  Main.find_choreography missing_goal_profile order_as_listed 20
  = Some (None, []).
Proof.
  destruct (Main.find_choreography missing_goal_profile order_as_listed 20)
    as [r|] eqn:Hrun; [|by vm_compute in Hrun].
  f_equal.
  apply (proj1 (X11_missing_goal_no_solution order_as_listed)
           missing_goal_profile 20 r); [|done].
  by vm_compute.
Defined.

(** ** [ALLOW_POST_FILL] *)

(** The configuration with [ALLOW_POST_FILL] set to [b]. *)
Definition with_post_fill (b : bool) (cfg : Config) : Config :=
  {| goals := goals cfg;
     predecessors := predecessors cfg;
     durations := durations cfg;
     TARGET_TIME := TARGET_TIME cfg;
     DEFAULT_DURATION := DEFAULT_DURATION cfg;
     MAX_EXPANSIONS := MAX_EXPANSIONS cfg;
     MAX_STEPS := MAX_STEPS cfg;
     MAX_CONSECUTIVE_REPEATS := MAX_CONSECUTIVE_REPEATS cfg;
     ALLOW_POST_FILL := b;
     KEEP_TOP_K := KEEP_TOP_K cfg |}.

Definition profile_with_post_fill (b : bool) (p : Main.Profile)
    : Main.Profile :=
  {| Main.catalog := with_post_fill b p;
     Main.MIN_TIME := Main.MIN_TIME p;
     Main.MAX_TIME := Main.MAX_TIME p |}.

(** Before the goals are complete the candidates do not depend on the
    flag. *)
Lemma next_moves_over_post_fill b cfg so entries current_move gc sequence :
  gc < length (goals cfg) →
  next_moves_over (with_post_fill b cfg) so entries current_move gc sequence
  = next_moves_over cfg so entries current_move gc sequence.
Proof.
  intros Hlt. unfold next_moves_over. simpl.
  by rewrite bool_decide_eq_false_2 by lia.
Qed.

Lemma main_expand_state_post_fill b p so s :
  Main.is_valid_solution p s = false →
  Main.expand_state (profile_with_post_fill b p) so s
  = Main.expand_state p so s.
Proof.
  intros Hnot%bool_decide_eq_false.
  unfold Main.expand_state, Main.get_valid_next_moves. simpl.
  by rewrite next_moves_over_post_fill by lia.
Qed.

Lemma planner_expand_state_post_fill b cfg so s :
  Planner.is_valid_solution cfg s = false →
  Planner.expand_state (with_post_fill b cfg) so s
  = Planner.expand_state cfg so s.
Proof.
  intros Hnot%bool_decide_eq_false.
  unfold Planner.expand_state, Planner.get_valid_next_moves. simpl.
  by rewrite next_moves_over_post_fill by lia.
Qed.

(** Two expansion functions that agree on the states that are no solution
    drive the loop in the same way. *)
Lemma while_loop_expand_ext {St : Type} (sequence : St → list string)
    (goals_completed : St → nat) (priority : St → Q)
    (expand1 expand2 : St → list St) (is_valid_solution : St → bool)
    max_expansions fuel ls :
  (∀ s, is_valid_solution s = false → expand1 s = expand2 s) →
  Search.while_loop sequence goals_completed priority expand1
    is_valid_solution max_expansions fuel ls
  = Search.while_loop sequence goals_completed priority expand2
      is_valid_solution max_expansions fuel ls.
Proof.
  intros Hext. revert ls. induction fuel as [|fuel IH]; intros ls; [done|].
  simpl. destruct (Search.loop_cond max_expansions ls); [|done].
  rewrite IH. f_equal. unfold Search.loop_body.
  destruct (Search.heappop priority (Search.pq ls))
    as [[[[prio c] cur] pq']|]; [|done].
  case_bool_decide; [done|].
  destruct (is_valid_solution cur) eqn:Hvalid; [done|].
  by rewrite (Hext cur Hvalid).
Qed.

(** X12. [ALLOW_POST_FILL] has no effect on the search: the flag is read
    only when all goals are complete, and a state with all goals complete
    is never expanded.  With the flag set either way [find_choreography]
    returns the same result, in [main.py] and in
    [choreography_planner.py]. *)
Theorem X12_post_fill_flag_has_no_effect (so : SetOrder) (b : bool)
    (fuel : nat) :
  (∀ p : Main.Profile,
     Main.find_choreography (profile_with_post_fill b p) so fuel
     = Main.find_choreography p so fuel)
  ∧ (∀ cfg : Config,
       Planner.find_choreography (with_post_fill b cfg) so fuel
       = Planner.find_choreography cfg so fuel).
Proof.
  split.
  - intros p. unfold Main.find_choreography, Search.find_choreography.
    f_equal.
    apply (while_loop_expand_ext Main.sequence Main.goals_completed
             Main.priority _ _ (Main.is_valid_solution p)).
    apply main_expand_state_post_fill.
  - intros cfg. unfold Planner.find_choreography, Search.find_choreography.
    f_equal.
    apply (while_loop_expand_ext Planner.sequence Planner.goals_completed
             Planner.priority _ _ (Planner.is_valid_solution cfg)).
    apply planner_expand_state_post_fill.
Qed.

(** ** The visited set *)

Section visited_keys.
Context {St : Type}.
Variables (sequence : St → list string) (goals_completed : St → nat)
          (priority : St → Q).
Variables (initial_state : St) (expand_state : St → list St)
          (is_valid_solution : St → bool).
Variable max_expansions : nat.

Hypothesis initial_sequence : sequence initial_state = [].
Hypothesis expand_appends :
  ∀ s s', s' ∈ expand_state s → ∃ move, sequence s' = sequence s ++ [move].
Hypothesis expand_distinct : ∀ s, NoDup (sequence <$> expand_state s).

Local Abbreviation loop_body :=
  (Search.loop_body sequence goals_completed priority expand_state
     is_valid_solution).

(** The sequences on the frontier, and the sequences already visited. *)
Definition frontier_sequences (ls : @Search.LoopState St)
    : list (list string) :=
  (λ e : Search.entry, sequence e.2) <$> Search.pq ls.

Definition visited_sequences (ls : @Search.LoopState St)
    : list (list string) :=
  fst <$> Search.visited ls.

(** A sequence is the empty one or extends a visited one by a move. *)
Definition child_of_visited (ls : @Search.LoopState St) (q : list string)
    : Prop :=
  q = [] ∨ ∃ l move, q = l ++ [move] ∧ l ∈ visited_sequences ls.

(** The frontier holds each sequence once and none that was visited. *)
Definition fresh_inv (ls : @Search.LoopState St) : Prop :=
  NoDup (frontier_sequences ls)
  ∧ (∀ q, q ∈ frontier_sequences ls → q ∉ visited_sequences ls)
  ∧ (∀ q, q ∈ frontier_sequences ls → child_of_visited ls q)
  ∧ (∀ v, v ∈ visited_sequences ls → child_of_visited ls v).

Lemma push_all_sequences states pq0 c :
  (λ e : Search.entry, sequence e.2) <$> (Search.push_all priority states pq0 c).1
  = ((λ e : Search.entry, sequence e.2) <$> pq0) ++ (sequence <$> states).
Proof.
  unfold Search.push_all. revert pq0 c.
  induction states as [|s states IH]; intros pq0 c; simpl.
  - by rewrite app_nil_r.
  - rewrite IH. unfold Search.heappush. rewrite fmap_app. simpl.
    by rewrite <- app_assoc.
Qed.

Lemma fresh_inv_initial :
  fresh_inv (Search.initial_loop_state priority initial_state).
Proof.
  unfold fresh_inv, frontier_sequences, visited_sequences, child_of_visited.
  simpl. rewrite initial_sequence. split_and!.
  - apply NoDup_singleton.
  - intros q _. apply not_elem_of_nil.
  - intros q ->%list_elem_of_singleton. by left.
  - by intros v []%elem_of_nil.
Qed.

Lemma fresh_inv_body ls : fresh_inv ls → fresh_inv (loop_body ls).
Proof.
  intros (Hnd & Hfresh & Hchild & Hclosed). unfold Search.loop_body.
  destruct (Search.heappop priority (Search.pq ls))
    as [[[[prio c] cur] pq']|] eqn:Hpop; [|done].
  apply Search.heappop_Some in Hpop.
  assert (frontier_sequences ls
          ≡ₚ sequence cur :: ((λ e : Search.entry, sequence e.2) <$> pq'))
    as Hperm.
  { unfold frontier_sequences. by rewrite Hpop. }
  rewrite Hperm in Hnd. apply NoDup_cons in Hnd as [Hcur Hnd].
  assert (sequence cur ∉ visited_sequences ls) as Hcur_fresh.
  { apply Hfresh. rewrite Hperm. left. }
  assert (∀ q, q ∈ (λ e : Search.entry, sequence e.2) <$> pq' →
            q ∈ frontier_sequences ls) as Hrest.
  { intros q Hq. rewrite Hperm. by right. }
  case_bool_decide as Hvisited.
  { destruct Hcur_fresh. apply list_elem_of_fmap.
    by exists (sequence cur, goals_completed cur). }
  assert (∀ q, child_of_visited ls q →
            q = [] ∨ ∃ l move, q = l ++ [move]
              ∧ l ∈ sequence cur :: visited_sequences ls) as Hweaken.
  { intros q [->|(l & move & -> & Hl)]; [by left|].
    right. exists l, move. split; [done|]. by right. }
  destruct (is_valid_solution cur).
  - unfold fresh_inv, frontier_sequences, visited_sequences,
      child_of_visited. simpl. split_and!; [done| | |].
    + intros q Hq [->|Hv]%elem_of_cons; [done|].
      by apply (Hfresh q (Hrest q Hq)).
    + intros q Hq. apply Hweaken, Hchild, Hrest, Hq.
    + intros v [->|Hv]%elem_of_cons; apply Hweaken.
      * apply Hchild. rewrite Hperm. left.
      * by apply Hclosed.
  - unfold fresh_inv, frontier_sequences, visited_sequences,
      child_of_visited. simpl. rewrite push_all_sequences.
    assert (∀ q, q ∈ sequence <$> expand_state cur →
              ∃ move, q = sequence cur ++ [move]) as Hkids.
    { intros q (s' & -> & Hs')%list_elem_of_fmap. by apply expand_appends. }
    split_and!.
    + apply NoDup_app. split_and!; [done| |apply expand_distinct].
      intros q Hq (move & ->)%Hkids.
      destruct (Hchild _ (Hrest _ Hq)) as [Hnil|(l & m & Heq & Hl)].
      * by destruct (sequence cur).
      * apply app_inj_tail in Heq as [<- _]. done.
    + intros q [Hq|(move & ->)%Hkids]%elem_of_app.
      * intros [->|Hv]%elem_of_cons; [done|].
        by apply (Hfresh q (Hrest q Hq)).
      * intros [Heq|Hv]%elem_of_cons.
        -- apply (f_equal length) in Heq. rewrite length_app in Heq.
           simpl in Heq. lia.
        -- destruct (Hclosed _ Hv) as [Hnil|(l & m & Heq & Hl)].
           ++ by destruct (sequence cur).
           ++ apply app_inj_tail in Heq as [<- _]. done.
    + intros q [Hq|(move & ->)%Hkids]%elem_of_app.
      * apply Hweaken, Hchild, Hrest, Hq.
      * right. exists (sequence cur), move. split; [done|left].
    + intros v [->|Hv]%elem_of_cons; apply Hweaken.
      * apply Hchild. rewrite Hperm. left.
      * by apply Hclosed.
Qed.

(** At every iteration the state popped is new to the visited set. *)
Lemma popped_state_not_visited k ls prio c current_state rest :
  run_steps sequence goals_completed priority expand_state
    is_valid_solution max_expansions k
    (Search.initial_loop_state priority initial_state) = Some ls →
  Search.heappop priority (Search.pq ls)
  = Some ((prio, c, current_state), rest) →
  (sequence current_state, goals_completed current_state)
    ∉ Search.visited ls.
Proof.
  intros Hsteps Hpop.
  assert (fresh_inv ls) as (_ & Hfresh & _).
  { revert Hsteps. generalize fresh_inv_initial.
    generalize (Search.initial_loop_state priority initial_state).
    induction k as [|k IH]; intros ls0 Hinv; simpl.
    - by intros [= <-].
    - destruct (Search.loop_cond max_expansions ls0); [|done].
      apply IH. by apply fresh_inv_body. }
  intros Hin. apply (Hfresh (sequence current_state)).
  - apply Search.heappop_Some in Hpop. unfold frontier_sequences.
    rewrite Hpop. left.
  - apply list_elem_of_fmap.
    by exists (sequence current_state, goals_completed current_state).
Qed.
End visited_keys.

Lemma next_moves_over_NoDup cfg so entries current_move gc sequence :
  NoDup (next_moves_over cfg so entries current_move gc sequence).
Proof.
  unfold next_moves_over. case_match; [constructor|].
  apply list_of_set_NoDup.
Qed.

Lemma snoc_fmap_NoDup (sequence : list string) (moves : list string) :
  NoDup moves → NoDup ((λ move, sequence ++ [move]) <$> moves).
Proof.
  apply NoDup_fmap_2. intros m1 m2 Heq. by apply app_inj_tail in Heq as [_ ?].
Qed.

Lemma main_expand_distinct p so s :
  NoDup (Main.sequence <$> Main.expand_state p so s).
Proof.
  unfold Main.expand_state. case_bool_decide; [constructor|].
  rewrite <- list_fmap_compose.
  erewrite list_fmap_ext; [apply snoc_fmap_NoDup, next_moves_over_NoDup|].
  intros i move _. simpl.
  by destruct (is_next_goal p (Main.goals_completed s) move).
Qed.

Lemma planner_expand_distinct cfg so s :
  NoDup (Planner.sequence <$> Planner.expand_state cfg so s).
Proof.
  unfold Planner.expand_state. case_bool_decide; [constructor|].
  rewrite <- list_fmap_compose.
  erewrite list_fmap_ext; [apply snoc_fmap_NoDup, next_moves_over_NoDup|].
  intros i move _. simpl.
  by destruct (is_next_goal cfg (Planner.goals_completed s) move).
Qed.

Lemma main_expand_appends p so s s' :
  s' ∈ Main.expand_state p so s →
  ∃ move, Main.sequence s' = Main.sequence s ++ [move].
Proof.
  intros (_ & move & _ & Hseq & _)%Main.expand_extends. by exists move.
Qed.

Lemma planner_expand_appends cfg so s s' :
  s' ∈ Planner.expand_state cfg so s →
  ∃ move, Planner.sequence s' = Planner.sequence s ++ [move].
Proof.
  intros (_ & move & _ & Hseq & _)%Planner.planner_expand_extends.
  by exists move.
Qed.

(** The loop states the search goes through: the state after [k]
    iterations. *)
Definition main_loop_state (p : Main.Profile) (so : SetOrder) (k : nat)
    : option Search.LoopState :=
  run_steps Main.sequence Main.goals_completed Main.priority
    (Main.expand_state p so) (Main.is_valid_solution p) (MAX_EXPANSIONS p)
    k (Main.initial_loop_state p).

Definition planner_loop_state (cfg : Config) (so : SetOrder) (k : nat)
    : option Search.LoopState :=
  run_steps Planner.sequence Planner.goals_completed Planner.priority
    (Planner.expand_state cfg so) (Planner.is_valid_solution cfg)
    (MAX_EXPANSIONS cfg) k (Planner.initial_loop_state cfg).

(** X13. The visited set never filters anything: every state pushed on the
    frontier carries a sequence of its own, so at every iteration of the
    loop the key [(sequence, goals_completed)] of the popped state is not
    yet in [visited] and the [continue] on a visited key is never taken.
    Proved for [main.py] and for [choreography_planner.py]. *)
Theorem X13_visited_never_filters (so : SetOrder) :
  (∀ (p : Main.Profile) k ls prio c current_state rest,
     main_loop_state p so k = Some ls →
     Search.heappop Main.priority (Search.pq ls)
     = Some ((prio, c, current_state), rest) →
     (Main.sequence current_state, Main.goals_completed current_state)
       ∉ Search.visited ls)
  ∧ (∀ (cfg : Config) k ls prio c current_state rest,
       planner_loop_state cfg so k = Some ls →
       Search.heappop Planner.priority (Search.pq ls)
       = Some ((prio, c, current_state), rest) →
       (Planner.sequence current_state,
        Planner.goals_completed current_state) ∉ Search.visited ls).
Proof.
  split.
  - intros p k ls prio c cur rest.
    apply popped_state_not_visited;
      [done|apply main_expand_appends|apply main_expand_distinct].
  - intros cfg k ls prio c cur rest.
    apply popped_state_not_visited;
      [done|apply planner_expand_appends|apply planner_expand_distinct].
Qed.

Lemma X13_witness :
  (Main.sequence (Main.new_State dead_end_profile ["A"] 1 (0 + 2)%Q 0),
   Main.goals_completed (Main.new_State dead_end_profile ["A"] 1 (0 + 2)%Q 0))
    ∉ Search.visited dead_end_after_first.
Proof.
  apply (proj1 (X13_visited_never_filters order_as_listed)
           dead_end_profile 1 dead_end_after_first
           (Main.priority (Main.new_State dead_end_profile ["A"] 1 (0 + 2)%Q 0))
           1 (Main.new_State dead_end_profile ["A"] 1 (0 + 2)%Q 0) []).
  - vm_compute. reflexivity.
  - vm_compute. reflexivity.
Defined.

(** ** The three tiers of [main.py] *)





(** X15. A solution of [main.py] has priority zero exactly when it holds at
    least 5 fillers and its total time lies in [[MIN_TIME, MAX_TIME]]; any
    other solution has a positive priority. *)
Theorem X15_perfect_solutions (p : Main.Profile) (so : SetOrder)
    (s : Main.State) :
  Main.reachable p so s → Main.is_valid_solution p s = true →
  ((Main.priority s == 0)%Q ↔
   5 ≤ Main.filler_moves s
   ∧ (Main.MIN_TIME p <= Main.total_time s)%Q
   ∧ (Main.total_time s <= Main.MAX_TIME p)%Q)
  ∧ (0 <= Main.priority s)%Q.
Proof.
  intros Hs Hvalid%bool_decide_eq_true.
  pose proof (main_count_goals p so s Hs) as Hcount.
  pose proof (count_goals_le p 0 (Main.sequence s) ltac:(lia)) as Hle.
  assert (Main.goals_completed s = length (goals p)) as Hgc by lia.
  rewrite (main_state_built p so s Hs). simpl.
  unfold Main.goal_penalty, Main.filler_penalty, Main.time_penalty.
  change (Main._compute_heuristic p (Main.goals_completed s))
    with (remaining_time p (Main.goals_completed s)).
  rewrite (remaining_time_done p (Main.goals_completed s)) by lia.
  replace (Z.of_nat (length (goals p)) - Z.of_nat (Main.goals_completed s))%Z
    with 0%Z by lia.
  change (inject_Z 0) with 0%Q.
  rewrite (bool_decide_eq_true_2 _ Hgc). simpl andb.
  assert (Main.filler_moves s < 5 →
          (0 < inject_Z (5 - Z.of_nat (Main.filler_moves s)))%Q) as Hpos.
  { intros Hlt. change 0%Q with (inject_Z 0). rewrite <- Zlt_Qlt. lia. }
  case_bool_decide as Hfill;
    destruct (Qltb (Main.total_time s + 0) (Main.MIN_TIME p)) eqn:Hlow;
    try destruct (Qltb (Main.MAX_TIME p) (Main.total_time s + 0)) eqn:Hhigh;
    repeat match goal with
      | H : Qltb _ _ = true |- _ => apply Qltb_lt in H
      | H : Qltb _ _ = false |- _ => apply Qltb_ge in H
      end;
    try specialize (Hpos Hfill);
    (split; [split; [intros Hzero; split_and!; try lia; lra
                    |intros (? & ? & ?); try lia; lra]
            |lra]).
Qed.

Lemma best_after_search_reachable so k b :
  best_after so k = Some b →
  Main.search_reachable main_profile so b
  ∧ Main.is_valid_solution main_profile b = true.
Proof.
  unfold best_after.
  destruct (run_steps _ _ _ _ _ _ k _) as [ls|] eqn:Hsteps; [|done].
  simpl. intros Hbest.
  apply run_steps_inv with (initial_state := Main.initial_state main_profile)
    in Hsteps as (_ & Hsol & Hb); [|apply Search.loop_inv_initial].
  by apply Hsol, Hb.
Qed.

Lemma X15_witness :
  5 ≤ Main.filler_moves main_state_as_listed
  ∧ (100.0 <= Main.total_time main_state_as_listed)%Q
  ∧ (Main.total_time main_state_as_listed <= 125.0)%Q.
Proof.
  destruct (best_after_search_reachable _ _ _ best_after_as_listed)
    as [Hsr Hvalid].
  apply (proj1 (X15_perfect_solutions main_profile order_as_listed
                  main_state_as_listed
                  (Search.search_reachable_reachable _ _ _ _ Hsr) Hvalid)).
  vm_compute. reflexivity.
Defined.

(** ** [print_solution] and [main] of [main.py] *)

(** What [print_solution] reports about a solution. *)
Record Report := {
  order_respected : bool;
  goals_found : nat;
  fillers_respected : bool;
  time_in_ideal_range : bool
}.

(** [print_solution]: the checks behind the printed lines; [None] is the
    [IndexError] that [check_order] can raise. *)
Definition print_solution (p : Main.Profile) (solution : Main.State)
    : option Report :=
  let goal_positions :=
    omap (λ goal, fst <$> list_find (λ e, e = goal) (Main.sequence solution))
         (goals p) in
  order ← Main.check_order p solution;
  Some {| order_respected := order;
          goals_found := length goal_positions;
          fillers_respected := bool_decide (5 ≤ Main.filler_moves solution);
          time_in_ideal_range :=
            Qle_bool 110.0 (Main.total_time solution)
            && Qle_bool (Main.total_time solution) 125.0 |}.

(** How a run of [main] ends. *)
Inductive MainResult :=
  | MissingGoals (missing : list string)
  | NoSolutionFound
  | IndexError (saved : option Main.Output)
  | Played (report : Report) (saved : Main.Output)
      (alternative_reports : list Report)
      (song : string) (moves : list string) (ip port : string).

(** [main], with [sys.argv] as [argv]; [None] only when the fuel of the
    search runs out. *)
Definition main (p : Main.Profile) (so : SetOrder) (argv : list string)
    (fuel : nat) : option MainResult :=
  if bool_decide (missing_goals p = []) then
    r ← Main.find_choreography p so fuel;
    match r.1 with
    | None => Some NoSolutionFound
    | Some best_solution =>
        match print_solution p best_solution with
        | None => Some (IndexError None)
        | Some report =>
            let saved := Main.save_solution p best_solution in
            match mapM (print_solution p) (take (KEEP_TOP_K p) r.2) with
            | None => Some (IndexError (Some saved))
            | Some alternative_reports =>
                match argv !! 1, argv !! 2 with
                | Some ip, Some port =>
                    Some (Played report saved alternative_reports
                            "Drake - One Dance.mp3"
                            (Main.sequence best_solution) ip port)
                | _, _ => Some (IndexError (Some saved))
                end
            end
        end
    end
  else Some (MissingGoals (missing_goals p)).

Lemma print_solution_search_reachable p so s :
  Main.search_reachable p so s → Main.is_valid_solution p s = true →
  ∃ report, print_solution p s = Some report
            ∧ order_respected report = true.
Proof.
  intros Hsr Hvalid. unfold print_solution.
  rewrite (check_order_search_reachable p so s Hsr Hvalid). simpl.
  by eexists.
Qed.

(** X16. What [main] sends to the robot is a valid choreography: when
    [main] gets as far as [do_moves], the moves are the sequence of the
    best solution; they contain the goal list in order, each move is in the
    predecessor list of the next and [START] precedes the first, they are
    at most [MAX_STEPS], every goal has a predecessor entry, the printed
    order check said yes, and the record saved holds the same sequence with
    the rounding of the double that the durations of these moves add up
    to. *)
Theorem X16_main_plays_valid_choreography (p : Main.Profile) (so : SetOrder)
    argv fuel report saved alternative_reports song moves ip port :
  main p so argv fuel
  = Some (Played report saved alternative_reports song moves ip port) →
  goals p `sublist_of` moves
  ∧ precedence_ok p "START" moves = true
  ∧ length moves ≤ MAX_STEPS p
  ∧ (∀ goal, goal ∈ goals p → Dict.contains (predecessors p) goal = true)
  ∧ order_respected report = true
  ∧ Main.out_sequence saved = moves
  ∧ Main.out_total_time saved = round2 (double_total_time p moves)
  ∧ Main.out_goals_completed saved = length (goals p)
  ∧ argv !! 1 = Some ip ∧ argv !! 2 = Some port.
Proof.
  unfold main. case_bool_decide as Hmissing; [|done].
  destruct (Main.find_choreography p so fuel) as [[best alternatives]|]
    eqn:Hrun; [|done].
  simpl. destruct best as [best|]; [|done].
  destruct (main_search_sound p so _ _ _ best Hrun (or_introl eq_refl))
    as [Hsr Hvalid].
  destruct (print_solution_search_reachable p so best Hsr Hvalid)
    as (report' & -> & Horder).
  destruct (mapM _ _) as [reports|]; [|done].
  destruct (argv !! 1) as [ip'|] eqn:Hip; [|done].
  destruct (argv !! 2) as [port'|] eqn:Hport; [|done].
  intros [= <- <- <- <- <- <- <-].
  pose proof (Search.search_reachable_reachable _ _ _ _ Hsr) as Hreach.
  pose proof (main_count_goals p so best Hreach) as Hcount.
  destruct (count_goals_spec p (Main.sequence best)) as (Hle & Hsub & _).
  apply bool_decide_eq_true in Hvalid.
  split_and!; try done.
  - rewrite <- Hcount in Hsub. by rewrite take_ge in Hsub.
  - by apply (main_precedence p so).
  - eapply reachable_length;
      eauto using Main.initial_empty, Main.expand_extends.
  - intros goal Hgoal.
    destruct (Dict.contains (predecessors p) goal) eqn:Hc; [done|].
    assert (goal ∈ missing_goals p) as Hin.
    { apply missing_goals_elem. split; [done|].
      apply eq_None_not_Some. rewrite <- Dict.contains_get. congruence. }
    rewrite Hmissing in Hin. by apply elem_of_nil in Hin.
  - simpl. lia.
Qed.

Lemma X16_witness :
  goals two_goals_profile `sublist_of` ["A"; "B"]
  ∧ precedence_ok two_goals_profile "START" ["A"; "B"] = true.
Proof.
  destruct (X16_main_plays_valid_choreography two_goals_profile
              order_as_listed ["main.py"; "10.0.0.7"; "9559"] 20
              {| order_respected := true; goals_found := 2;
                 fillers_respected := false; time_in_ideal_range := false |}
              (Main.save_solution two_goals_profile two_goals_best) []
              "Drake - One Dance.mp3" ["A"; "B"] "10.0.0.7" "9559")
    as (Hsub & Hprec & _).
  - vm_compute. reflexivity.
  - by split.
Defined.

(** X17. [main] of [main.py] can raise [IndexError] only at [sys.argv]:
    the order checks of [print_solution] run through on the best solution
    and on every alternative, so the exception means that an argument is
    missing, and by then the plan has been saved. *)
Theorem X17_main_index_error_is_argv (p : Main.Profile) (so : SetOrder)
    argv fuel saved :
  main p so argv fuel = Some (IndexError saved) →
  length argv < 3
  ∧ ∃ best alternatives,
      Main.find_choreography p so fuel = Some (Some best, alternatives)
      ∧ saved = Some (Main.save_solution p best).
Proof.
  unfold main. case_bool_decide as Hmissing; [|done].
  destruct (Main.find_choreography p so fuel) as [[best alternatives]|]
    eqn:Hrun; [|done].
  simpl. destruct best as [best|]; [|done].
  destruct (main_search_sound p so _ _ _ best Hrun (or_introl eq_refl))
    as [Hsr Hvalid].
  destruct (print_solution_search_reachable p so best Hsr Hvalid)
    as (report' & -> & _).
  assert (is_Some (mapM (print_solution p)
                     (take (KEEP_TOP_K p) alternatives))) as [reports ->].
  { apply mapM_is_Some, Forall_forall. intros s Hs.
    apply elem_of_take in Hs as (i & Hs%list_elem_of_lookup_2 & _).
    destruct (main_search_sound p so _ _ _ s Hrun (or_intror Hs))
      as [Hsr' Hvalid'].
    destruct (print_solution_search_reachable p so s Hsr' Hvalid')
      as (r & Hr & _).
    simpl. by rewrite Hr. }
  destruct (argv !! 1) as [ip|] eqn:Hip.
  - destruct (argv !! 2) as [port|] eqn:Hport; [done|].
    intros [= <-]. apply lookup_ge_None in Hport.
    split; [lia|]. by exists best, alternatives.
  - intros [= <-]. apply lookup_ge_None in Hip.
    split; [lia|]. by exists best, alternatives.
Qed.

Lemma X17_witness :
  length ["main.py"] < 3
  ∧ ∃ best alternatives,
      Main.find_choreography two_goals_profile order_as_listed 20
      = Some (Some best, alternatives)
      ∧ Some (Main.save_solution two_goals_profile two_goals_best)
        = Some (Main.save_solution two_goals_profile best).
Proof.
  apply (X17_main_index_error_is_argv two_goals_profile order_as_listed
           ["main.py"] 20
           (Some (Main.save_solution two_goals_profile two_goals_best))).
  vm_compute. reflexivity.
Defined.

(** ** The candidate set *)

(** What makes [move] a candidate after [current_move], whatever the order
    in which the catalog is visited. *)
Definition candidate (cfg : Config) (current_move : string)
    (goals_completed : nat) (sequence : list string) (move : string)
    : Prop :=
  ¬ (length (goals cfg) ≤ goals_completed ∧ ALLOW_POST_FILL cfg = false)
  ∧ follows cfg current_move move
  ∧ (goals cfg !! goals_completed = Some move
     ∨ ((move ∉ take goals_completed (goals cfg))
        ∧ repeated cfg sequence move = false)).

Lemma next_moves_over_candidate cfg so entries current_move gc sequence move :
  (∀ e, e ∈ entries ↔ e ∈ Dict.items (predecessors cfg)) →
  move ∈ next_moves_over cfg so entries current_move gc sequence
  ↔ candidate cfg current_move gc sequence move.
Proof.
  intros Hentries. rewrite elem_of_next_moves_over.
  unfold candidate, offered_by_loop, follows.
  rewrite can_follow_true. split.
  - intros [Hgo [[Hgoal Hfol]|(ps & Hin & Hnot & Hcur & Hrep)]];
      (split; [done|]).
    + split; [done|by left].
    + split; [|by right]. exists ps. split; [|done].
      by apply Dict.get_Some_items, Hentries.
  - intros (Hgo & (ps & Hget & Hcur) & [Hgoal|[Hnot Hrep]]);
      (split; [done|]).
    + left. split; [done|]. by exists ps.
    + right. exists ps. split_and!; try done.
      by apply Hentries, Dict.get_Some_items.
Qed.

(** X18. [get_valid_next_moves] offers [move] exactly when it may follow
    the current move and is either the next goal or a move that is no
    completed goal and does not repeat the recent moves (and not at all
    once the goals are complete with [ALLOW_POST_FILL] off).  The set of
    candidates therefore depends neither on the order in which the catalog
    is visited ([main.py] sorts it, [choreography_planner.py] does not) nor
    on the order in which the set is enumerated. *)
Theorem X18_candidates_characterised (so : SetOrder) :
  (∀ (p : Main.Profile) current_move goals_completed sequence move,
     move ∈ Main.get_valid_next_moves p so current_move goals_completed
              sequence
     ↔ candidate p current_move goals_completed sequence move)
  ∧ (∀ (cfg : Config) current_move goals_completed sequence move,
       move ∈ Planner.get_valid_next_moves cfg so current_move
                goals_completed sequence
       ↔ candidate cfg current_move goals_completed sequence move).
Proof.
  split.
  - intros p cur gc sequence move. apply next_moves_over_candidate.
    intros e. apply sorted_elem.
  - intros cfg cur gc sequence move. by apply next_moves_over_candidate.
Qed.

(** ** Priorities along an expansion, in [choreography_planner.py] *)




(** ** The insertion counter *)

Section counters.
Context {St : Type}.
Variables (sequence : St → list string) (goals_completed : St → nat)
          (priority : St → Q).
Variables (initial_state : St) (expand_state : St → list St)
          (is_valid_solution : St → bool).
Variable max_expansions : nat.

Local Abbreviation loop_body :=
  (Search.loop_body sequence goals_completed priority expand_state
     is_valid_solution).

(** The counters of the entries on the frontier. *)
Definition frontier_counters (ls : @Search.LoopState St) : list nat :=
  (λ e : Search.entry, e.1.2) <$> Search.pq ls.

(** Every entry carries a counter of its own, below the next one to give. *)
Definition counters_inv (ls : @Search.LoopState St) : Prop :=
  NoDup (frontier_counters ls)
  ∧ ∀ c, c ∈ frontier_counters ls → c < Search.counter ls.

Lemma push_all_counters states pq0 c :
  (λ e : Search.entry, e.1.2) <$> (Search.push_all priority states pq0 c).1
  = ((λ e : Search.entry, e.1.2) <$> pq0) ++ seq c (length states)
  ∧ (Search.push_all priority states pq0 c).2 = c + length states.
Proof.
  unfold Search.push_all. revert pq0 c.
  induction states as [|s states IH]; intros pq0 c; simpl.
  - rewrite app_nil_r. split; [done|lia].
  - destruct (IH (Search.heappush pq0 (priority s, c, s)) (S c))
      as [-> ->].
    unfold Search.heappush. rewrite fmap_app. simpl.
    rewrite <- app_assoc. split; [done|lia].
Qed.

Lemma counters_inv_initial :
  counters_inv (Search.initial_loop_state priority initial_state).
Proof.
  split.
  - apply NoDup_singleton.
  - intros c Hc. unfold frontier_counters in Hc. simpl in Hc.
    apply list_elem_of_singleton in Hc as ->. simpl. lia.
Qed.

Lemma counters_inv_body ls : counters_inv ls → counters_inv (loop_body ls).
Proof.
  intros [Hnd Hlt]. unfold Search.loop_body.
  destruct (Search.heappop priority (Search.pq ls))
    as [[[[prio c] cur] pq']|] eqn:Hpop; [|done].
  apply Search.heappop_Some in Hpop.
  assert (frontier_counters ls
          ≡ₚ c :: ((λ e : Search.entry, e.1.2) <$> pq')) as Hperm.
  { unfold frontier_counters. by rewrite Hpop. }
  rewrite Hperm in Hnd. apply NoDup_cons in Hnd as [_ Hnd].
  assert (∀ x, x ∈ (λ e : Search.entry, e.1.2) <$> pq' →
            x < Search.counter ls) as Hlt'.
  { intros x Hx. apply Hlt. rewrite Hperm. by right. }
  case_bool_decide; [done|].
  destruct (is_valid_solution cur); [done|].
  unfold counters_inv, frontier_counters. simpl.
  destruct (push_all_counters (expand_state cur) pq' (Search.counter ls))
    as [-> ->].
  split.
  - apply NoDup_app. split_and!; [done| |apply NoDup_seq].
    intros x Hx%Hlt' Hseq%elem_of_seq. lia.
  - intros x [Hx%Hlt'|Hseq%elem_of_seq]%elem_of_app; lia.
Qed.

(** Two entries of the frontier never carry the same counter, so their
    comparison is settled by the priority and the counter. *)
Lemma frontier_entries_compared k ls i j a b :
  run_steps sequence goals_completed priority expand_state
    is_valid_solution max_expansions k
    (Search.initial_loop_state priority initial_state) = Some ls →
  Search.pq ls !! i = Some a → Search.pq ls !! j = Some b → i ≠ j →
  a.1.2 ≠ b.1.2
  ∧ Search.entry_ltb priority a b
    = if Qeq_bool a.1.1 b.1.1 then a.1.2 <? b.1.2
      else Qltb a.1.1 b.1.1.
Proof.
  intros Hsteps Ha Hb Hij.
  assert (counters_inv ls) as [Hnd _].
  { revert Hsteps. generalize counters_inv_initial.
    generalize (Search.initial_loop_state priority initial_state).
    induction k as [|k IH]; intros ls0 Hinv; simpl.
    - by intros [= <-].
    - destruct (Search.loop_cond max_expansions ls0); [|done].
      apply IH. by apply counters_inv_body. }
  assert (a.1.2 ≠ b.1.2) as Hne.
  { assert (frontier_counters ls !! i = Some a.1.2) as Hi.
    { unfold frontier_counters. rewrite list_lookup_fmap.
      exact (f_equal (fmap (λ e : Search.entry, e.1.2)) Ha). }
    assert (frontier_counters ls !! j = Some b.1.2) as Hj.
    { unfold frontier_counters. rewrite list_lookup_fmap.
      exact (f_equal (fmap (λ e : Search.entry, e.1.2)) Hb). }
    intros Heq. rewrite <- Heq in Hj. apply Hij.
    by eapply NoDup_lookup. }
  split; [done|].
  destruct a as [[pa ca] sa], b as [[pb cb] sb]. simpl in *.
  destruct (Qeq_bool pa pb); simpl; [|done].
  by rewrite (proj2 (Nat.eqb_neq ca cb) Hne).
Qed.
End counters.

(** X20. The insertion counter does what its comment says: at every
    iteration of the loop of [find_choreography] no two entries of the
    frontier carry the same counter, so the comparison of two heap entries
    is settled by the priority and, on equal priorities, by the counter,
    and never falls through to comparing the states. *)
Theorem X20_counter_settles_ties (p : Main.Profile) (so : SetOrder)
    k ls i j a b :
  main_loop_state p so k = Some ls →
  Search.pq ls !! i = Some a → Search.pq ls !! j = Some b → i ≠ j →
  a.1.2 ≠ b.1.2
  ∧ Search.entry_ltb Main.priority a b
    = if Qeq_bool a.1.1 b.1.1 then a.1.2 <? b.1.2
      else Qltb a.1.1 b.1.1.
Proof. apply frontier_entries_compared. Qed.

(** The loop state after the first iteration over [tie_profile]: the
    frontier holds [[B]] and [[C]]. *)
Definition tie_after_first : Search.LoopState :=
  Main.loop_body tie_profile order_as_listed
    (Main.initial_loop_state tie_profile).

Lemma X20_witness :
  ∃ a b : Search.entry,
    Search.pq tie_after_first !! 0 = Some a
    ∧ Search.pq tie_after_first !! 1 = Some b
    ∧ a.1.2 ≠ b.1.2.
Proof.
  destruct (Search.pq tie_after_first !! 0) as [a|] eqn:Ha;
    [|by vm_compute in Ha].
  destruct (Search.pq tie_after_first !! 1) as [b|] eqn:Hb;
    [|by vm_compute in Hb].
  exists a, b. split_and!; [done..|].
  apply (X20_counter_settles_ties tie_profile order_as_listed 1
           tie_after_first 0 1 a b); [|done|done|lia].
  vm_compute. reflexivity.
Defined.

(** ** Which solution is the best one *)

(** The best solution is the earliest of the solutions of least priority. *)
Lemma best_of_first {St : Type} (priority : St → Q) (l : list St) b :
  best_of priority l = Some b →
  ∃ i, l !! i = Some b
    ∧ (∀ j s, l !! j = Some s → j < i → (priority b < priority s)%Q)
    ∧ (∀ j s, l !! j = Some s → (priority b <= priority s)%Q).
Proof.
  revert b. induction l as [|x l IH] using rev_ind; intros b; [done|].
  rewrite best_of_snoc. destruct (best_of priority l) as [b0|] eqn:Hb0; simpl.
  - destruct (IH b0 eq_refl) as (i0 & Hi0 & Hbefore & Hleast).
    pose proof (lookup_lt_Some _ _ _ Hi0) as Hlt0.
    destruct (Qltb (priority x) (priority b0)) eqn:Hlt; intros [= <-].
    + apply Qltb_lt in Hlt. exists (length l). split_and!.
      * by rewrite lookup_app_r, Nat.sub_diag by lia.
      * intros j s Hj Hjl. rewrite lookup_app_l in Hj by done.
        specialize (Hleast j s Hj). lra.
      * intros j s [Hj|[_ [_ <-]%list_lookup_singleton_Some]]%lookup_app_Some;
          [|lra].
        specialize (Hleast j s Hj). lra.
    + apply Qltb_ge in Hlt. exists i0. split_and!.
      * by rewrite lookup_app_l.
      * intros j s Hj Hji. rewrite lookup_app_l in Hj by lia. by eapply Hbefore.
      * intros j s [Hj|[_ [_ <-]%list_lookup_singleton_Some]]%lookup_app_Some;
          [by eapply Hleast|done].
  - apply best_of_None in Hb0 as ->. intros [= <-]. exists 0. split_and!.
    + done.
    + intros j s _ Hj. lia.
    + intros j s [Hj|[_ [_ <-]%list_lookup_singleton_Some]]%lookup_app_Some;
        [done|lra].
Qed.

(** X21. When the loop of [find_choreography] stops, the best solution is
    the earliest found among the collected solutions of least priority:
    every solution collected before it has a strictly higher priority, none
    has a lower one, and there is no best solution only when no solution
    was collected. *)
Theorem X21_best_is_first_of_least (p : Main.Profile) (so : SetOrder)
    fuel ls :
  Main.while_loop p so fuel (Main.initial_loop_state p) = Some ls →
  (Search.best_solution ls = None → Search.all_solutions ls = [])
  ∧ ∀ b, Search.best_solution ls = Some b →
      ∃ i, Search.all_solutions ls !! i = Some b
        ∧ (∀ j s, Search.all_solutions ls !! j = Some s → j < i →
             (Main.priority b < Main.priority s)%Q)
        ∧ (∀ j s, Search.all_solutions ls !! j = Some s →
             (Main.priority b <= Main.priority s)%Q).
Proof.
  intros Hrun.
  unfold Main.while_loop, Main.initial_loop_state in Hrun.
  apply while_loop_result_inv in Hrun as [_ Hbest];
    [|apply result_inv_initial].
  rewrite Hbest. split; [apply best_of_None|apply best_of_first].
Qed.

Lemma X21_witness :
  ∃ ls,
    Main.while_loop tie_profile order_as_listed 20
      (Main.initial_loop_state tie_profile) = Some ls
    ∧ (Search.best_solution ls = None → Search.all_solutions ls = []).
Proof.
  destruct (Main.while_loop tie_profile order_as_listed 20
              (Main.initial_loop_state tie_profile)) as [ls|] eqn:Hrun;
    [|by vm_compute in Hrun].
  exists ls. split; [done|].
  exact (proj1 (X21_best_is_first_of_least tie_profile order_as_listed 20
                  ls Hrun)).
Defined.

(** ** The solutions collected are different choreographies *)

Section distinct_solutions.
Context {St : Type}.
Variables (sequence : St → list string) (goals_completed : St → nat)
          (priority : St → Q).
Variables (initial_state : St) (expand_state : St → list St)
          (is_valid_solution : St → bool).
Variables (max_expansions keep_top_k : nat).

Hypothesis initial_sequence : sequence initial_state = [].
Hypothesis expand_appends :
  ∀ s s', s' ∈ expand_state s → ∃ move, sequence s' = sequence s ++ [move].
Hypothesis expand_distinct : ∀ s, NoDup (sequence <$> expand_state s).

Local Abbreviation loop_body :=
  (Search.loop_body sequence goals_completed priority expand_state
     is_valid_solution).
Local Abbreviation while_loop :=
  (Search.while_loop sequence goals_completed priority expand_state
     is_valid_solution max_expansions).

(** Every collected solution was marked as visited, and no two of them
    carry the same sequence. *)
Definition distinct_inv (ls : @Search.LoopState St) : Prop :=
  fresh_inv sequence ls
  ∧ NoDup (sequence <$> Search.all_solutions ls)
  ∧ ∀ q, q ∈ sequence <$> Search.all_solutions ls →
         q ∈ visited_sequences ls.

Lemma distinct_inv_initial :
  distinct_inv (Search.initial_loop_state priority initial_state).
Proof.
  split_and!.
  - by apply fresh_inv_initial.
  - constructor.
  - by intros q []%elem_of_nil.
Qed.

Lemma distinct_inv_body ls : distinct_inv ls → distinct_inv (loop_body ls).
Proof.
  intros (Hfresh & Hnd & Hvis). split.
  { by apply fresh_inv_body. }
  destruct Hfresh as (_ & Hfresh & _). unfold Search.loop_body.
  destruct (Search.heappop priority (Search.pq ls))
    as [[[[prio c] cur] pq']|] eqn:Hpop; [|done].
  apply Search.heappop_Some in Hpop.
  assert (sequence cur ∉ visited_sequences ls) as Hcur.
  { apply Hfresh. unfold frontier_sequences. rewrite Hpop. left. }
  case_bool_decide as Hvisited; [done|].
  destruct (is_valid_solution cur); unfold visited_sequences; simpl.
  - rewrite fmap_app. simpl. split.
    + apply NoDup_app. split_and!; [done| |apply NoDup_singleton].
      intros q Hq ->%list_elem_of_singleton. by apply Hcur, Hvis.
    + intros q [Hq| ->%list_elem_of_singleton]%elem_of_app; [|left].
      right. by apply Hvis.
  - split; [done|]. intros q Hq. right. by apply Hvis.
Qed.

Lemma while_loop_distinct fuel ls ls' :
  while_loop fuel ls = Some ls' → distinct_inv ls → distinct_inv ls'.
Proof.
  revert ls. induction fuel as [|fuel IH]; intros ls; simpl;
    destruct (Search.loop_cond max_expansions ls) eqn:Hcond; try done;
    try (by intros [= <-]).
  intros Hrun Hinv. eapply IH; [done|]. by apply distinct_inv_body.
Qed.

(** The alternatives handed back are a sublist of a reordering of the
    collected solutions, so they are pairwise different too. *)
Lemma find_choreography_distinct fuel best alternatives :
  Search.find_choreography sequence goals_completed priority initial_state
    expand_state is_valid_solution max_expansions keep_top_k fuel
  = Some (best, alternatives) →
  NoDup (sequence <$> alternatives).
Proof.
  unfold Search.find_choreography.
  destruct (Search.while_loop _ _ _ _ _ _ fuel _) as [ls|] eqn:Hrun; [|done].
  apply while_loop_distinct in Hrun as (_ & Hnd & _);
    [|apply distinct_inv_initial].
  unfold Search.search_result. intros [= <- <-].
  case_bool_decide; [|constructor].
  rewrite fmap_take.
  eapply sublist_NoDup; [|apply sublist_take].
  by rewrite Search.sort_by_priority_perm.
Qed.
End distinct_solutions.

(** X22. No choreography is collected twice: when the loop of
    [find_choreography] stops, the solutions in [all_solutions] carry
    pairwise different sequences, and so do the alternatives the function
    returns.  Proved for [main.py] and for [choreography_planner.py]. *)
Theorem X22_solutions_are_distinct (so : SetOrder) :
  (∀ (p : Main.Profile) fuel best alternatives,
     Main.find_choreography p so fuel = Some (best, alternatives) →
     NoDup (Main.sequence <$> alternatives))
  ∧ (∀ (cfg : Config) fuel best alternatives,
       Planner.find_choreography cfg so fuel = Some (best, alternatives) →
       NoDup (Planner.sequence <$> alternatives)).
Proof.
  split.
  - intros p fuel best alternatives.
    apply find_choreography_distinct;
      [done|apply main_expand_appends|apply main_expand_distinct].
  - intros cfg fuel best alternatives.
    apply find_choreography_distinct;
      [done|apply planner_expand_appends|apply planner_expand_distinct].
Qed.

Lemma X22_witness :
  ∃ best alternatives,
    Main.find_choreography tie_profile order_as_listed 20
    = Some (best, alternatives)
    ∧ NoDup (Main.sequence <$> alternatives).
Proof.
  destruct (Main.find_choreography tie_profile order_as_listed 20)
    as [[best alternatives]|] eqn:Hrun; [|by vm_compute in Hrun].
  exists best, alternatives. split; [done|].
  exact (proj1 (X22_solutions_are_distinct order_as_listed)
           tie_profile 20 best alternatives Hrun).
Defined.

(** ** The order check of [print_solution] in [choreography_planner.py]

[print_solution] looks every goal up in the sequence with [list.index],
keeps the positions found and reports the order as respected when no goal
is missing and the positions are already in ascending order. *)

Module PlannerOutput.

(** [solution.sequence.index(goal)]: the first position of [goal], [None]
    where Python raises [ValueError]. *)
Definition index (sequence : list string) (goal : string) : option nat :=
  fst <$> list_find (λ e, e = goal) sequence.

(** One round of [for i, goal in enumerate(goals)]: the position is
    appended, or the goal is printed as missing. *)
Definition look_up (sequence : list string)
    (acc : list nat * list string) (goal : string)
    : list nat * list string :=
  match index sequence goal with
  | Some pos => (acc.1 ++ [pos], acc.2)
  | None => (acc.1, acc.2 ++ [goal])
  end.

Record Report := {
  goal_positions : list nat;
  missing : list string;
  order_respected : bool
}.

(** The part of [print_solution] that checks the order; [sorted] on
    integers is the ascending sort. *)
Definition print_solution (cfg : Config) (solution : Planner.State)
    : Report :=
  let found := fold_left (look_up (Planner.sequence solution))
                         (goals cfg) ([], []) in
  {| goal_positions := found.1;
     missing := found.2;
     order_respected :=
       bool_decide (length found.1 = length (goals cfg))
       && bool_decide (found.1 = merge_sort Nat.le found.1) |}.

(** The first positions ascend along the goal list. *)
Definition positions_ascend (cfg : Config) (sequence : list string) : Prop :=
  ∀ i j gi gj pi pj,
    i < j → goals cfg !! i = Some gi → goals cfg !! j = Some gj →
    index sequence gi = Some pi → index sequence gj = Some pj → pi ≤ pj.

(** The record [save_solution] writes out. *)
Record Output := {
  out_total_time : Float64.float;
  out_sequence : list string;
  out_goals_completed : nat;
  out_target_time : Float64.float;
  out_time_difference : Float64.float
}.

(** [save_solution]: the record handed to [json.dump].  The two rounded
    fields are computed on the double [solution.total_time]. *)
Definition save_solution (cfg : Config) (solution : Planner.State)
    : Output :=
  let total_time := double_total_time cfg (Planner.sequence solution) in
  let target_time := Float64.of_Q (TARGET_TIME cfg) in
  {| out_total_time := round2 total_time;
     out_sequence := Planner.sequence solution;
     out_goals_completed := Planner.goals_completed solution;
     out_target_time := target_time;
     out_time_difference :=
       round2 (Float64.abs (Float64.sub total_time target_time)) |}.

(** How a run of [main] ends. *)
Inductive Result :=
  | MissingGoals (missing_goals : list string)
  | NoSolutionFound
  | Completed (report : Report) (saved : Output)
      (alternative_reports : list Report).

(** [main]; [None] only when the fuel of the search runs out. *)
Definition main (cfg : Config) (so : SetOrder) (fuel : nat)
    : option Result :=
  if bool_decide (missing_goals cfg = []) then
    r ← Planner.find_choreography cfg so fuel;
    match r.1 with
    | None => Some NoSolutionFound
    | Some best_solution =>
        Some (Completed (print_solution cfg best_solution)
                (save_solution cfg best_solution)
                (print_solution cfg <$> take (KEEP_TOP_K cfg) r.2))
    end
  else Some (MissingGoals (missing_goals cfg)).
End PlannerOutput.

Lemma index_Some sequence goal pos :
  PlannerOutput.index sequence goal = Some pos
  ↔ sequence !! pos = Some goal ∧ goal ∉ take pos sequence.
Proof.
  unfold PlannerOutput.index. split.
  - destruct (list_find _ sequence) as [[i x]|] eqn:Hfind; [|done].
    intros [= <-]. apply list_find_Some in Hfind as (Hi & -> & Hfirst).
    split; [done|]. intros (j & Hj)%list_elem_of_lookup_1.
    apply lookup_take_Some in Hj as [Hj Hlt]. by apply (Hfirst j goal).
  - intros [Hpos Hfirst].
    assert (list_find (λ e, e = goal) sequence = Some (pos, goal)) as ->;
      [|done].
    apply list_find_Some. split_and!; [done..|].
    intros j y Hj Hlt ->. apply Hfirst.
    apply (list_elem_of_lookup_2 _ j). by rewrite lookup_take_lt.
Qed.

Lemma index_None sequence goal :
  PlannerOutput.index sequence goal = None ↔ goal ∉ sequence.
Proof.
  unfold PlannerOutput.index. rewrite fmap_None, list_find_None, Forall_forall.
  split.
  - intros Hall Hin. by apply (Hall goal).
  - intros Hnin x Hx ->. done.
Qed.

Lemma index_is_Some sequence goal :
  goal ∈ sequence → is_Some (PlannerOutput.index sequence goal).
Proof.
  intros Hin. destruct (PlannerOutput.index sequence goal) eqn:Hidx; [done|].
  by apply index_None in Hidx.
Qed.

(** The loop of [print_solution], as two passes over the goal list. *)
Lemma look_up_fold sequence goals acc :
  fold_left (PlannerOutput.look_up sequence) goals acc
  = (acc.1 ++ omap (PlannerOutput.index sequence) goals,
     acc.2 ++ filter (λ goal, goal ∉ sequence) goals).
Proof.
  revert acc. induction goals as [|goal goals IH]; intros [ps ms]; csimpl.
  - by rewrite !app_nil_r.
  - rewrite IH. unfold PlannerOutput.look_up. csimpl.
    destruct (PlannerOutput.index sequence goal) as [pos|] eqn:Hidx; csimpl.
    + rewrite <- app_assoc. csimpl. rewrite filter_cons_False; [done|].
      intros Hnin. apply index_None in Hnin. congruence.
    + apply index_None in Hidx. rewrite filter_cons_True by done.
      by rewrite <- app_assoc.
Qed.

Lemma length_omap_le {A B} (f : A → option B) l :
  length (omap f l) ≤ length l.
Proof.
  induction l as [|x l IH]; csimpl; [done|]. destruct (f x); csimpl; lia.
Qed.

Lemma omap_full {A B} (f : A → option B) l :
  length (omap f l) = length l ↔ Forall2 (λ x y, f x = Some y) l (omap f l).
Proof.
  split; [|by intros ?%Forall2_length].
  induction l as [|x l IH]; csimpl; [constructor|].
  pose proof (length_omap_le f l).
  destruct (f x) eqn:Hfx; csimpl; [|lia].
  intros [= Hlen]. constructor; [done|]. by apply IH.
Qed.

Lemma ascending_fixpoint (l : list nat) :
  l = merge_sort Nat.le l ↔ StronglySorted Nat.le l.
Proof.
  split.
  - intros Heq. rewrite Heq. apply (StronglySorted_merge_sort _).
  - intros Hsorted. apply (StronglySorted_unique Nat.le); [done| |].
    + apply (StronglySorted_merge_sort _).
    + by rewrite merge_sort_Permutation.
Qed.

Lemma StronglySorted_lookup {A} (R : relation A) (l : list A) :
  StronglySorted R l
  ↔ ∀ i j x y, i < j → l !! i = Some x → l !! j = Some y → R x y.
Proof.
  split.
  - induction 1 as [|x l _ IH Hall]; intros i j a b Hlt Hi Hj; [done|].
    destruct j as [|j]; [lia|]. simpl in Hj. destruct i as [|i]; simpl in Hi.
    + injection Hi as <-. rewrite Forall_forall in Hall.
      by eapply Hall, list_elem_of_lookup_2.
    + apply (IH i j); [lia|done..].
  - induction l as [|x l IH]; intros Hall; constructor.
    + apply IH. intros i j a b Hlt Hi Hj. by apply (Hall (S i) (S j)); [lia|..].
    + apply Forall_forall. intros y (j & Hj)%list_elem_of_lookup_1.
      by apply (Hall 0 (S j)); [lia|..].
Qed.

(** What the verdict of [print_solution] says about the sequence. *)
Lemma order_respected_spec cfg solution :
  PlannerOutput.order_respected (PlannerOutput.print_solution cfg solution)
  = true
  ↔ (∀ goal, goal ∈ goals cfg → goal ∈ Planner.sequence solution)
    ∧ PlannerOutput.positions_ascend cfg (Planner.sequence solution).
Proof.
  unfold PlannerOutput.print_solution, PlannerOutput.positions_ascend. simpl.
  rewrite look_up_fold. simpl.
  rewrite andb_true_iff, !bool_decide_eq_true, ascending_fixpoint, omap_full.
  set (sequence := Planner.sequence solution).
  set (ps := omap (PlannerOutput.index sequence) (goals cfg)).
  rewrite StronglySorted_lookup. split.
  - intros [Hall Hsorted]. split.
    + intros goal (i & Hi)%list_elem_of_lookup_1.
      destruct (Forall2_lookup_l _ _ _ _ _ Hall Hi) as (pos & _ & Hpos).
      apply index_Some in Hpos as [Hpos _].
      by eapply list_elem_of_lookup_2.
    + intros i j gi gj pi pj Hlt Hi Hj Hpi Hpj.
      destruct (Forall2_lookup_l _ _ _ _ _ Hall Hi) as (pi' & Hi' & Hpi').
      destruct (Forall2_lookup_l _ _ _ _ _ Hall Hj) as (pj' & Hj' & Hpj').
      assert (pi' = pi) as -> by congruence.
      assert (pj' = pj) as -> by congruence.
      by apply (Hsorted i j).
  - intros [Hfound Hascend].
    assert (Forall2 (λ x y, PlannerOutput.index sequence x = Some y)
              (goals cfg) ps) as Hall.
    { apply omap_full. subst ps.
      assert (∀ l : list string, (∀ goal, goal ∈ l → goal ∈ sequence) →
                length (omap (PlannerOutput.index sequence) l) = length l)
        as Hlen.
      { induction l as [|goal l IH]; intros Hl; csimpl; [done|].
        destruct (index_is_Some sequence goal) as [pos ->]; [apply Hl; left|].
        csimpl. f_equal. apply IH. intros g Hg. apply Hl. by right. }
      by apply Hlen. }
    split; [done|]. intros i j pi pj Hlt Hi Hj.
    destruct (Forall2_lookup_r _ _ _ _ _ Hall Hi) as (gi & Hgi & Hpi).
    destruct (Forall2_lookup_r _ _ _ _ _ Hall Hj) as (gj & Hgj & Hpj).
    by apply (Hascend i j gi gj).
Qed.

(** Goals found at ascending first positions, all different, are found in
    order. *)
Lemma ascending_goals_sublist sequence (gs : list string) k :
  NoDup gs →
  (∀ g, g ∈ gs → ∃ pos, PlannerOutput.index sequence g = Some pos ∧ k ≤ pos) →
  (∀ i j gi gj pi pj,
     i < j → gs !! i = Some gi → gs !! j = Some gj →
     PlannerOutput.index sequence gi = Some pi →
     PlannerOutput.index sequence gj = Some pj → pi ≤ pj) →
  gs `sublist_of` drop k sequence.
Proof.
  revert k. induction gs as [|g gs IH]; intros k Hnd Hfound Hascend.
  { apply sublist_nil_l. }
  apply NoDup_cons in Hnd as [Hg Hnd].
  destruct (Hfound g) as (pos & Hidx & Hle); [left|].
  pose proof Hidx as [Hpos _]%index_Some.
  assert (drop pos sequence `sublist_of` drop k sequence) as Hdrop.
  { replace pos with (k + (pos - k)) by lia. rewrite <- drop_drop.
    apply sublist_drop. }
  etrans; [|exact Hdrop]. rewrite (drop_S _ _ _ Hpos).
  apply sublist_skip, IH; [done| |].
  - intros g' Hg'. destruct (Hfound g') as (pos' & Hidx' & _); [by right|].
    exists pos'. split; [done|].
    pose proof Hg' as (j & Hj)%list_elem_of_lookup_1.
    assert (pos ≤ pos') by (by apply (Hascend 0 (S j) g g'); [lia|..]).
    apply index_Some in Hidx' as [Hpos' _].
    assert (pos ≠ pos') by (intros <-; congruence). lia.
  - intros i j gi gj pi pj Hlt Hi Hj. by apply (Hascend (S i) (S j)); [lia|..].
Qed.

(** X23. The order check of [print_solution] in [choreography_planner.py]
    is sound when no goal is listed twice: a sequence it reports as
    respecting the order contains the goal list as a subsequence, and the
    search's own counter, run over that sequence, completes every goal. *)
Theorem X23_planner_order_check_sound (cfg : Config)
    (solution : Planner.State) :
  NoDup (goals cfg) →
  PlannerOutput.order_respected (PlannerOutput.print_solution cfg solution)
  = true →
  goals cfg `sublist_of` Planner.sequence solution
  ∧ count_goals cfg 0 (Planner.sequence solution) = length (goals cfg).
Proof.
  intros Hnd [Hfound Hascend]%order_respected_spec.
  assert (goals cfg `sublist_of` Planner.sequence solution) as Hsub.
  { change (Planner.sequence solution)
      with (drop 0 (Planner.sequence solution)).
    apply ascending_goals_sublist; [done| |done].
    intros g Hg. destruct (index_is_Some _ _ (Hfound g Hg)) as [pos Hpos].
    exists pos. split; [done|lia]. }
  split; [done|].
  destruct (count_goals_spec cfg (Planner.sequence solution))
    as (Hle & _ & Hlongest).
  specialize (Hlongest (length (goals cfg))).
  rewrite firstn_all in Hlongest. specialize (Hlongest (le_n _) Hsub). lia.
Qed.

Lemma X23_witness :
  goals two_goals_config
    `sublist_of` Planner.sequence
                   (Planner.new_State two_goals_config ["A"; "B"] 2 5%Q)
  ∧ count_goals two_goals_config 0
      (Planner.sequence (Planner.new_State two_goals_config ["A"; "B"] 2 5%Q))
    = length (goals two_goals_config).
Proof.
  apply (X23_planner_order_check_sound two_goals_config
           (Planner.new_State two_goals_config ["A"; "B"] 2 5%Q)).
  - apply (bool_decide_unpack _). vm_compute. exact I.
  - vm_compute. reflexivity.
Defined.

(** A configuration in which the first goal cannot open the sequence: [B]
    is the only move that follows [START], and [A] follows [B]. *)
Definition early_goal_config : Config :=
  {| goals := ["A"; "B"];
     predecessors := Dict.make [("A", ["B"]); ("B", ["START"; "A"])] eq_refl;
     durations := Dict.make [("A", 2%Q); ("B", 3%Q)] eq_refl;
     TARGET_TIME := 120.0%Q;
     DEFAULT_DURATION := 3.0%Q;
     MAX_EXPANSIONS := 100;
     MAX_STEPS := 50;
     MAX_CONSECUTIVE_REPEATS := 3;
     ALLOW_POST_FILL := true;
     KEEP_TOP_K := 5 |}.

Definition early_goal_best : Planner.State :=
  Planner.new_State early_goal_config ["B"; "A"; "B"] 2 (0 + 3 + 2 + 3)%Q.

Lemma early_goal_search :
  Planner.find_choreography early_goal_config order_as_listed 20
  = Some (Some early_goal_best, []).
Proof. vm_compute. reflexivity. Qed.

Lemma planner_solution_goals cfg so fuel best alternatives s :
  Planner.find_choreography cfg so fuel = Some (best, alternatives) →
  best = Some s ∨ s ∈ alternatives →
  goals cfg `sublist_of` Planner.sequence s.
Proof.
  intros Hrun Hs.
  destruct (planner_search_sound cfg so _ _ _ _ Hrun Hs) as [Hsr Hvalid].
  rewrite planner_valid_solution_spec in Hvalid.
  apply bool_decide_eq_true in Hvalid.
  apply Search.search_reachable_reachable, (planner_count_goals cfg so) in Hsr.
  pose proof (count_goals_spec cfg (Planner.sequence s)) as (Hle & Hsub & _).
  rewrite <- Hsr in Hle, Hsub. by rewrite take_ge in Hsub.
Qed.

(** Nothing is missing from a sequence that holds every goal. *)
Lemma print_solution_nothing_missing cfg s :
  (∀ goal, goal ∈ goals cfg → goal ∈ Planner.sequence s) →
  PlannerOutput.missing (PlannerOutput.print_solution cfg s) = []
  ∧ length (PlannerOutput.goal_positions (PlannerOutput.print_solution cfg s))
    = length (goals cfg).
Proof.
  intros Hfound. unfold PlannerOutput.print_solution. simpl.
  rewrite look_up_fold. simpl. split.
  - destruct (filter _ (goals cfg)) as [|g rest] eqn:Hfilter; [done|].
    assert (g ∈ filter (λ goal, goal ∉ Planner.sequence s) (goals cfg))
      as [Hnin Hg]%list_elem_of_filter by (rewrite Hfilter; left).
    destruct Hnin. by apply Hfound.
  - assert (∀ l : list string,
              (∀ goal, goal ∈ l → goal ∈ Planner.sequence s) →
              length (omap (PlannerOutput.index (Planner.sequence s)) l)
              = length l) as Hlen.
    { induction l as [|goal l IH]; intros Hl; csimpl; [done|].
      destruct (index_is_Some (Planner.sequence s) goal) as [pos ->];
        [apply Hl; left|].
      csimpl. f_equal. apply IH. intros g Hg. apply Hl. by right. }
    by apply Hlen.
Qed.

(** X24. For a solution that [find_choreography] of
    [choreography_planner.py] returns, [print_solution] never prints a
    missing goal, so its verdict rests on the positions alone: the order is
    reported as respected exactly when the first occurrences of the goals
    ascend along the goal list.  A solution in which a later goal already
    occurs before the first occurrence of an earlier one is therefore
    reported as not respecting the order, although the search counted all
    its goals. *)
Theorem X24_planner_order_check_on_solutions (cfg : Config) (so : SetOrder)
    fuel best alternatives s :
  Planner.find_choreography cfg so fuel = Some (best, alternatives) →
  best = Some s ∨ s ∈ alternatives →
  let report := PlannerOutput.print_solution cfg s in
  Planner.goals_completed s = length (goals cfg)
  ∧ PlannerOutput.missing report = []
  ∧ length (PlannerOutput.goal_positions report) = length (goals cfg)
  ∧ (PlannerOutput.order_respected report = true
     ↔ PlannerOutput.positions_ascend cfg (Planner.sequence s))
  ∧ ∀ i j gi gj k,
      i < j → goals cfg !! i = Some gi → goals cfg !! j = Some gj →
      Planner.sequence s !! k = Some gj →
      gi ∉ take (S k) (Planner.sequence s) →
      PlannerOutput.order_respected report = false.
Proof.
  intros Hrun Hs report.
  pose proof (planner_solution_goals _ _ _ _ _ _ Hrun Hs) as Hsub.
  assert (∀ goal, goal ∈ goals cfg → goal ∈ Planner.sequence s) as Hfound.
  { intros goal Hgoal. by eapply elem_of_sublist. }
  assert (PlannerOutput.order_respected report = true
          ↔ PlannerOutput.positions_ascend cfg (Planner.sequence s)) as Hspec.
  { subst report. rewrite order_respected_spec. tauto. }
  split_and!.
  - destruct (planner_search_sound cfg so _ _ _ _ Hrun Hs) as [Hsr Hvalid].
    rewrite planner_valid_solution_spec in Hvalid.
    apply bool_decide_eq_true in Hvalid.
    apply Search.search_reachable_reachable, (planner_count_goals cfg so)
      in Hsr.
    pose proof (count_goals_spec cfg (Planner.sequence s)) as (Hle & _).
    lia.
  - by apply print_solution_nothing_missing.
  - by apply print_solution_nothing_missing.
  - done.
  - intros i j gi gj k Hlt Hi Hj Hk Hearly.
    destruct (PlannerOutput.order_respected report) eqn:Hverdict; [|done].
    pose proof (proj1 Hspec eq_refl) as Hascend.
    destruct (index_is_Some (Planner.sequence s) gi) as [pi Hpi].
    { by eapply Hfound, list_elem_of_lookup_2. }
    destruct (index_is_Some (Planner.sequence s) gj) as [pj Hpj].
    { by eapply Hfound, list_elem_of_lookup_2. }
    pose proof (Hascend i j gi gj pi pj Hlt Hi Hj Hpi Hpj) as Hle.
    apply index_Some in Hpi as [Hpi _]. apply index_Some in Hpj as [_ Hpj].
    destruct (decide (k < pj)) as [Hkpj|Hkpj].
    { destruct Hpj. apply (list_elem_of_lookup_2 _ k).
      by rewrite lookup_take_lt. }
    destruct Hearly. apply (list_elem_of_lookup_2 _ pi).
    rewrite lookup_take_lt by lia. done.
Qed.

Lemma X24_witness :
  PlannerOutput.order_respected
    (PlannerOutput.print_solution early_goal_config early_goal_best)
  = false.
Proof.
  destruct (X24_planner_order_check_on_solutions early_goal_config
              order_as_listed 20 (Some early_goal_best) [] early_goal_best
              early_goal_search (or_introl eq_refl))
    as (_ & _ & _ & _ & Hrefused).
  apply (Hrefused 0 1 "A" "B" 0).
  - lia.
  - reflexivity.
  - reflexivity.
  - reflexivity.
  - apply (bool_decide_unpack _). vm_compute. exact I.
Defined.

(** ** [main] of [choreography_planner.py] *)

Lemma planner_precedence cfg so s :
  Planner.reachable cfg so s →
  precedence_ok cfg "START" (Planner.sequence s) = true.
Proof.
  eapply reachable_precedence with (entries := Dict.items (predecessors cfg));
    eauto using Planner.planner_initial_empty, Planner.planner_expand_extends.
Qed.

(** X25. What [main] of [choreography_planner.py] writes out is a valid
    choreography: when the run ends with a saved plan, every goal has a
    predecessor entry, the saved sequence contains the goal list in order
    with all goals counted, each move is in the predecessor list of the
    next and [START] precedes the first, the moves are at most
    [MAX_STEPS], the saved total time is the rounding of the double that
    the durations of these moves add up to, and the saved difference the
    rounding of its distance from the target; no report, of the plan or of
    an alternative, names a missing goal, and at most [KEEP_TOP_K]
    alternatives are reported. *)
Theorem X25_planner_main_saves_valid_choreography (cfg : Config)
    (so : SetOrder) fuel report saved alternative_reports :
  PlannerOutput.main cfg so fuel
  = Some (PlannerOutput.Completed report saved alternative_reports) →
  let moves := PlannerOutput.out_sequence saved in
  (∀ goal, goal ∈ goals cfg → Dict.contains (predecessors cfg) goal = true)
  ∧ goals cfg `sublist_of` moves
  ∧ PlannerOutput.out_goals_completed saved = length (goals cfg)
  ∧ precedence_ok cfg "START" moves = true
  ∧ length moves ≤ MAX_STEPS cfg
  ∧ PlannerOutput.out_total_time saved
    = round2 (double_total_time cfg moves)
  ∧ PlannerOutput.out_time_difference saved
    = round2 (Float64.abs
                (Float64.sub (double_total_time cfg moves)
                   (Float64.of_Q (TARGET_TIME cfg))))
  ∧ PlannerOutput.missing report = []
  ∧ Forall (λ r, PlannerOutput.missing r = []) alternative_reports
  ∧ length alternative_reports ≤ KEEP_TOP_K cfg.
Proof.
  unfold PlannerOutput.main. case_bool_decide as Hmissing; [|done].
  destruct (Planner.find_choreography cfg so fuel) as [[best alternatives]|]
    eqn:Hrun; [|done].
  simpl. destruct best as [best|]; [|done]. intros [= <- <- <-]. simpl.
  destruct (planner_search_sound cfg so _ _ _ best Hrun (or_introl eq_refl))
    as [Hsr Hvalid].
  pose proof (Search.search_reachable_reachable _ _ _ _ Hsr) as Hreach.
  pose proof (planner_count_goals cfg so best Hreach) as Hcount.
  pose proof (planner_solution_goals _ _ _ _ _ _ Hrun (or_introl eq_refl))
    as Hsub.
  pose proof (count_goals_le cfg 0 (Planner.sequence best) (Nat.le_0_l _))
    as Hle.
  rewrite planner_valid_solution_spec in Hvalid.
  apply bool_decide_eq_true in Hvalid.
  split_and!; try done.
  - intros goal Hgoal.
    destruct (Dict.contains (predecessors cfg) goal) eqn:Hc; [done|].
    assert (goal ∈ missing_goals cfg) as Hin.
    { apply missing_goals_elem. split; [done|].
      apply eq_None_not_Some. rewrite <- Dict.contains_get. congruence. }
    rewrite Hmissing in Hin. by apply elem_of_nil in Hin.
  - lia.
  - by apply (planner_precedence cfg so).
  - eapply reachable_length;
      eauto using Planner.planner_initial_empty,
        Planner.planner_expand_extends.
  - apply print_solution_nothing_missing. intros goal Hgoal.
    by eapply elem_of_sublist.
  - apply Forall_fmap, Forall_forall. intros alt Halt. simpl.
    apply print_solution_nothing_missing. intros goal Hgoal.
    eapply elem_of_sublist; [done|].
    eapply planner_solution_goals; [done|]. right.
    eapply elem_of_sublist; [done|apply sublist_take].
  - rewrite length_fmap, length_take. lia.
Qed.

Lemma X25_witness :
  goals two_goals_config `sublist_of` ["A"; "B"]
  ∧ precedence_ok two_goals_config "START" ["A"; "B"] = true.
Proof.
  destruct (X25_planner_main_saves_valid_choreography two_goals_config
              order_as_listed 20
              (PlannerOutput.print_solution two_goals_config
                 (Planner.new_State two_goals_config ["A"; "B"] 2
                    (0 + 2 + 3)%Q))
              (PlannerOutput.save_solution two_goals_config
                 (Planner.new_State two_goals_config ["A"; "B"] 2
                    (0 + 2 + 3)%Q))
              [])
    as (_ & Hsub & _ & Hprec & _).
  - vm_compute. reflexivity.
  - by split.
Defined.

(** ** The commands of [do_moves] in [robot_functions.py]

[do_moves] builds one command line per move and hands its words to
[subprocess.run].  A string is the UTF-8 encoding of Python's text; the
timing and the printing are left out. *)

Module RobotFunctions.

(** The ASCII whitespace of [str.split()]: tab to carriage return, the
    separators 0x1C to 0x1F and the blank. *)
Definition is_ascii_space (n : nat) : bool :=
  (Nat.leb 9 n && Nat.leb n 13) || (Nat.leb 28 n && Nat.leb n 32).

(** The byte at position [i], 256 when the string is shorter. *)
Definition byte (s : string) (i : nat) : nat :=
  match String.get i s with
  | Some c => Ascii.nat_of_ascii c
  | None => 256
  end.

(** The number of bytes of the whitespace character that [s] starts with,
    0 when it starts with none.  Beyond ASCII the whitespace of
    [str.split()] is U+0085 and U+00A0 (C2 85, C2 A0), U+1680 (E1 9A 80),
    U+2000 to U+200A, U+2028, U+2029 and U+202F (E2 80 80 to 8A, A8, A9,
    AF), U+205F (E2 81 9F) and U+3000 (E3 80 80). *)
Definition space_prefix (s : string) : nat :=
  let b0 := byte s 0 in
  let b1 := byte s 1 in
  let b2 := byte s 2 in
  if is_ascii_space b0 then 1
  else if Nat.eqb b0 194 && (Nat.eqb b1 133 || Nat.eqb b1 160) then 2
  else if Nat.eqb b0 225 && Nat.eqb b1 154 && Nat.eqb b2 128 then 3
  else if Nat.eqb b0 226 && Nat.eqb b1 128
          && ((Nat.leb 128 b2 && Nat.leb b2 138)
              || Nat.eqb b2 168 || Nat.eqb b2 169 || Nat.eqb b2 175)
       then 3
  else if Nat.eqb b0 226 && Nat.eqb b1 129 && Nat.eqb b2 159 then 3
  else if Nat.eqb b0 227 && Nat.eqb b1 128 && Nat.eqb b2 128 then 3
  else 0.

(** A word that was read is kept when it is not empty. *)
Definition emit (word : string) (words : list string) : list string :=
  match word with
  | EmptyString => words
  | _ => word :: words
  end.

(** [s.split()]: the maximal runs of characters that are not whitespace.
    [word] is the run being read and [skip] counts the bytes still to pass
    of a whitespace character of several bytes. *)
Fixpoint split_from (skip : nat) (word : string) (s : string)
    : list string :=
  match s with
  | EmptyString => emit word []
  | String c s' =>
      match skip with
      | S skip' => split_from skip' word s'
      | 0 =>
          match space_prefix s with
          | 0 => split_from 0 (word +:+ String c EmptyString) s'
          | S skip' => emit word (split_from skip' EmptyString s')
          end
      end
  end.

Definition split (s : string) : list string := split_from 0 EmptyString s.

(** [f"python2 ./moves/{move}.py  {robot_ip} {port}"] *)
Definition python2_command (move robot_ip port : string) : string :=
  "python2 ./moves/" +:+ move +:+ ".py  " +:+ robot_ip +:+ " " +:+ port.

(** [do_moves]: the argument lists given to [subprocess.run], one for each
    move, in the order of the moves. *)
Definition do_moves (moves : list string) (robot_ip port : string)
    : list (list string) :=
  (λ move, split (python2_command move robot_ip port)) <$> moves.

(** ASCII text without whitespace. *)
Fixpoint ascii_word (s : string) : bool :=
  match s with
  | EmptyString => true
  | String c s' =>
      Nat.ltb (Ascii.nat_of_ascii c) 128
      && negb (is_ascii_space (Ascii.nat_of_ascii c))
      && ascii_word s'
  end.
End RobotFunctions.

Lemma append_cons c (s1 s2 : string) :
  String c s1 +:+ s2 = String c (s1 +:+ s2).
Proof. reflexivity. Qed.

Lemma append_assoc (s1 s2 s3 : string) :
  (s1 +:+ s2) +:+ s3 = s1 +:+ (s2 +:+ s3).
Proof.
  induction s1 as [|c s1 IH]; [done|]. rewrite !append_cons. by f_equal.
Qed.

Lemma append_empty_r (s : string) : s +:+ EmptyString = s.
Proof. induction s as [|c s IH]; [done|]. rewrite append_cons. by f_equal. Qed.

Lemma ascii_word_append (s1 s2 : string) :
  RobotFunctions.ascii_word (s1 +:+ s2)
  = RobotFunctions.ascii_word s1 && RobotFunctions.ascii_word s2.
Proof.
  induction s1 as [|c s1 IH]; [done|]. rewrite append_cons. simpl.
  by rewrite IH, !andb_assoc.
Qed.

(** No whitespace character starts with an ASCII byte that is not
    whitespace itself. *)
Lemma space_prefix_ascii c s :
  Ascii.nat_of_ascii c < 128 →
  RobotFunctions.is_ascii_space (Ascii.nat_of_ascii c) = false →
  RobotFunctions.space_prefix (String c s) = 0.
Proof.
  intros Hlt Hspace. unfold RobotFunctions.space_prefix.
  change (RobotFunctions.byte (String c s) 0) with (Ascii.nat_of_ascii c).
  rewrite Hspace.
  assert (∀ n, 128 ≤ n → Nat.eqb (Ascii.nat_of_ascii c) n = false) as Hne.
  { intros n Hn. apply Nat.eqb_neq. lia. }
  by rewrite (Hne 194), (Hne 225), (Hne 226), (Hne 227) by lia.
Qed.

Lemma split_from_cons word c s :
  RobotFunctions.split_from 0 word (String c s)
  = match RobotFunctions.space_prefix (String c s) with
    | 0 => RobotFunctions.split_from 0 (word +:+ String c EmptyString) s
    | S skip =>
        RobotFunctions.emit word
          (RobotFunctions.split_from skip EmptyString s)
    end.
Proof. reflexivity. Qed.

(** A run of ASCII text without whitespace is read into the current
    word. *)
Lemma split_from_word word w rest :
  RobotFunctions.ascii_word w = true →
  RobotFunctions.split_from 0 word (w +:+ rest)
  = RobotFunctions.split_from 0 (word +:+ w) rest.
Proof.
  revert word. induction w as [|c w IH]; intros word Hw.
  - by rewrite append_empty_r.
  - rewrite append_cons, split_from_cons. simpl in Hw.
    apply andb_true_iff in Hw as [[Hlt Hc]%andb_true_iff Hw].
    apply Nat.ltb_lt in Hlt. apply negb_true_iff in Hc.
    rewrite space_prefix_ascii, IH by done.
    by rewrite append_assoc.
Qed.

(** A blank ends the current word. *)
Lemma split_from_blank word rest :
  RobotFunctions.split_from 0 word (" " +:+ rest)
  = RobotFunctions.emit word
      (RobotFunctions.split_from 0 EmptyString rest).
Proof. reflexivity. Qed.

Lemma split_from_end word :
  RobotFunctions.ascii_word word = true →
  RobotFunctions.split_from 0 EmptyString word
  = RobotFunctions.emit word [].
Proof.
  intros Hw. rewrite <- (append_empty_r word) at 1.
  by rewrite split_from_word.
Qed.

Lemma python2_command_shape move robot_ip port :
  RobotFunctions.python2_command move robot_ip port
  = "python2" +:+ " " +:+ ("./moves/" +:+ move +:+ ".py")
      +:+ " " +:+ " " +:+ robot_ip +:+ " " +:+ port.
Proof.
  unfold RobotFunctions.python2_command. by rewrite !append_assoc.
Qed.

Lemma python2_command_words move robot_ip port :
  RobotFunctions.ascii_word move = true →
  RobotFunctions.ascii_word robot_ip = true →
  RobotFunctions.ascii_word port = true →
  RobotFunctions.split (RobotFunctions.python2_command move robot_ip port)
  = "python2" :: ("./moves/" +:+ move +:+ ".py")
      :: RobotFunctions.emit robot_ip (RobotFunctions.emit port []).
Proof.
  intros Hmove Hip Hport.
  unfold RobotFunctions.split. rewrite python2_command_shape.
  rewrite split_from_word, split_from_blank by done.
  rewrite split_from_word, split_from_blank, split_from_blank
    by (by rewrite !ascii_word_append, Hmove).
  rewrite split_from_word, split_from_blank by done.
  by rewrite split_from_end.
Qed.

(** A move name with a no-break space (U+00A0) makes two words of the
    script. *)
Lemma do_moves_no_break_space :
  RobotFunctions.do_moves
    ["A" +:+ String (Ascii.ascii_of_nat 194)
               (String (Ascii.ascii_of_nat 160) "B")]
    "10.0.0.7" "9559"
  = [["python2"; "./moves/A"; "B.py"; "10.0.0.7"; "9559"]].
Proof. vm_compute. reflexivity. Qed.

(** X26. [do_moves] runs one command for each move, in the order of the
    moves, and when the move names, the address and the port are ASCII
    text without whitespace and the last two are not empty, the words
    given to [subprocess.run] are exactly [python2], the script
    [./moves/<move>.py], the address and the port.  An empty address or
    port is dropped by [split], which leaves fewer arguments. *)
Theorem X26_do_moves_commands (moves : list string) (robot_ip port : string) :
  (∀ move, move ∈ moves → RobotFunctions.ascii_word move = true) →
  RobotFunctions.ascii_word robot_ip = true →
  RobotFunctions.ascii_word port = true →
  length (RobotFunctions.do_moves moves robot_ip port) = length moves
  ∧ RobotFunctions.do_moves moves robot_ip port
    = (λ move, "python2" :: ("./moves/" +:+ move +:+ ".py")
                 :: RobotFunctions.emit robot_ip
                      (RobotFunctions.emit port [])) <$> moves
  ∧ (robot_ip ≠ EmptyString → port ≠ EmptyString →
     RobotFunctions.do_moves moves robot_ip port
     = (λ move, ["python2"; "./moves/" +:+ move +:+ ".py"; robot_ip; port])
         <$> moves).
Proof.
  intros Hmoves Hip Hport.
  assert (RobotFunctions.do_moves moves robot_ip port
          = (λ move, "python2" :: ("./moves/" +:+ move +:+ ".py")
                       :: RobotFunctions.emit robot_ip
                            (RobotFunctions.emit port [])) <$> moves)
    as Hcommands.
  { unfold RobotFunctions.do_moves. apply list_fmap_ext.
    intros i move Hi. apply python2_command_words; [|done..].
    by eapply Hmoves, list_elem_of_lookup_2. }
  split_and!; [|done|].
  - unfold RobotFunctions.do_moves. by rewrite length_fmap.
  - intros Hip_ne Hport_ne. rewrite Hcommands.
    by destruct robot_ip, port.
Qed.

Lemma X26_witness :
  RobotFunctions.do_moves ["StandInit"; "Hello"] "10.0.0.7" "9559"
  = [["python2"; "./moves/StandInit.py"; "10.0.0.7"; "9559"];
     ["python2"; "./moves/Hello.py"; "10.0.0.7"; "9559"]].
Proof.
  apply (X26_do_moves_commands ["StandInit"; "Hello"] "10.0.0.7" "9559").
  - intros move Hmove.
    assert (move = "StandInit" ∨ move = "Hello") as [-> | ->];
      [|reflexivity..].
    apply elem_of_cons in Hmove as [->|Hmove]; [by left|].
    apply list_elem_of_singleton in Hmove. by right.
  - reflexivity.
  - reflexivity.
  - discriminate.
  - discriminate.
Defined.

(** ** From the plan to the robot *)

Lemma main_played p so argv fuel report saved alternative_reports song moves
    ip port :
  main p so argv fuel
  = Some (Played report saved alternative_reports song moves ip port) →
  ∃ best alternatives,
    Main.find_choreography p so fuel = Some (Some best, alternatives)
    ∧ moves = Main.sequence best
    ∧ argv !! 1 = Some ip ∧ argv !! 2 = Some port.
Proof.
  unfold main. case_bool_decide as Hmissing; [|done].
  destruct (Main.find_choreography p so fuel) as [[best alternatives]|]
    eqn:Hrun; [|done].
  simpl. destruct best as [best|]; [|done].
  destruct (print_solution p best); [|done].
  destruct (mapM _ _); [|done].
  destruct (argv !! 1) as [ip'|]; [|done].
  destruct (argv !! 2) as [port'|]; [|done].
  intros [= <- <- <- <- <- <- <-]. by exists best, alternatives.
Qed.

(** X27. The commands [main] of [main.py] sends to the robot: when the
    keys of the predecessor catalog and the two command-line arguments are
    ASCII text without whitespace, and the arguments are not empty,
    [do_moves] runs at most [MAX_STEPS] commands, one for each move of the
    best solution in order, each of them [python2 ./moves/<move>.py ip
    port] with [ip] and [port] the first two arguments of the program. *)
Theorem X27_main_robot_commands (p : Main.Profile) (so : SetOrder)
    argv fuel report saved alternative_reports song moves ip port :
  main p so argv fuel
  = Some (Played report saved alternative_reports song moves ip port) →
  forallb (λ e, RobotFunctions.ascii_word e.1) (Dict.items (predecessors p))
  = true →
  RobotFunctions.ascii_word ip = true →
  RobotFunctions.ascii_word port = true →
  ip ≠ EmptyString → port ≠ EmptyString →
  RobotFunctions.do_moves moves ip port
  = (λ move, ["python2"; "./moves/" +:+ move +:+ ".py"; ip; port]) <$> moves
  ∧ length (RobotFunctions.do_moves moves ip port) ≤ MAX_STEPS p
  ∧ argv !! 1 = Some ip ∧ argv !! 2 = Some port.
Proof.
  intros (best & alternatives & Hrun & -> & Hip & Hport)%main_played
    Hkeys Hip_word Hport_word Hip_ne Hport_ne.
  destruct (main_search_sound p so _ _ _ best Hrun (or_introl eq_refl))
    as [Hsr _].
  pose proof (Search.search_reachable_reachable _ _ _ _ Hsr) as Hreach.
  assert (length (Main.sequence best) ≤ MAX_STEPS p) as Hlen.
  { eapply reachable_length;
      eauto using Main.initial_empty, Main.expand_extends. }
  assert (∀ move, move ∈ Main.sequence best →
            RobotFunctions.ascii_word move = true) as Hmoves.
  { intros move Hmove.
    pose proof (precedence_ok_keys p "START" _ move
                  (main_precedence p so best Hreach) Hmove) as Hkey.
    apply Dict.contains_get in Hkey as [preds Hpreds].
    apply Dict.get_Some_items in Hpreds.
    rewrite forallb_forall in Hkeys.
    by apply (Hkeys (move, preds)), list_elem_of_In. }
  split_and!; [|unfold RobotFunctions.do_moves; by rewrite length_fmap|done..].
  unfold RobotFunctions.do_moves. apply list_fmap_ext.
  intros i move Hi. rewrite python2_command_words; [|
    by eapply Hmoves, list_elem_of_lookup_2|done..].
  by destruct ip, port.
Qed.

Lemma X27_witness :
  RobotFunctions.do_moves ["A"; "B"] "10.0.0.7" "9559"
  = [["python2"; "./moves/A.py"; "10.0.0.7"; "9559"];
     ["python2"; "./moves/B.py"; "10.0.0.7"; "9559"]].
Proof.
  refine (proj1 (X27_main_robot_commands two_goals_profile
                   order_as_listed ["main.py"; "10.0.0.7"; "9559"] 20
                   {| order_respected := true; goals_found := 2;
                      fillers_respected := false;
                      time_in_ideal_range := false |}
                   (Main.save_solution two_goals_profile two_goals_best) []
                   "Drake - One Dance.mp3" ["A"; "B"] "10.0.0.7" "9559"
                   _ _ _ _ _ _)).
  - vm_compute. reflexivity.
  - reflexivity.
  - reflexivity.
  - reflexivity.
  - discriminate.
  - discriminate.
Defined.

(** The catalog shipped with [main.py] holds only keys that are ASCII text
    without whitespace. *)
Lemma main_catalog_words :
  forallb (λ e, RobotFunctions.ascii_word e.1)
          (Dict.items (predecessors main_profile)) = true.
Proof. vm_compute. reflexivity. Qed.
